(** * mini-idb: the promise wrapper over the browser's IndexedDB engine

    A shallow embedding of [src/db.js] (class [DB]) and of the index and
    cursor extension (class [IndexDB]), together with a reference model of the
    host engine the wrapper drives: object stores with in-line keys, secondary
    indexes, forward cursors, and requests that complete with a success or an
    error event. *)

From Stdlib Require Import ZArith Ascii String List Bool Lia.
From stdpp Require Import base option list gmap strings.

Set Warnings "-register-all".

Open Scope Z_scope.
Open Scope string_scope.

(** ** JavaScript values *)

(** Numbers are modelled by integers.  Arrays and objects are mutable
    references in JavaScript; the model keeps their contents and accounts
    for identity in [strict_equal].  [VError] is an exception thrown by
    the engine or the language, known by its name. *)
Inductive jsval : Type :=
  | VUndefined
  | VNull
  | VBool (b : bool)
  | VNum (n : Z)
  | VStr (s : string)
  | VArr (elems : list jsval)
  | VObj (fields : list (string * jsval))
  | VError (name : string).

(** A plain object: its own properties, in insertion order.  Its prototype
    is [Object.prototype]. *)
Abbreviation record := (list (string * jsval)).

(** [Object.prototype.hasOwnProperty], applied to [obj] and [name]. *)
Fixpoint hasOwnProperty (obj : record) (name : string) : bool :=
  match obj with
  | [] => false
  | (n, _) :: rest => if String.eqb n name then true else hasOwnProperty rest name
  end.

(** [obj[name]] on own properties; a missing property reads [undefined].
    (The properties an object inherits from [Object.prototype] are
    functions, which no value of [jsval] is.  The source calls one of
    them, see [call_hasOwnProperty] below; it reads a property that may be
    inherited only to compare it with the key field of a stored record,
    which is equal to none of them.) *)
Fixpoint get_prop (obj : record) (name : string) : jsval :=
  match obj with
  | [] => VUndefined
  | (n, v) :: rest => if String.eqb n name then v else get_prop rest name
  end.

(** The operator [===] between a value handed out by the engine and a value
    supplied by the caller.  Primitives compare by content.  Arrays and
    objects compare by identity, and what the engine hands out is always a
    fresh structured clone, so the comparison is false for them. *)
Definition strict_equal (a b : jsval) : bool :=
  match a, b with
  | VUndefined, VUndefined => true
  | VNull, VNull => true
  | VBool x, VBool y => Bool.eqb x y
  | VNum x, VNum y => Z.eqb x y
  | VStr x, VStr y => String.eqb x y
  | _, _ => false
  end.

(** The object has an own property named [hasOwnProperty], which hides the
    method of the prototype. *)
Definition shadowed (obj : record) : bool := hasOwnProperty obj "hasOwnProperty".

(** [arr.indexOf(x) > -1] *)
Definition indexOf_found (arr : list jsval) (x : jsval) : bool :=
  existsb (fun y => strict_equal y x) arr.

(** ** Strings

    A JavaScript string is a sequence of UTF-16 code units.  The model
    writes a string as the bytes of its UTF-8 encoding, as the status
    messages of the source are written, and computes the code units from
    them where the engine looks at them: the order of string keys and the
    [length] of a string. *)

Definition byte (c : ascii) : Z := Z.of_N (N_of_ascii c).

(** The payload of a continuation byte. *)
Definition continuation (c : ascii) : Z := Z.land (byte c) 63.

(** The code points a string encodes.  A lead byte announces one, two or
    three continuation bytes. *)
Fixpoint code_points (s : string) : list Z :=
  match s with
  | EmptyString => []
  | String c0 s0 =>
      let b0 := byte c0 in
      if Z.ltb b0 192 then b0 :: code_points s0
      else
        match s0 with
        | EmptyString => [b0]
        | String c1 s1 =>
            if Z.ltb b0 224 then
              (Z.land b0 31 * 64 + continuation c1) :: code_points s1
            else
              match s1 with
              | EmptyString => [b0]
              | String c2 s2 =>
                  if Z.ltb b0 240 then
                    ((Z.land b0 15 * 64 + continuation c1) * 64 + continuation c2)
                      :: code_points s2
                  else
                    match s2 with
                    | EmptyString => [b0]
                    | String c3 s3 =>
                        (((Z.land b0 7 * 64 + continuation c1) * 64 + continuation c2) * 64
                         + continuation c3) :: code_points s3
                    end
              end
        end
  end.

(** A code point above the basic plane takes two code units, a surrogate
    pair. *)
Definition units_of_code_point (cp : Z) : list Z :=
  if Z.ltb cp 65536 then [cp]
  else [55296 + Z.shiftr (cp - 65536) 10; 56320 + Z.land (cp - 65536) 1023].

Definition code_units (s : string) : list Z :=
  flat_map units_of_code_point (code_points s).

(** Comparison of two strings code unit by code unit; a proper prefix
    comes first. *)
Fixpoint compare_units (xs ys : list Z) : comparison :=
  match xs, ys with
  | [], [] => Eq
  | [], _ :: _ => Lt
  | _ :: _, [] => Gt
  | x :: xs', y :: ys' =>
      match Z.compare x y with
      | Eq => compare_units xs' ys'
      | c => c
      end
  end.

(** ** Keys of the engine *)

(** Valid keys: numbers, strings and arrays of keys (dates and binary keys
    are left out). *)
Inductive idbkey : Type :=
  | KNum (n : Z)
  | KStr (s : string)
  | KArr (ks : list idbkey).

Fixpoint key_eq_dec (a b : idbkey) : {a = b} + {a <> b}.
Proof.
  decide equality.
  - apply Z.eq_dec.
  - apply string_dec.
  - apply (Stdlib.Lists.List.list_eq_dec key_eq_dec).
Defined.

#[global] Instance key_eq_decision : EqDecision idbkey := key_eq_dec.

(** The engine's order on keys: numbers before strings before arrays,
    strings compared by code units, arrays element by element. *)
Fixpoint key_compare (a b : idbkey) : comparison :=
  match a, b with
  | KNum x, KNum y => Z.compare x y
  | KNum _, _ => Lt
  | KStr _, KNum _ => Gt
  | KStr x, KStr y => compare_units (code_units x) (code_units y)
  | KStr _, KArr _ => Lt
  | KArr xs, KArr ys =>
      (fix go (xs ys : list idbkey) : comparison :=
         match xs, ys with
         | [], [] => Eq
         | [], _ :: _ => Lt
         | _ :: _, [] => Gt
         | x :: xs', y :: ys' =>
             match key_compare x y with
             | Eq => go xs' ys'
             | c => c
             end
         end) xs ys
  | KArr _, _ => Gt
  end.

(** Conversion of a value to a key; [None] when the value is not a valid key. *)
Fixpoint to_key (v : jsval) : option idbkey :=
  match v with
  | VNum n => Some (KNum n)
  | VStr s => Some (KStr s)
  | VArr elems =>
      option_map KArr
        ((fix go (l : list jsval) : option (list idbkey) :=
            match l with
            | [] => Some []
            | x :: l' =>
                match to_key x, go l' with
                | Some k, Some ks => Some (k :: ks)
                | _, _ => None
                end
            end) elems)
  | _ => None
  end.

(** A key as the engine hands it back to scripts. *)
Fixpoint key_to_value (k : idbkey) : jsval :=
  match k with
  | KNum n => VNum n
  | KStr s => VStr s
  | KArr ks => VArr (map key_to_value ks)
  end.

(** ** The host engine: key paths *)

(** A key path is split at every full stop. *)
Fixpoint split_path (p : string) : list string :=
  match p with
  | EmptyString => [EmptyString]
  | String c rest =>
      if Ascii.eqb c "." then EmptyString :: split_path rest
      else
        match split_path rest with
        | id :: ids => String c id :: ids
        | [] => [String c EmptyString]
        end
  end.

Definition identifier_start (c : ascii) : bool :=
  let b := byte c in
  (Z.leb 65 b && Z.leb b 90) || (Z.leb 97 b && Z.leb b 122)
  || Z.eqb b 36 || Z.eqb b 95.

Definition identifier_part (c : ascii) : bool :=
  identifier_start c || (Z.leb 48 (byte c) && Z.leb (byte c) 57).

(** An identifier of the language.  Letters outside ASCII are not
    recognised: which of them an engine admits depends on the Unicode
    tables it was built with. *)
Definition identifier (s : string) : bool :=
  match s with
  | EmptyString => false
  | String c rest => identifier_start c && forallb identifier_part (list_ascii_of_string rest)
  end.

(** A valid key path: the empty string, an identifier, or identifiers
    separated by full stops.  The engine refuses any other string when a
    store or an index is created.  (On strings of ASCII characters the
    test is the engine's; a string with other characters is refused here,
    and the properties below claim nothing about it.) *)
Definition valid_key_path (p : string) : bool :=
  String.eqb p "" || forallb identifier (split_path p).

(** A key path of one step: it names one field of the record. *)
Definition one_field (p : string) : bool :=
  negb (String.eqb p "")
  && forallb (fun c => negb (Ascii.eqb c ".")) (list_ascii_of_string p).

Definition ascii_only (p : string) : bool :=
  forallb (fun c => Z.ltb (byte c) 128) (list_ascii_of_string p).

(** One step of the evaluation of a key path: [length] of a string or of
    an array, and an own property of an object that is not [undefined].
    (The other own properties of an array are its indices, which no
    identifier names.) *)
Definition evaluate_step (v : jsval) (id : string) : option jsval :=
  match v with
  | VStr s =>
      if String.eqb id "length" then Some (VNum (Z.of_nat (length (code_units s))))
      else None
  | VArr elems =>
      if String.eqb id "length" then Some (VNum (Z.of_nat (length elems))) else None
  | VObj fields =>
      if hasOwnProperty fields id then
        match get_prop fields id with
        | VUndefined => None
        | v' => Some v'
        end
      else None
  | _ => None
  end.

Fixpoint evaluate_steps (v : jsval) (ids : list string) : option jsval :=
  match ids with
  | [] => Some v
  | id :: rest =>
      match evaluate_step v id with
      | Some v' => evaluate_steps v' rest
      | None => None
      end
  end.

(** Evaluation of a key path on a value; the empty path is the value
    itself.  [None] when the path leads nowhere. *)
Definition evaluate_key_path (p : string) (v : jsval) : option jsval :=
  if String.eqb p "" then Some v else evaluate_steps v (split_path p).

(** ** The host engine: object stores *)

(** An index declaration [{indexName, keyPath, objectParameters}] of the
    constructor's store list; of [objectParameters] the model keeps the
    [unique] flag. *)
Record index_decl : Type := {
  indexName : string;
  index_keyPath : string;
  unique : bool
}.

(** A store declaration [{name, key, indexList}]; [indexList] is optional. *)
Record store_decl : Type := {
  store_name : string;
  store_key : string;
  indexList : option (list index_decl)
}.

(** An object store with in-line keys: the key of a record is read from the
    record at [keyPath].  [records] is kept in key order. *)
Record object_store : Type := {
  keyPath : string;
  records : list record;
  indexes : list index_decl
}.

Definition with_records (s : object_store) (rs : list record) : object_store :=
  {| keyPath := keyPath s; records := rs; indexes := indexes s |}.

(** The key of a record at a key path; [None] when the path leads
    nowhere or to a value that is not a valid key. *)
Definition record_key (path : string) (r : record) : option idbkey :=
  match evaluate_key_path path (VObj r) with
  | Some v => to_key v
  | None => None
  end.

Definition has_key (path : string) (k : idbkey) (r : record) : bool :=
  bool_decide (record_key path r = Some k).

Definition store_lookup (s : object_store) (k : idbkey) : option record :=
  List.find (has_key (keyPath s) k) (records s).

Fixpoint keys_of (path : string) (rs : list record) : list idbkey :=
  match rs with
  | [] => []
  | r :: rs' =>
      match record_key path r with
      | Some k => k :: keys_of path rs'
      | None => keys_of path rs'
      end
  end.

Definition store_keys (s : object_store) : list idbkey :=
  keys_of (keyPath s) (records s).

(** Insertion of a record with key [k] at its place in key order. *)
Fixpoint insert_sorted (path : string) (k : idbkey) (r : record) (l : list record)
  : list record :=
  match l with
  | [] => [r]
  | r' :: l' =>
      match record_key path r' with
      | Some k' =>
          match key_compare k k' with
          | Lt => r :: l
          | _ => r' :: insert_sorted path k r l'
          end
      | None => r' :: insert_sorted path k r l'
      end
  end.

(** Replacement of the record stored under [k]. *)
Definition replace_record (path : string) (k : idbkey) (r : record) (l : list record)
  : list record :=
  map (fun r' => if has_key path k r' then r else r') l.

(** A unique index refuses a record whose index key is already held by a
    record with another primary key. *)
Definition violates_unique (s : object_store) (k : idbkey) (r : record) : bool :=
  existsb
    (fun ix =>
       unique ix &&
       match record_key (index_keyPath ix) r with
       | Some ik =>
           existsb
             (fun r' => has_key (index_keyPath ix) ik r' && negb (has_key (keyPath s) k r'))
             (records s)
       | None => false
       end)
    (indexes s).

(** The completion of a native request: the event it fires. *)
Inductive request_event : Type :=
  | OnSuccess (result : jsval)
  | OnError.

(** A call either throws or returns. *)
Inductive completion (A : Type) : Type :=
  | Throws (e : jsval)
  | Returns (a : A).
Arguments Throws {A} e.
Arguments Returns {A} a.

Definition DataError : jsval := VError "DataError".
Definition ConstraintError : jsval := VError "ConstraintError".
Definition NotFoundError : jsval := VError "NotFoundError".
Definition ReadOnlyError : jsval := VError "ReadOnlyError".
Definition InvalidStateError : jsval := VError "InvalidStateError".
Definition TypeError : jsval := VError "TypeError".

(** [obj.hasOwnProperty(name)], as the source writes the test: the method
    is looked up on the object itself.  An own property of that name hides
    the method of the prototype, and calling what is not a function is a
    [TypeError] (no value of [jsval] is a function). *)
Definition call_hasOwnProperty (obj : record) (name : string) : completion bool :=
  if shadowed obj then Throws TypeError else Returns (hasOwnProperty obj name).

(** [store.add(value)]: throws on a value without a valid key; the request
    errors when the key is taken or a unique index is violated. *)
Definition native_add (s : object_store) (r : record)
  : completion (request_event * object_store) :=
  match record_key (keyPath s) r with
  | None => Throws DataError
  | Some k =>
      if existsb (has_key (keyPath s) k) (records s) || violates_unique s k r
      then Returns (OnError, s)
      else Returns (OnSuccess (key_to_value k),
                    with_records s (insert_sorted (keyPath s) k r (records s)))
  end.

(** [store.put(value)]: as [add], but a record under the same key is
    overwritten. *)
Definition native_put (s : object_store) (r : record)
  : completion (request_event * object_store) :=
  match record_key (keyPath s) r with
  | None => Throws DataError
  | Some k =>
      if violates_unique s k r then Returns (OnError, s)
      else if existsb (has_key (keyPath s) k) (records s)
      then Returns (OnSuccess (key_to_value k),
                    with_records s (replace_record (keyPath s) k r (records s)))
      else Returns (OnSuccess (key_to_value k),
                    with_records s (insert_sorted (keyPath s) k r (records s)))
  end.

(** [store.get(key)] *)
Definition native_get (s : object_store) (q : jsval)
  : completion (request_event * object_store) :=
  match to_key q with
  | None => Throws DataError
  | Some k =>
      Returns (OnSuccess (match store_lookup s k with
                          | Some r => VObj r
                          | None => VUndefined
                          end), s)
  end.

(** [store.getAll()] *)
Definition native_getAll (s : object_store) : request_event * object_store :=
  (OnSuccess (VArr (map VObj (records s))), s).

(** [store.getAllKeys()] *)
Definition native_getAllKeys (s : object_store) : request_event * object_store :=
  (OnSuccess (VArr (map key_to_value (store_keys s))), s).

(** [store.delete(key)] *)
Definition native_delete (s : object_store) (q : jsval)
  : completion (request_event * object_store) :=
  match to_key q with
  | None => Throws DataError
  | Some k =>
      Returns (OnSuccess VUndefined,
               with_records s (List.filter (fun r => negb (has_key (keyPath s) k r)) (records s)))
  end.

(** [store.clear()] *)
Definition native_clear (s : object_store) : request_event * object_store :=
  (OnSuccess VUndefined, with_records s []).

(** ** The host engine: secondary indexes *)

(** The entries of an index: the records that have a valid key at the
    index's key path, ordered by index key and then by primary key. *)
Fixpoint insert_entry (e : idbkey * record) (l : list (idbkey * record))
  : list (idbkey * record) :=
  match l with
  | [] => [e]
  | e' :: l' =>
      match key_compare (fst e) (fst e') with
      | Gt => e' :: insert_entry e l'
      | _ => e :: l
      end
  end.

Definition index_entries (s : object_store) (ix : index_decl) : list (idbkey * record) :=
  foldr insert_entry []
    (omap (fun r => option_map (fun ik => (ik, r)) (record_key (index_keyPath ix) r))
          (records s)).

Definition entries_at (s : object_store) (ix : index_decl) (k : idbkey)
  : list (idbkey * record) :=
  List.filter (fun e => bool_decide (fst e = k)) (index_entries s ix).

(** The methods of an index that the wrapper calls. *)
Inductive index_action : Type :=
  | IxGet (q : jsval)
  | IxCount (q : jsval)
  | IxGetAll
  | IxGetAllKeys
  | IxGetKey (q : jsval).

Definition primary_key_value (s : object_store) (r : record) : jsval :=
  match record_key (keyPath s) r with
  | Some k => key_to_value k
  | None => VUndefined
  end.

Definition native_index (s : object_store) (ix : index_decl) (a : index_action)
  : completion request_event :=
  match a with
  | IxGet q =>
      match to_key q with
      | None => Throws DataError
      | Some k =>
          Returns (OnSuccess (match entries_at s ix k with
                              | (_, r) :: _ => VObj r
                              | [] => VUndefined
                              end))
      end
  | IxGetKey q =>
      match to_key q with
      | None => Throws DataError
      | Some k =>
          Returns (OnSuccess (match entries_at s ix k with
                              | (_, r) :: _ => primary_key_value s r
                              | [] => VUndefined
                              end))
      end
  | IxCount q =>
      match q with
      | VUndefined | VNull =>
          Returns (OnSuccess (VNum (Z.of_nat (length (index_entries s ix)))))
      | _ =>
          match to_key q with
          | None => Throws DataError
          | Some k =>
              Returns (OnSuccess (VNum (Z.of_nat (length (entries_at s ix k)))))
          end
      end
  | IxGetAll =>
      Returns (OnSuccess (VArr (map (fun e => VObj (snd e)) (index_entries s ix))))
  | IxGetAllKeys =>
      Returns (OnSuccess
                 (VArr (map (fun e => primary_key_value s (snd e)) (index_entries s ix))))
  end.

(** ** The host: database, faults, window *)

(** The state of the host engine for the one database the wrapper names.
    [version] is 0 while the database does not exist.  [faults] schedules
    engine failures (quota, I/O, abort): the n-th request issued from now
    on fires an error event when the n-th flag is set. *)
Record world : Type := {
  version : Z;
  stores : gmap string object_store;
  faults : list bool
}.

Definition next_fault (w : world) : bool * world :=
  match faults w with
  | [] => (false, w)
  | f :: fs => (f, {| version := version w; stores := stores w; faults := fs |})
  end.

Definition set_store (name : string) (s : object_store) (w : world) : world :=
  {| version := version w; stores := <[name := s]> (stores w); faults := faults w |}.

(** The engine object a browser exposes, when it has one. *)
Inductive IDBFactory : Type := Factory.

Record window : Type := {
  indexedDB : option IDBFactory;
  webkitIndexedDB : option IDBFactory
}.

(** [a || b] on possibly undefined objects. *)
Definition js_or {A : Type} (a b : option A) : option A :=
  match a with
  | Some x => Some x
  | None => b
  end.

(** ** Promises *)

(** The fate of a promise. *)
Inductive promise : Type :=
  | Pending
  | Resolved (v : jsval)
  | Rejected (reason : jsval).

(** The executor's [resolve] and [reject] act once: the first call decides,
    later calls are ignored.  A cell is [None] until that first call.
    Resolving with another promise hands the cell that promise's fate. *)
Definition resolve (cell : option promise) (p : promise) : option promise :=
  match cell with
  | None => Some p
  | Some _ => cell
  end.

(** The fate of a cell on which [resolve p] is the last call. *)
Definition settle (cell : option promise) (p : promise) : promise :=
  match cell with
  | None => p
  | Some q => q
  end.

(** The fate of a cell on which nobody calls [resolve] any more. *)
Definition abandon (cell : option promise) : promise :=
  match cell with
  | None => Pending
  | Some q => q
  end.

(** ** Calls against the world *)

Definition M (A : Type) : Type := world -> completion A * world.

Definition ret {A : Type} (a : A) : M A := fun w => (Returns a, w).

Definition throw {A : Type} (e : jsval) : M A := fun w => (Throws e, w).

Definition bind {A B : Type} (m : M A) (k : A -> M B) : M B :=
  fun w =>
    match m w with
    | (Throws e, w') => (Throws e, w')
    | (Returns a, w') => k a w'
    end.

(** A computation that does not touch the world. *)
Definition lift {A : Type} (c : completion A) : M A := fun w => (c, w).

Notation "'let*' x ':=' m 'in' k" := (bind m (fun x => k))
  (at level 10, x name, m at level 100, k at level 200).

(** An [async] function returns a promise whatever happens: an exception in
    its body rejects that promise. *)
Definition async (body : M promise) : M promise :=
  fun w =>
    match body w with
    | (Throws e, w') => (Returns (Rejected e), w')
    | (Returns p, w') => (Returns p, w')
    end.

(** [await p] inside an [async] body; a promise that never settles leaves
    the function suspended, which the caller sees as a pending promise. *)
Definition await (p : promise) (k : jsval -> M promise) : M promise :=
  match p with
  | Resolved v => k v
  | Rejected e => throw e
  | Pending => ret Pending
  end.

(** ** [src/db.js]: the status table *)

Definition status (code : Z) (message : string) : jsval :=
  VObj [("code", VNum code); ("message", VStr message)].

Module errorCode.
Definition openFail := status 101 "打开数据库失败".
Definition compatibleFail := status 102 "你的浏览器不支持indexedDB".
Definition setSuccess := status 103 "插入新数据成功".
Definition setFail := status 104 "插入新数据失败".
Definition setNoCorresponding := status 105 "插入新数据失败,value不存在与store对应的key".
Definition updateSuccess := status 106 "更新数据成功".
Definition updateFail := status 107 "更新数据失败".
Definition removeSuccess := status 108 "删除数据成功".
Definition removeFail := status 109 "删除数据失败".
Definition removeAllSuccess := status 110 "清空store成功".
Definition removeAllFail := status 111 "清空store失败".
Definition setBatchSuccess := status 112 "批量插入数据成功".
Definition setBatchFail := status 113 "批量插入数据失败".
End errorCode.

(** ** [src/db.js]: class [DB] *)

(** What [this._dataBase] holds: the empty object literal the constructor
    puts there, or the connection a successful open stored ([closed] once
    [close] was called on it). *)
Inductive handle : Type :=
  | EmptyObject
  | Connection (closed : bool).

(** Truthiness of [this._dataBase]: every object is truthy. *)
Definition truthy (h : handle) : bool :=
  match h with
  | EmptyObject => true
  | Connection _ => true
  end.

Record DB : Type := {
  _dataBase : handle;
  _dataBaseName : string;
  _dbVersion : Z;
  _indexedDB : option IDBFactory;
  _storeList : list store_decl
}.

Definition constructor (win : window) (dataBaseName : string)
    (storeList : list store_decl) : DB :=
  {| _dataBase := EmptyObject;
     _dataBaseName := dataBaseName;
     _dbVersion := 1;
     _indexedDB := js_or (indexedDB win) (webkitIndexedDB win);
     _storeList := storeList |}.

Definition with_dataBase (self : DB) (h : handle) : DB :=
  {| _dataBase := h;
     _dataBaseName := _dataBaseName self;
     _dbVersion := _dbVersion self;
     _indexedDB := _indexedDB self;
     _storeList := _storeList self |}.

(** What the promise of [open] is settled with: the instance itself
    ([resolve(this)]), a status, or a rejection. *)
Inductive open_promise : Type :=
  | OpenResolvedThis (self : DB)
  | OpenResolved (v : jsval)
  | OpenRejected (reason : jsval).

(** [store.createIndex(indexName, keyPath, objectParameters)]; a second
    index under the same name is refused, and so is a key path that is not
    valid.  [None] when the engine throws. *)
Definition store_createIndex (ix : index_decl) (s : object_store)
  : option object_store :=
  if existsb (fun ix' => String.eqb (indexName ix') (indexName ix)) (indexes s)
  then None
  else if valid_key_path (index_keyPath ix)
  then Some {| keyPath := keyPath s; records := records s;
               indexes := indexes s ++ [ix] |}
  else None.

(** [db.createObjectStore(name, {keyPath: key})] on a database without a
    store of that name; [None] when the engine throws, on a key path that
    is not valid. *)
Definition createObjectStore (key : string) : option object_store :=
  if valid_key_path key
  then Some {| keyPath := key; records := []; indexes := [] |}
  else None.

(** The body of the [upgradeneeded] handler: every declared store that the
    database does not contain yet is created, and [createIndex] is called
    on it when the declaration has an index list.  [None] when the handler
    throws, which aborts the upgrade. *)
Fixpoint upgrade (createIndex : list index_decl -> object_store -> option object_store)
    (storeList : list store_decl) (db : gmap string object_store)
  : option (gmap string object_store) :=
  match storeList with
  | [] => Some db
  | decl :: rest =>
      match db !! store_name decl with
      | Some _ => upgrade createIndex rest db
      | None =>
          match createObjectStore (store_key decl) with
          | Some store =>
              match indexList decl with
              | Some l =>
                  match createIndex l store with
                  | Some store' =>
                      upgrade createIndex rest (<[store_name decl := store']> db)
                  | None => None
                  end
              | None => upgrade createIndex rest (<[store_name decl := store]> db)
              end
          | None => None
          end
      end
  end.

(** [async open(createIndex = ()=> {})].  The native open request errors on
    a fault, on a database of a newer version, and when the upgrade is
    aborted; otherwise [upgradeneeded] runs for a database that does not
    exist yet, and [success] follows. *)
Definition open_with (createIndex : list index_decl -> object_store -> option object_store)
    (self : DB) (w : world) : open_promise * world :=
  if truthy (_dataBase self) then
    match _indexedDB self with
    | None => (OpenRejected TypeError, w)
    | Some _ =>
        let '(fault, w1) := next_fault w in
        if fault || Z.ltb (_dbVersion self) (version w1) then
          (OpenRejected errorCode.openFail, w1)
        else if Z.ltb (version w1) (_dbVersion self) then
          match upgrade createIndex (_storeList self) (stores w1) with
          | Some db =>
              (OpenResolvedThis (with_dataBase self (Connection false)),
               {| version := _dbVersion self; stores := db; faults := faults w1 |})
          | None => (OpenRejected errorCode.openFail, w1)
          end
        else (OpenResolvedThis (with_dataBase self (Connection false)), w1)
    end
  else (OpenResolved errorCode.compatibleFail, w).

(** [DB.open()] with the default argument, a function that does nothing. *)
Definition open (self : DB) (w : world) : open_promise * world :=
  open_with (fun _ store => Some store) self w.

(** [close()] *)
Definition close (self : DB) : completion DB :=
  match _dataBase self with
  | EmptyObject => Throws TypeError
  | Connection _ => Returns (with_dataBase self (Connection true))
  end.

Inductive mode : Type := readonly | readwrite.

(** [getStore(storeName, mode)]: [this._dataBase.transaction(storeName,
    mode).objectStore(storeName)]. *)
Definition getStore (self : DB) (storeName : string) (m : mode) : M object_store :=
  match _dataBase self with
  | EmptyObject => throw TypeError
  | Connection true => throw InvalidStateError
  | Connection false =>
      fun w =>
        match stores w !! storeName with
        | Some s => (Returns s, w)
        | None => (Throws NotFoundError, w)
        end
  end.

(** [promisify(req, success, error)] *)
Definition promisify (req : request_event) (success error : jsval) : promise :=
  match req with
  | OnSuccess _ => Resolved success
  | OnError => Rejected error
  end.

(** [promisifyRes(req)] *)
Definition promisifyRes (req : request_event) : promise :=
  match req with
  | OnSuccess result => Resolved result
  | OnError => Resolved VUndefined
  end.

(** The methods of an object store that [makeRequest] is called with. *)
Inductive store_action : Type :=
  | Add (v : record)
  | Put (v : record)
  | Get (k : jsval)
  | GetAll
  | GetAllKeys
  | Delete (k : jsval)
  | Clear.

Definition writes (a : store_action) : bool :=
  match a with
  | Add _ | Put _ | Delete _ | Clear => true
  | Get _ | GetAll | GetAllKeys => false
  end.

Definition native (s : object_store) (a : store_action)
  : completion (request_event * object_store) :=
  match a with
  | Add v => native_add s v
  | Put v => native_put s v
  | Get k => native_get s k
  | GetAll => Returns (native_getAll s)
  | GetAllKeys => Returns (native_getAllKeys s)
  | Delete k => native_delete s k
  | Clear => Returns (native_clear s)
  end.

(** The request runs in a transaction of its own; when it errors, the
    transaction aborts and the store keeps its contents. *)
Definition issue (storeName : string) (r : request_event * object_store)
  : M request_event :=
  fun w =>
    let '(fault, w1) := next_fault w in
    if fault then (Returns OnError, w1)
    else match fst r with
         | OnSuccess _ => (Returns (fst r), set_store storeName (snd r) w1)
         | OnError => (Returns OnError, w1)
         end.

(** [makeRequest(storeName, mode, action, ...params)] *)
Definition makeRequest (self : DB) (storeName : string) (m : mode) (action : store_action)
  : M request_event :=
  let* s := getStore self storeName m in
  match m, writes action with
  | readonly, true => throw ReadOnlyError
  | _, _ =>
      match native s action with
      | Throws e => throw e
      | Returns r => issue storeName r
      end
  end.

(** [update(storeName, newValue)] *)
Definition update (self : DB) (storeName : string) (newValue : record) : M promise :=
  let* req := makeRequest self storeName readwrite (Put newValue) in
  ret (promisify req errorCode.updateSuccess errorCode.updateFail).

(** [get(storeName, key)] *)
Definition get (self : DB) (storeName : string) (k : jsval) : M promise :=
  let* req := makeRequest self storeName readonly (Get k) in
  ret (promisifyRes req).

(** [getAll(storeName)] *)
Definition getAll (self : DB) (storeName : string) : M promise :=
  let* req := makeRequest self storeName readonly GetAll in
  ret (promisifyRes req).

(** [getAllKeys(storeName)] *)
Definition getAllKeys (self : DB) (storeName : string) : M promise :=
  let* req := makeRequest self storeName readonly GetAllKeys in
  ret (promisifyRes req).

(** [remove(storeName, key)] *)
Definition remove (self : DB) (storeName : string) (k : jsval) : M promise :=
  let* req := makeRequest self storeName readwrite (Delete k) in
  ret (promisify req errorCode.removeSuccess errorCode.removeFail).

(** [removeAll(storeName)] *)
Definition removeAll (self : DB) (storeName : string) : M promise :=
  let* req := makeRequest self storeName readwrite Clear in
  ret (promisify req errorCode.removeAllSuccess errorCode.removeAllFail).

(** [async set(storeName, value)] in two parts, split at its one [await].

    [set_begin] is the synchronous part: the key path is read and, when the
    value has that property, the [getAllKeys] request is issued. *)
Inductive set_state : Type :=
  | SetReturned (p : promise)
  | SetAwaiting (key : string) (keys : promise).

Definition set_begin (self : DB) (storeName : string) (value : record) : M set_state :=
  let* s := getStore self storeName readonly in
  let key := keyPath s in
  let* has := lift (call_hasOwnProperty value key) in
  if has then
    let* keys := getAllKeys self storeName in
    ret (SetAwaiting key keys)
  else ret (SetReturned (Resolved errorCode.setNoCorresponding)).

(** [set_resume] is the part after the [await], run with what the key scan
    resolved with; [keys.indexOf] on [undefined] is a [TypeError]. *)
Definition set_resume (self : DB) (storeName : string) (value : record) (key : string)
    (keys : jsval) : M promise :=
  match keys with
  | VArr ks =>
      if indexOf_found ks (get_prop value key) then
        update self storeName value
      else
        let* req := makeRequest self storeName readwrite (Add value) in
        ret (promisify req errorCode.setSuccess errorCode.setFail)
  | _ => throw TypeError
  end.

Definition set (self : DB) (storeName : string) (value : record) : M promise :=
  async (let* st := set_begin self storeName value in
         match st with
         | SetReturned p => ret p
         | SetAwaiting key keys => await keys (set_resume self storeName value key)
         end).

(** A promise handed to [Promise.all], with the step of the batch at which
    it settles: 0 during the call that created it, 1 when its key scan
    completes, 2 when its write request completes. *)
Record settled : Type := {
  step : nat;
  fate : promise
}.

Definition earlier (best : option (nat * jsval)) (p : settled) : option (nat * jsval) :=
  match fate p with
  | Rejected e =>
      match best with
      | None => Some (step p, e)
      | Some b => if Nat.ltb (step p) (fst b) then Some (step p, e) else best
      end
  | _ => best
  end.

Definition fulfilled_value (p : settled) : option jsval :=
  match fate p with
  | Resolved v => Some v
  | _ => None
  end.

(** [Promise.all(ps)]: rejected with the reason of the first promise to
    reject; resolved with the array of all values when every promise
    resolves; pending otherwise. *)
Definition Promise_all (ps : list settled) : promise :=
  match foldl earlier None ps with
  | Some (_, e) => Rejected e
  | None =>
      match mapM fulfilled_value ps with
      | Some vs => Resolved (VArr vs)
      | None => Pending
      end
  end.

(** The loop of [setBatch] calls [set] on every item before any of the
    calls gets past its [await]: all key scans are issued, in read-only
    transactions, before the first write transaction is created, so every
    scan sees the store as it was when [setBatch] was called.  The calls
    then resume in order. *)
Inductive set_call : Type :=
  | Settled (p : settled)
  | Suspended (value : record) (key : string) (keys : promise).

Fixpoint setBatch_calls (self : DB) (storeName : string) (items : list record) (w : world)
  : list set_call * world :=
  match items with
  | [] => ([], w)
  | item :: rest =>
      let '(c, w1) := set_begin self storeName item w in
      let call :=
        match c with
        | Throws e => Settled {| step := 0; fate := Rejected e |}
        | Returns (SetReturned p) => Settled {| step := 0; fate := p |}
        | Returns (SetAwaiting key keys) => Suspended item key keys
        end in
      let '(calls, w2) := setBatch_calls self storeName rest w1 in
      (call :: calls, w2)
  end.

Fixpoint setBatch_resume (self : DB) (storeName : string) (calls : list set_call)
    (w : world) : list settled * world :=
  match calls with
  | [] => ([], w)
  | Settled p :: rest =>
      let '(ps, w1) := setBatch_resume self storeName rest w in
      (p :: ps, w1)
  | Suspended item key keys :: rest =>
      let '(c, w1) := await keys (set_resume self storeName item key) w in
      let p :=
        match c with
        | Throws e => {| step := 1; fate := Rejected e |}
        | Returns q => {| step := 2; fate := q |}
        end in
      let '(ps, w2) := setBatch_resume self storeName rest w1 in
      (p :: ps, w2)
  end.

Definition array_length (v : jsval) : nat :=
  match v with
  | VArr l => length l
  | _ => 0
  end.

(** [async setBatch(storeName, list)] *)
Definition setBatch (self : DB) (storeName : string) (items : list record) : M promise :=
  async (fun w =>
    let '(calls, w1) := setBatch_calls self storeName items w in
    let '(setList, w2) := setBatch_resume self storeName calls w1 in
    await (Promise_all setList)
      (fun resList =>
         ret (Resolved (if Nat.eqb (array_length resList) (length items)
                        then errorCode.setBatchSuccess
                        else errorCode.setBatchFail))) w2).

(** ** The index and cursor extension: the status table *)

Module indexErrorCode.
Definition updateSuccess := status 114 "更新成功".
Definition updateFail := status 115 "更新失败".
Definition noFound := status 116 "没有找到符合条件的值".
Definition primaryKey := status 117 "不能修改主键".
Definition deleteSuccess := status 118 "删除成功".
Definition deleteFail := status 119 "删除失败".
End indexErrorCode.

(** ** Class [IndexDB extends DB] *)

(** [createIndex(indexList, store)]; [None] when the engine throws. *)
Fixpoint createIndex (indexList : list index_decl) (store : object_store)
  : option object_store :=
  match indexList with
  | [] => Some store
  | ix :: rest =>
      match store_createIndex ix store with
      | Some store' => createIndex rest store'
      | None => None
      end
  end.

(** [IndexDB.open()]: [super.open(this.createIndex)] *)
Definition IndexDB_open (self : DB) (w : world) : open_promise * world :=
  open_with createIndex self w.

(** [makeIndexRequest(storeName, indexName, action, ...params)]: the index
    is looked up on the store of a read-only transaction and the action is
    called on it. *)
Definition makeIndexRequest (self : DB) (storeName : string) (name : string)
    (action : index_action) : M request_event :=
  let* s := getStore self storeName readonly in
  match List.find (fun ix => String.eqb (indexName ix) name) (indexes s) with
  | None => throw NotFoundError
  | Some ix =>
      match native_index s ix action with
      | Throws e => throw e
      | Returns ev => issue storeName (ev, s)
      end
  end.

(** [getByIndex(storeName, indexName, index)] *)
Definition getByIndex (self : DB) (storeName name : string) (index : jsval) : M promise :=
  let* req := makeIndexRequest self storeName name (IxGet index) in
  ret (promisifyRes req).

(** [getCountByIndex(storeName, indexName, index)] *)
Definition getCountByIndex (self : DB) (storeName name : string) (index : jsval)
  : M promise :=
  let* req := makeIndexRequest self storeName name (IxCount index) in
  ret (promisifyRes req).

(** [getAllByIndex(storeName, indexName)] *)
Definition getAllByIndex (self : DB) (storeName name : string) : M promise :=
  let* req := makeIndexRequest self storeName name IxGetAll in
  ret (promisifyRes req).

(** [getAllKeysByIndex(storeName, indexName)] *)
Definition getAllKeysByIndex (self : DB) (storeName name : string) : M promise :=
  let* req := makeIndexRequest self storeName name IxGetAllKeys in
  ret (promisifyRes req).

(** [getKeyByIndex(storeName, indexName, index)] *)
Definition getKeyByIndex (self : DB) (storeName name : string) (index : jsval)
  : M promise :=
  let* req := makeIndexRequest self storeName name (IxGetKey index) in
  ret (promisifyRes req).

(** *** Cursors

    A cursor request fires once per record of the store, in key order, and
    once more with a null result when the records are exhausted; every
    firing may instead be an error event.  The whole scan runs in one
    transaction: [Some s] is the store it commits, [None] an abort, after
    which the store is what it was before the scan. *)

(** The handlers of [getAllByCursor(storeName)]; [rest] are the records the
    cursor has not visited, [values] the accumulator. *)
Fixpoint getAllByCursor_loop (rest : list record) (values : list jsval) (w : world)
  : promise * world :=
  let '(fault, w1) := next_fault w in
  if fault then (Resolved VUndefined, w1)
  else
    match rest with
    | [] => (Resolved (VArr values), w1)
    | r :: rest' => getAllByCursor_loop rest' (values ++ [VObj r]) w1
    end.

Definition getAllByCursor (self : DB) (storeName : string) : M promise :=
  let* s := getStore self storeName readonly in
  fun w =>
    let '(p, w1) := getAllByCursor_loop (records s) [] w in
    (Returns p, w1).

(** [cursor.update(newVal)] at the record [cur]: throws unless the new
    value carries the cursor's key, and is a [put] otherwise. *)
Definition cursor_update (s : object_store) (cur newVal : record)
  : completion (request_event * object_store) :=
  match record_key (keyPath s) cur, record_key (keyPath s) newVal with
  | Some k, Some k' => if decide (k = k') then native_put s newVal else Throws DataError
  | _, _ => Throws DataError
  end.

(** [cursor.delete()] at the record [cur]. *)
Definition cursor_delete (s : object_store) (cur : record)
  : request_event * object_store :=
  (OnSuccess VUndefined,
   with_records s
     (List.filter
        (fun r => negb (bool_decide (record_key (keyPath s) r = record_key (keyPath s) cur)))
        (records s))).

(** The test both scans apply to the record under the cursor:
    [value.hasOwnProperty(attrName) && value[attrName] === attr]. *)
Definition matches (attrName : string) (attr : jsval) (r : record) : completion bool :=
  match call_hasOwnProperty r attrName with
  | Throws e => Throws e
  | Returns has => Returns (has && strict_equal (get_prop r attrName) attr)
  end.

(** The handlers of [updateByCursor(storeName, attrName, attr, newVal)];
    [cell] is the state of the returned promise.  The update request of a
    match is issued before [cursor.continue()]; when it errors, the
    transaction aborts and the cursor request errors too.  An exception in
    the handler aborts the transaction as well, and the cursor is not
    continued: no handler runs any more. *)
Fixpoint updateByCursor_loop (attrName : string) (attr : jsval) (newVal : record)
    (rest : list record) (s : object_store) (cell : option promise) (w : world)
  : promise * option object_store * world :=
  let '(fault, w1) := next_fault w in
  if fault then (settle cell (Resolved indexErrorCode.updateFail), None, w1)
  else
    match rest with
    | [] => (settle cell (Resolved indexErrorCode.noFound), Some s, w1)
    | cur :: rest' =>
        match matches attrName attr cur with
        | Throws _ => (abandon cell, None, w1)
        | Returns true =>
            if strict_equal (get_prop cur (keyPath s)) (get_prop newVal (keyPath s)) then
              match cursor_update s cur newVal with
              | Throws _ => (abandon cell, None, w1)
              | Returns (ev, s') =>
                  let '(ufault, w2) := next_fault w1 in
                  let updateReq := if ufault then OnError else ev in
                  let cell' :=
                    resolve cell (promisify updateReq indexErrorCode.updateSuccess
                                    indexErrorCode.updateFail) in
                  match updateReq with
                  | OnError =>
                      (settle cell' (Resolved indexErrorCode.updateFail), None, w2)
                  | OnSuccess _ =>
                      updateByCursor_loop attrName attr newVal rest' s' cell' w2
                  end
              end
            else
              updateByCursor_loop attrName attr newVal rest' s
                (resolve cell (Resolved indexErrorCode.primaryKey)) w1
        | Returns false => updateByCursor_loop attrName attr newVal rest' s cell w1
        end
    end.

Definition commit (storeName : string) (r : promise * option object_store * world)
  : completion promise * world :=
  match r with
  | (p, Some s, w) => (Returns p, set_store storeName s w)
  | (p, None, w) => (Returns p, w)
  end.

Definition updateByCursor (self : DB) (storeName attrName : string) (attr : jsval)
    (newVal : record) : M promise :=
  let* s := getStore self storeName readwrite in
  fun w => commit storeName (updateByCursor_loop attrName attr newVal (records s) s None w).

(** The handlers of [deleteByCursor(storeName, attrName, attr)]. *)
Fixpoint deleteByCursor_loop (attrName : string) (attr : jsval)
    (rest : list record) (s : object_store) (cell : option promise) (w : world)
  : promise * option object_store * world :=
  let '(fault, w1) := next_fault w in
  if fault then (settle cell (Resolved indexErrorCode.deleteFail), None, w1)
  else
    match rest with
    | [] => (settle cell (Resolved indexErrorCode.noFound), Some s, w1)
    | cur :: rest' =>
        match matches attrName attr cur with
        | Throws _ => (abandon cell, None, w1)
        | Returns true =>
            let '(ev, s') := cursor_delete s cur in
            let '(dfault, w2) := next_fault w1 in
            let deleteReq := if dfault then OnError else ev in
            let cell' :=
              resolve cell (promisify deleteReq indexErrorCode.deleteSuccess
                              indexErrorCode.deleteFail) in
            match deleteReq with
            | OnError => (settle cell' (Resolved indexErrorCode.deleteFail), None, w2)
            | OnSuccess _ => deleteByCursor_loop attrName attr rest' s' cell' w2
            end
        | Returns false => deleteByCursor_loop attrName attr rest' s cell w1
        end
    end.

Definition deleteByCursor (self : DB) (storeName attrName : string) (attr : jsval)
  : M promise :=
  let* s := getStore self storeName readwrite in
  fun w => commit storeName (deleteByCursor_loop attrName attr (records s) s None w).

(** ** Vocabulary of the properties *)

(** The instance holds an open connection. *)
Definition connected (self : DB) : Prop := _dataBase self = Connection false.

(** The next [n] requests complete without an engine fault. *)
Definition quiet (n : nat) (w : world) : bool := forallb negb (take n (faults w)).

(** The world once the next [n] requests have been answered. *)
Definition skip (n : nat) (w : world) : world :=
  {| version := version w; stores := stores w; faults := drop n (faults w) |}.

(** A host that exposes no engine. *)
Definition no_engine : window := {| indexedDB := None; webkitIndexedDB := None |}.

(** A key that is a number or a string. *)
Definition primitive_key (k : idbkey) : bool :=
  match k with
  | KNum _ | KStr _ => true
  | KArr _ => false
  end.

(** The store holds a record under the key of [value]. *)
Definition key_present (s : object_store) (value : record) : bool :=
  match record_key (keyPath s) value with
  | Some k => existsb (has_key (keyPath s) k) (records s)
  | None => false
  end.

(** The promises of the individual [set] calls of a [setBatch], as
    [Promise.all] receives them. *)
Definition setBatch_promises (self : DB) (storeName : string) (items : list record)
    (w : world) : list settled :=
  let '(calls, w1) := setBatch_calls self storeName items w in
  fst (setBatch_resume self storeName calls w1).

Definition resolved (p : settled) : Prop := exists v, fate p = Resolved v.

Definition rejected (p : settled) : Prop := exists e, fate p = Rejected e.

(** The data-fetch calls, all routed through [promisifyRes]. *)
Inductive fetch : Type :=
  | Fget (storeName : string) (k : jsval)
  | FgetAll (storeName : string)
  | FgetAllKeys (storeName : string)
  | FgetByIndex (storeName name : string) (index : jsval)
  | FgetCountByIndex (storeName name : string) (index : jsval)
  | FgetAllByIndex (storeName name : string)
  | FgetAllKeysByIndex (storeName name : string)
  | FgetKeyByIndex (storeName name : string) (index : jsval).

Definition fetch_call (self : DB) (c : fetch) : M promise :=
  match c with
  | Fget storeName k => get self storeName k
  | FgetAll storeName => getAll self storeName
  | FgetAllKeys storeName => getAllKeys self storeName
  | FgetByIndex storeName name index => getByIndex self storeName name index
  | FgetCountByIndex storeName name index => getCountByIndex self storeName name index
  | FgetAllByIndex storeName name => getAllByIndex self storeName name
  | FgetAllKeysByIndex storeName name => getAllKeysByIndex self storeName name
  | FgetKeyByIndex storeName name index => getKeyByIndex self storeName name index
  end.

(** ** A sample database

    One store, [task], keyed by [id], with a unique index on [email]. *)

Definition browser : window := {| indexedDB := Some Factory; webkitIndexedDB := None |}.

Definition mail_index : index_decl :=
  {| indexName := "mail"; index_keyPath := "email"; unique := true |}.

Definition task_decl : store_decl :=
  {| store_name := "task"; store_key := "id"; indexList := Some [mail_index] |}.

Definition fresh_db : DB := constructor browser "mydatabase" [task_decl].

Definition sample_db : DB := with_dataBase fresh_db (Connection false).

Definition task_store (rs : list record) : object_store :=
  {| keyPath := "id"; records := rs; indexes := [mail_index] |}.

Definition sample_world (rs : list record) (fl : list bool) : world :=
  {| version := 1; stores := {["task" := task_store rs]}; faults := fl |}.

Definition alice : record := [("id", VNum 1); ("email", VStr "a"); ("tag", VStr "x")].

Definition bob : record := [("id", VNum 2); ("email", VStr "b"); ("tag", VStr "x")].

(** [alice] with another tag, with the address of [bob], and without [id]. *)
Definition alice_retagged : record :=
  [("id", VNum 1); ("email", VStr "a"); ("tag", VStr "y")].

Definition alice_as_bob : record :=
  [("id", VNum 1); ("email", VStr "b"); ("tag", VStr "x")].

Definition anonymous : record := [("email", VStr "a"); ("tag", VStr "x")].

(** Two records with the same array as key. *)
Definition pair_12 : record := [("id", VArr [VNum 1; VNum 2]); ("email", VStr "c")].

Definition pair_12_renamed : record :=
  [("id", VArr [VNum 1; VNum 2]); ("email", VStr "d")].

(** ** Vocabulary of the further properties *)

(** Every call of the two classes that returns a promise. *)
Inductive method : Type :=
  | Mfetch (c : fetch)
  | Mset (storeName : string) (value : record)
  | MsetBatch (storeName : string) (items : list record)
  | Mupdate (storeName : string) (newValue : record)
  | Mremove (storeName : string) (k : jsval)
  | MremoveAll (storeName : string)
  | MgetAllByCursor (storeName : string)
  | MupdateByCursor (storeName attrName : string) (attr : jsval) (newVal : record)
  | MdeleteByCursor (storeName attrName : string) (attr : jsval).

Definition method_call (self : DB) (m : method) : M promise :=
  match m with
  | Mfetch c => fetch_call self c
  | Mset storeName value => set self storeName value
  | MsetBatch storeName items => setBatch self storeName items
  | Mupdate storeName newValue => update self storeName newValue
  | Mremove storeName k => remove self storeName k
  | MremoveAll storeName => removeAll self storeName
  | MgetAllByCursor storeName => getAllByCursor self storeName
  | MupdateByCursor storeName attrName attr newVal =>
      updateByCursor self storeName attrName attr newVal
  | MdeleteByCursor storeName attrName attr =>
      deleteByCursor self storeName attrName attr
  end.

(** The store a call names. *)
Definition fetch_store (c : fetch) : string :=
  match c with
  | Fget storeName _ | FgetAll storeName | FgetAllKeys storeName
  | FgetByIndex storeName _ _ | FgetCountByIndex storeName _ _
  | FgetAllByIndex storeName _ | FgetAllKeysByIndex storeName _
  | FgetKeyByIndex storeName _ _ => storeName
  end.

Definition method_store (m : method) : string :=
  match m with
  | Mfetch c => fetch_store c
  | Mset storeName _ | MsetBatch storeName _ | Mupdate storeName _
  | Mremove storeName _ | MremoveAll storeName | MgetAllByCursor storeName
  | MupdateByCursor storeName _ _ _ | MdeleteByCursor storeName _ _ => storeName
  end.

(** The calls that only read. *)
Definition reads_only (m : method) : bool :=
  match m with
  | Mfetch _ | MgetAllByCursor _ => true
  | _ => false
  end.

(** Every record of the store has a valid key, and no two records have
    the same key. *)
Definition keyed (s : object_store) : Prop :=
  Forall (fun r => is_Some (record_key (keyPath s) r)) (records s) /\
  NoDup (store_keys s).

(** The store as a later state of the same store: same key path, same
    indexes, and still [keyed] if it was. *)
Definition same_schema (s s' : object_store) : Prop :=
  keyPath s' = keyPath s /\ indexes s' = indexes s /\ (keyed s -> keyed s').

(** A world that a call naming [storeName] may lead to: the version and
    the other stores are the same, the named store exists as before and
    keeps its schema. *)
Definition evolves (storeName : string) (w w' : world) : Prop :=
  version w' = version w /\
  (forall name, name <> storeName -> stores w' !! name = stores w !! name) /\
  match stores w !! storeName, stores w' !! storeName with
  | Some s, Some s' => same_schema s s'
  | None, None => True
  | _, _ => False
  end.

(** What a call meets when the instance holds no open connection: the
    empty object of the constructor has no [transaction] method, and a
    closed connection refuses to start one. *)
Definition handle_error (h : handle) : option jsval :=
  match h with
  | EmptyObject => Some TypeError
  | Connection true => Some InvalidStateError
  | Connection false => None
  end.

(** The calls that run in one transaction or issue one write. *)
Definition single (m : method) : bool :=
  match m with
  | MsetBatch _ _ => false
  | _ => true
  end.

(** The call did not go through: it threw, or its promise is rejected. *)
Definition failed (c : completion promise) : Prop :=
  match c with
  | Throws _ => True
  | Returns (Rejected _) => True
  | Returns _ => False
  end.

(** The settlements of a promise of [set]. *)
Definition set_settlement (p : promise) : Prop :=
  p = Resolved errorCode.setNoCorresponding \/
  p = Resolved errorCode.setSuccess \/
  p = Rejected errorCode.setFail \/
  p = Resolved errorCode.updateSuccess \/
  p = Rejected errorCode.updateFail \/
  exists name, p = Rejected (VError name).

(** The store the upgrade creates for a declaration, before any index is
    registered on it. *)
Definition fresh_store (decl : store_decl) : object_store :=
  {| keyPath := store_key decl; records := []; indexes := [] |}.

(** What the upgrade makes of a declaration when it calls [ci] on the
    index list; [None] when the engine refuses the key path or [ci]
    throws. *)
Definition created (ci : list index_decl -> object_store -> option object_store)
    (decl : store_decl) : option object_store :=
  if valid_key_path (store_key decl) then
    match indexList decl with
    | Some l => ci l (fresh_store decl)
    | None => Some (fresh_store decl)
    end
  else None.

(** The records of a store that an index refers to under the key [k], and
    the records it refers to at all. *)
Definition indexed_at (s : object_store) (ix : index_decl) (k : idbkey) : list record :=
  List.filter (has_key (index_keyPath ix) k) (records s).

Definition indexed (s : object_store) (ix : index_decl) : list record :=
  List.filter (fun r => bool_decide (is_Some (record_key (index_keyPath ix) r)))
    (records s).

(** The index of that name on the store. *)
Definition find_index (s : object_store) (name : string) : option index_decl :=
  List.find (fun ix => String.eqb (indexName ix) name) (indexes s).

(** The request of a fetch on the store [s], with the event it fires when
    the engine does not fail; the call throws where the engine refuses to
    make the request. *)
Definition index_request (s : object_store) (name : string) (a : index_action)
  : completion request_event :=
  match find_index s name with
  | Some ix => native_index s ix a
  | None => Throws NotFoundError
  end.

Definition fetch_request (s : object_store) (c : fetch) : completion request_event :=
  match c with
  | Fget _ k =>
      match native s (Get k) with
      | Throws e => Throws e
      | Returns r => Returns (fst r)
      end
  | FgetAll _ => Returns (fst (native_getAll s))
  | FgetAllKeys _ => Returns (fst (native_getAllKeys s))
  | FgetByIndex _ name index => index_request s name (IxGet index)
  | FgetCountByIndex _ name index => index_request s name (IxCount index)
  | FgetAllByIndex _ name => index_request s name IxGetAll
  | FgetAllKeysByIndex _ name => index_request s name IxGetAllKeys
  | FgetKeyByIndex _ name index => index_request s name (IxGetKey index)
  end.

(** How a call ends when starting its transaction fails with [e]: the
    [async] calls return a rejected promise, the others throw; a batch
    without items never starts a transaction. *)
Definition no_connection_outcome (e : jsval) (m : method) : completion promise :=
  match m with
  | Mset _ _ => Returns (Rejected e)
  | MsetBatch _ [] => Returns (Resolved errorCode.setBatchSuccess)
  | MsetBatch _ (_ :: _) => Returns (Rejected e)
  | _ => Throws e
  end.

(** The settlements of a promise of [updateByCursor], of [deleteByCursor]
    and of [getAllByCursor]. *)
Definition updateByCursor_settlement (p : promise) : Prop :=
  p = Resolved indexErrorCode.updateSuccess \/
  p = Rejected indexErrorCode.updateFail \/
  p = Resolved indexErrorCode.updateFail \/
  p = Resolved indexErrorCode.primaryKey \/
  p = Resolved indexErrorCode.noFound.

Definition deleteByCursor_settlement (p : promise) : Prop :=
  p = Resolved indexErrorCode.deleteSuccess \/
  p = Rejected indexErrorCode.deleteFail \/
  p = Resolved indexErrorCode.deleteFail \/
  p = Resolved indexErrorCode.noFound.

Definition getAllByCursor_settlement (p : promise) : Prop :=
  p = Resolved VUndefined \/ exists values, p = Resolved (VArr values).

(** How a call that reports a status pair can end. *)
Definition status_settlement (success error : jsval) (c : completion promise) : Prop :=
  (exists name, c = Throws (VError name)) \/
  c = Returns (Resolved success) \/
  c = Returns (Rejected error).

(** The record has the attribute [attrName] with the value [attr]: what
    the test of the scans is to decide. *)
Definition has_attr (attrName : string) (attr : jsval) (r : record) : bool :=
  hasOwnProperty r attrName && strict_equal (get_prop r attrName) attr.

(** A value without [id] and a record of the store, each with an own
    property named [hasOwnProperty]. *)
Definition masked : record := [("hasOwnProperty", VNum 1); ("email", VStr "a")].

Definition masked_row : record := [("id", VNum 0); ("hasOwnProperty", VNum 1)].

(** ** A store with a key path of two steps

    The store [deep] is keyed by [a.b] and has an index on [addr.city]. *)

Definition city_index : index_decl :=
  {| indexName := "city"; index_keyPath := "addr.city"; unique := false |}.

Definition deep_store (rs : list record) : object_store :=
  {| keyPath := "a.b"; records := rs; indexes := [city_index] |}.

Definition deep_world (rs : list record) (fl : list bool) : world :=
  {| version := 1; stores := {["deep" := deep_store rs]}; faults := fl |}.

(** A record with the key 1 at [a.b], and a value that has a property
    named [a.b] instead. *)
Definition nested : record :=
  [("a", VObj [("b", VNum 1)]); ("addr", VObj [("city", VStr "x")])].

Definition dotted : record := [("a.b", VNum 1)].

(** * Properties *)

(** ** Basic facts about the world and the calls *)

(** Two settlements that carry different statuses are different. *)
Ltac distinct_status H :=
  exfalso; apply (f_equal fst) in H; cbv in H; discriminate H.

Lemma set_store_id (name : string) (s : object_store) (w : world) :
  stores w !! name = Some s -> set_store name s w = w.
Proof.
  destruct w as [v st fl]; unfold set_store; simpl; intros H.
  f_equal. by apply insert_id.
Qed.

Lemma stores_set_store (name : string) (s : object_store) (w : world) :
  stores (set_store name s w) !! name = Some s.
Proof. unfold set_store; simpl. apply lookup_insert_eq. Qed.

Lemma stores_next_fault (w : world) : stores (snd (next_fault w)) = stores w.
Proof. unfold next_fault. destruct (faults w); reflexivity. Qed.

Lemma getStore_connected (self : DB) (name : string) (m : mode) (s : object_store)
    (w : world) :
  connected self -> stores w !! name = Some s ->
  getStore self name m w = (Returns s, w).
Proof. unfold connected, getStore. intros -> ->. reflexivity. Qed.

Lemma getStore_world (self : DB) (name : string) (m : mode) (w : world) :
  snd (getStore self name m w) = w.
Proof.
  unfold getStore, throw.
  destruct (_dataBase self) as [|[|]]; simpl; try reflexivity.
  destruct (stores w !! name); reflexivity.
Qed.

(** ** C1: [open] on a host without an engine *)

(** The branch of [open] that returns [compatibleFail] is never taken: the
    guard tests [this._dataBase], which holds an object from the
    constructor on. *)
Lemma open_never_compatibleFail
    (ci : list index_decl -> object_store -> option object_store) (self : DB) (w : world) :
  fst (open_with ci self w) <> OpenResolved errorCode.compatibleFail.
Proof.
  unfold open_with.
  replace (truthy (_dataBase self)) with true by (destruct (_dataBase self); reflexivity).
  destruct (_indexedDB self); [|discriminate].
  destruct (next_fault w) as [fault w1].
  destruct (fault || _); [discriminate|].
  destruct (Z.ltb _ _); [|discriminate].
  destruct (upgrade _ _ _); discriminate.
Qed.

(** When the engine exists and the native open request errors, the promise
    is rejected with [openFail]. *)
Lemma open_request_error_rejects_openFail (self : DB) (w : world) (f : IDBFactory) :
  _indexedDB self = Some f -> fst (next_fault w) = true ->
  fst (open self w) = OpenRejected errorCode.openFail.
Proof.
  unfold open, open_with. intros -> Hf.
  replace (truthy (_dataBase self)) with true by (destruct (_dataBase self); reflexivity).
  destruct (next_fault w) as [fault w1]; simpl in Hf; subst fault. reflexivity.
Qed.

(** C1 (the code departs from the claim): on a host that has neither
    [indexedDB] nor [webkitIndexedDB], [open] on a freshly constructed
    instance does not produce the [compatibleFail] status: calling [open]
    on the undefined engine throws, and the promise of the [async]
    function is rejected with that [TypeError], the world untouched.  The
    same holds for the [open] of [IndexDB]; and on no host does [open]
    produce [compatibleFail]. *)
Theorem open_without_engine_rejects_TypeError
    (dataBaseName : string) (storeList : list store_decl) (w : world) :
  open (constructor no_engine dataBaseName storeList) w = (OpenRejected TypeError, w) /\
  IndexDB_open (constructor no_engine dataBaseName storeList) w
  = (OpenRejected TypeError, w) /\
  (forall (win : window) (w' : world),
      fst (open (constructor win dataBaseName storeList) w')
      <> OpenResolved errorCode.compatibleFail).
Proof.
  split; [reflexivity|]. split; [reflexivity|].
  intros win w'. apply open_never_compatibleFail.
Qed.

(** ** C3: [set] of a value without the key field *)

(** C3 (the code departs from the claim): in a store with key field
    [keyPath s], [set] of a value that lacks that own property returns
    normally (no throw) and leaves the world as it was: the stores are
    unchanged and no request was issued.  Its promise is resolved with
    [setNoCorresponding], unless the value has an own property named
    [hasOwnProperty]: the test [value.hasOwnProperty(key)] then calls that
    property, and the promise is rejected with the [TypeError]. *)
Theorem set_without_key_field (self : DB) (storeName : string) (s : object_store)
    (value : record) (w : world) :
  connected self ->
  stores w !! storeName = Some s ->
  hasOwnProperty value (keyPath s) = false ->
  set self storeName value w
  = (Returns (if shadowed value then Rejected TypeError
              else Resolved errorCode.setNoCorresponding), w).
Proof.
  intros Hc Hs Hk.
  unfold set, async, bind, set_begin, bind, lift, call_hasOwnProperty.
  rewrite (getStore_connected _ _ _ _ _ Hc Hs), Hk.
  destruct (shadowed value); reflexivity.
Qed.

(** ** C6: [promisifyRes] and the data-fetch calls *)

Lemma issue_returns (name : string) (r : request_event * object_store) (w : world) :
  exists ev w', issue name r w = (Returns ev, w') /\
                (fst (next_fault w) = true -> ev = OnError).
Proof.
  unfold issue. destruct (next_fault w) as [[|] w1]; simpl.
  - eauto.
  - destruct r as [[res|] s']; simpl; eexists _, _; split; eauto; discriminate.
Qed.

Lemma makeRequest_returns (self : DB) (name : string) (m : mode) (a : store_action)
    (w : world) (ev : request_event) (w' : world) :
  makeRequest self name m a w = (Returns ev, w') ->
  fst (next_fault w) = true -> ev = OnError.
Proof.
  unfold makeRequest, bind. intros H Hf.
  pose proof (getStore_world self name m w) as Hw.
  destruct (getStore self name m w) as [[e|s] w0]; simpl in Hw; subst w0; [discriminate|].
  assert (Hi : forall r, issue name r w = (Returns ev, w') -> ev = OnError).
  { intros r Hr. destruct (issue_returns name r w) as (ev0 & w0 & E & Hev).
    rewrite E in Hr. inversion Hr; subst. auto. }
  destruct m, (writes a); try discriminate;
    (destruct (native s a) as [e|r]; [discriminate|]; eauto).
Qed.

Lemma makeIndexRequest_returns (self : DB) (storeName name : string) (a : index_action)
    (w : world) (ev : request_event) (w' : world) :
  makeIndexRequest self storeName name a w = (Returns ev, w') ->
  fst (next_fault w) = true -> ev = OnError.
Proof.
  unfold makeIndexRequest, bind. intros H Hf.
  pose proof (getStore_world self storeName readonly w) as Hw.
  destruct (getStore self storeName readonly w) as [[e|s] w0]; simpl in Hw; subst w0;
    [discriminate|].
  destruct (List.find _ _) as [ix|]; [|discriminate].
  destruct (native_index s ix a) as [e|ev0]; [discriminate|].
  destruct (issue_returns storeName (ev0, s) w) as (ev1 & w1 & E & Hev).
  rewrite E in H. inversion H; subst. auto.
Qed.

Lemma promisifyRes_resolves (req : request_event) :
  exists v, promisifyRes req = Resolved v.
Proof. destruct req; simpl; eauto. Qed.

(** A request that reads: the store is put back as it was. *)
Lemma issue_read (name : string) (ev : request_event) (s : object_store) (w : world) :
  stores w !! name = Some s ->
  issue name (ev, s) w
  = (Returns (if fst (next_fault w) then OnError else ev), snd (next_fault w)).
Proof.
  intros Hs. unfold issue.
  pose proof (stores_next_fault w) as Hst.
  destruct (next_fault w) as [[|] w1]; simpl in *; [reflexivity|].
  destruct ev; [|reflexivity].
  rewrite set_store_id; [reflexivity|]. by rewrite Hst.
Qed.

(** Each fetch is [promisifyRes] of the one request it issues. *)
Lemma fetch_call_request (self : DB) (call : fetch) (s : object_store) (w : world) :
  connected self -> stores w !! fetch_store call = Some s ->
  fetch_call self call w
  = match fetch_request s call with
    | Throws e => (Throws e, w)
    | Returns ev =>
        (Returns (promisifyRes (if fst (next_fault w) then OnError else ev)),
         snd (next_fault w))
    end.
Proof.
  intros Hc Hs.
  destruct call; simpl in Hs; simpl;
    unfold get, getAll, getAllKeys, getByIndex, getCountByIndex, getAllByIndex,
      getAllKeysByIndex, getKeyByIndex, makeIndexRequest, makeRequest, index_request,
      find_index, bind;
    rewrite (getStore_connected _ _ _ _ _ Hc Hs); cbn [writes native].
  - unfold native_get. destruct (to_key k); [|reflexivity].
    cbn [fst]. by rewrite (issue_read _ _ _ _ Hs).
  - unfold native_getAll. cbn [fst]. by rewrite (issue_read _ _ _ _ Hs).
  - unfold native_getAllKeys. cbn [fst]. by rewrite (issue_read _ _ _ _ Hs).
  - destruct (List.find _ _) as [ix|]; [|reflexivity].
    destruct (native_index s ix _); [reflexivity|]. by rewrite (issue_read _ _ _ _ Hs).
  - destruct (List.find _ _) as [ix|]; [|reflexivity].
    destruct (native_index s ix _); [reflexivity|]. by rewrite (issue_read _ _ _ _ Hs).
  - destruct (List.find _ _) as [ix|]; [|reflexivity].
    destruct (native_index s ix _); [reflexivity|]. by rewrite (issue_read _ _ _ _ Hs).
  - destruct (List.find _ _) as [ix|]; [|reflexivity].
    destruct (native_index s ix _); [reflexivity|]. by rewrite (issue_read _ _ _ _ Hs).
  - destruct (List.find _ _) as [ix|]; [|reflexivity].
    destruct (native_index s ix _); [reflexivity|]. by rewrite (issue_read _ _ _ _ Hs).
Qed.

(** A lookup that finds nothing and a lookup that fails are told apart by
    nothing: both resolve with [undefined]. *)
Lemma get_absent (self : DB) (storeName : string) (s : object_store) (q : jsval)
    (k : idbkey) (w : world) :
  connected self -> stores w !! storeName = Some s ->
  to_key q = Some k -> store_lookup s k = None ->
  fst (get self storeName q w) = Returns (Resolved VUndefined).
Proof.
  intros Hc Hs Hq Hl. unfold get, bind, makeRequest, bind.
  rewrite (getStore_connected _ _ _ _ _ Hc Hs). simpl.
  unfold native_get. rewrite Hq, Hl. unfold issue.
  destruct (next_fault w) as [[|] w1]; reflexivity.
Qed.

Lemma index_lookup_absent (self : DB) (storeName name : string) (s : object_store)
    (ix : index_decl) (q : jsval) (k : idbkey) (w : world) :
  connected self -> stores w !! storeName = Some s ->
  List.find (fun ix' => String.eqb (indexName ix') name) (indexes s) = Some ix ->
  to_key q = Some k -> entries_at s ix k = [] ->
  fst (getByIndex self storeName name q w) = Returns (Resolved VUndefined) /\
  fst (getKeyByIndex self storeName name q w) = Returns (Resolved VUndefined).
Proof.
  intros Hc Hs Hix Hq He.
  unfold getByIndex, getKeyByIndex, bind, makeIndexRequest, bind.
  rewrite (getStore_connected _ _ _ _ _ Hc Hs), Hix. simpl.
  rewrite Hq, He. unfold issue.
  destruct (next_fault w) as [[|] w1]; split; reflexivity.
Qed.

(** Where nothing is stored, the fetches that list or count do not resolve
    with [undefined]: they resolve with the empty array and with 0. *)
Lemma fetch_empty_store (self : DB) (call : fetch) (s : object_store) (w : world) :
  connected self -> stores w !! fetch_store call = Some s ->
  records s = [] -> fst (next_fault w) = false ->
  forall p, fst (fetch_call self call w) = Returns p ->
  p = Resolved (match call with
                | Fget _ _ | FgetByIndex _ _ _ | FgetKeyByIndex _ _ _ => VUndefined
                | FgetAll _ | FgetAllKeys _ | FgetAllByIndex _ _
                | FgetAllKeysByIndex _ _ => VArr []
                | FgetCountByIndex _ _ _ => VNum 0
                end).
Proof.
  intros Hc Hs Hr Hf p. rewrite (fetch_call_request _ _ _ _ Hc Hs), Hf.
  assert (Hie : forall ix, index_entries s ix = []).
  { intros ix. unfold index_entries. by rewrite Hr. }
  assert (Hea : forall ix k, entries_at s ix k = []).
  { intros ix k. unfold entries_at. by rewrite Hie. }
  destruct call; cbn [fetch_request index_request native native_getAll native_getAllKeys fst].
  - unfold native_get, store_lookup. rewrite Hr.
    destruct (to_key k); simpl; congruence.
  - rewrite Hr. simpl. congruence.
  - unfold store_keys. rewrite Hr. simpl. congruence.
  - unfold index_request. destruct (find_index s name); [|discriminate].
    simpl. destruct (to_key index); [rewrite Hea|]; simpl; congruence.
  - unfold index_request. destruct (find_index s name); [|discriminate].
    unfold native_index. rewrite Hie.
    destruct index;
      try match goal with
          | |- context [to_key ?v] => destruct (to_key v) eqn:E
          end;
      rewrite ?Hea; intros H; simpl in H; inversion H; reflexivity.
  - unfold index_request. destruct (find_index s name); [|discriminate].
    simpl. rewrite Hie. simpl. congruence.
  - unfold index_request. destruct (find_index s name); [|discriminate].
    simpl. rewrite Hie. simpl. congruence.
  - unfold index_request. destruct (find_index s name); [|discriminate].
    simpl. destruct (to_key index); [rewrite Hea|]; simpl; congruence.
Qed.

(** C6 (amended): [promisifyRes] resolves with the result of a request
    that succeeds and with [undefined] for a request that errors, and never
    rejects.  Each of [get], [getAll], [getAllKeys] and the five index
    getters is [promisifyRes] of the one request it issues: a promise it
    returns is resolved, with what the request produced, and with
    [undefined] when the request fails.  The lookups [get], [getByIndex]
    and [getKeyByIndex] resolve with [undefined] also for a key that is not
    there, so that absence and failure look alike; on a store that holds
    nothing the other fetches do not: [getAll], [getAllKeys],
    [getAllByIndex] and [getAllKeysByIndex] resolve with the empty array
    and [getCountByIndex] with 0. *)
Theorem promisifyRes_never_rejects :
  (forall result, promisifyRes (OnSuccess result) = Resolved result) /\
  promisifyRes OnError = Resolved VUndefined /\
  (forall req reason, promisifyRes req <> Rejected reason) /\
  (forall self call s w,
      connected self -> stores w !! fetch_store call = Some s ->
      fetch_call self call w
      = match fetch_request s call with
        | Throws e => (Throws e, w)
        | Returns ev =>
            (Returns (promisifyRes (if fst (next_fault w) then OnError else ev)),
             snd (next_fault w))
        end) /\
  (forall self call w p w',
      fetch_call self call w = (Returns p, w') ->
      (exists v, p = Resolved v) /\
      (fst (next_fault w) = true -> p = Resolved VUndefined)) /\
  (forall self storeName s q k w,
      connected self -> stores w !! storeName = Some s ->
      to_key q = Some k -> fst (next_fault w) = false ->
      fst (get self storeName q w)
      = Returns (Resolved (match store_lookup s k with
                           | Some r => VObj r
                           | None => VUndefined
                           end))) /\
  (forall self storeName name s ix q k w,
      connected self -> stores w !! storeName = Some s ->
      find_index s name = Some ix ->
      to_key q = Some k -> entries_at s ix k = [] ->
      fst (getByIndex self storeName name q w) = Returns (Resolved VUndefined) /\
      fst (getKeyByIndex self storeName name q w) = Returns (Resolved VUndefined)) /\
  (forall self call s w p,
      connected self -> stores w !! fetch_store call = Some s ->
      records s = [] -> fst (next_fault w) = false ->
      fst (fetch_call self call w) = Returns p ->
      p = Resolved (match call with
                    | Fget _ _ | FgetByIndex _ _ _ | FgetKeyByIndex _ _ _ => VUndefined
                    | FgetAll _ | FgetAllKeys _ | FgetAllByIndex _ _
                    | FgetAllKeysByIndex _ _ => VArr []
                    | FgetCountByIndex _ _ _ => VNum 0
                    end)).
Proof.
  split; [reflexivity|]. split; [reflexivity|].
  split; [intros [r|] reason; discriminate|].
  split; [intros self call s w; apply fetch_call_request|].
  split; [|split; [|split; [exact index_lookup_absent|]]].
  - intros self call w p w' H.
    assert (Hreq : forall (m : M request_event),
               (forall ev w1, m w = (Returns ev, w1) ->
                              fst (next_fault w) = true -> ev = OnError) ->
               bind m (fun req => ret (promisifyRes req)) w = (Returns p, w') ->
               (exists v, p = Resolved v) /\
               (fst (next_fault w) = true -> p = Resolved VUndefined)).
    { intros m Hm. unfold bind, ret. destruct (m w) as [[e|ev] w1] eqn:E; [discriminate|].
      intros Hp; inversion Hp; subst. split; [apply promisifyRes_resolves|].
      intros Hf. rewrite (Hm _ _ eq_refl Hf). reflexivity. }
    destruct call; simpl in H;
      (eapply Hreq; [|exact H]); intros ev w1 E;
      first [ exact (makeRequest_returns _ _ _ _ _ _ _ E)
            | exact (makeIndexRequest_returns _ _ _ _ _ _ _ E) ].
  - intros self storeName s q k w Hc Hs Hq Hf.
    change (get self storeName q w) with (fetch_call self (Fget storeName q) w).
    rewrite (fetch_call_request self (Fget storeName q) s w Hc Hs), Hf.
    cbn [fetch_request native]. unfold native_get. rewrite Hq. reflexivity.
  - intros self call s w p Hc Hs Hr Hf. by apply (fetch_empty_store self call s w).
Qed.

(** A fault, a missing key and a missing index entry on the sample store;
    a listing and a count where nothing is stored. *)
Example fetch_undefined_sample :
  fst (get sample_db "task" (VNum 1) (sample_world [alice] [true]))
  = Returns (Resolved VUndefined) /\
  fst (get sample_db "task" (VNum 2) (sample_world [alice] []))
  = Returns (Resolved VUndefined) /\
  fst (getByIndex sample_db "task" "mail" (VStr "b") (sample_world [alice] []))
  = Returns (Resolved VUndefined) /\
  fst (get sample_db "task" (VNum 1) (sample_world [alice] []))
  = Returns (Resolved (VObj alice)) /\
  fst (getKeyByIndex sample_db "task" "mail" (VStr "a") (sample_world [alice] []))
  = Returns (Resolved (VNum 1)).
Proof. repeat split; vm_compute; reflexivity. Qed.

(** ** Keys and their values *)

Lemma to_key_KNum (v : jsval) (n : Z) : to_key v = Some (KNum n) -> v = VNum n.
Proof.
  destruct v; simpl; try discriminate.
  - intros H; inversion H; reflexivity.
  - match goal with |- option_map _ ?x = _ -> _ => destruct x end; discriminate.
Qed.

Lemma to_key_KStr (v : jsval) (s : string) : to_key v = Some (KStr s) -> v = VStr s.
Proof.
  destruct v; simpl; try discriminate.
  - intros H; inversion H; reflexivity.
  - match goal with |- option_map _ ?x = _ -> _ => destruct x end; discriminate.
Qed.

(** A key handed out by the engine converts back to itself. *)
Lemma to_key_key_to_value : forall k : idbkey, to_key (key_to_value k) = Some k.
Proof.
  fix IH 1. intros [n|s|ks]; [reflexivity|reflexivity|].
  cbn [key_to_value to_key].
  match goal with |- option_map KArr ?x = _ => assert (H : x = Some ks) end.
  { induction ks as [|k ks IHks]; [reflexivity|].
    cbn [map]. rewrite (IH k), IHks. reflexivity. }
  rewrite H. reflexivity.
Qed.

(** On numbers and strings, [===] against a key handed out by the engine
    is equality of keys. *)
Lemma strict_equal_key_to_value (v : jsval) (k k' : idbkey) :
  to_key v = Some k -> primitive_key k = true ->
  strict_equal (key_to_value k') v = bool_decide (k' = k).
Proof.
  intros Hv Hp. destruct k as [n|s|ks]; [| |discriminate].
  - apply to_key_KNum in Hv; subst v.
    destruct k' as [n'|s'|ks']; cbn [key_to_value strict_equal];
      case_bool_decide as H; try congruence.
    + inversion H; subst. apply Z.eqb_refl.
    + apply Z.eqb_neq. congruence.
  - apply to_key_KStr in Hv; subst v.
    destruct k' as [n'|s'|ks']; cbn [key_to_value strict_equal];
      case_bool_decide as H; try congruence.
    + inversion H; subst. apply String.eqb_refl.
    + apply String.eqb_neq. congruence.
Qed.

(** A key that is an array is never [===] to what the caller holds. *)
Lemma strict_equal_array_key (v : jsval) (k k' : idbkey) :
  to_key v = Some k -> primitive_key k = false ->
  strict_equal (key_to_value k') v = false.
Proof.
  intros Hv Hp. destruct k as [n|s|ks]; [discriminate|discriminate|].
  destruct v; try discriminate. by destruct k'.
Qed.

Lemma existsb_has_key (path : string) (k : idbkey) (rs : list record) :
  existsb (has_key path k) rs
  = existsb (fun k' => bool_decide (k' = k)) (keys_of path rs).
Proof.
  induction rs as [|r rs IH]; [reflexivity|]. simpl. unfold has_key at 1.
  destruct (record_key path r) as [k'|] eqn:E; simpl.
  - rewrite IH. f_equal. apply bool_decide_ext. split; congruence.
  - rewrite IH. reflexivity.
Qed.

(** [keys.indexOf(value[key]) > -1] finds the key of a record exactly when
    the store holds it, provided the key is a number or a string. *)
Lemma indexOf_found_store_keys (s : object_store) (v : jsval) (k : idbkey) :
  to_key v = Some k -> primitive_key k = true ->
  indexOf_found (map key_to_value (store_keys s)) v
  = existsb (has_key (keyPath s) k) (records s).
Proof.
  intros Hv Hp. rewrite existsb_has_key. unfold indexOf_found, store_keys.
  induction (keys_of (keyPath s) (records s)) as [|k' ks IH]; [reflexivity|].
  simpl. rewrite IH. f_equal. by apply strict_equal_key_to_value.
Qed.

Lemma indexOf_found_array_key (ks : list idbkey) (v : jsval) (k : idbkey) :
  to_key v = Some k -> primitive_key k = false ->
  indexOf_found (map key_to_value ks) v = false.
Proof.
  intros Hv Hp. unfold indexOf_found.
  induction ks as [|k' ks IH]; [reflexivity|].
  simpl. by rewrite IH, (strict_equal_array_key v k k' Hv Hp).
Qed.

(** *** Key paths that name one field *)

Lemma get_prop_absent (r : record) (name : string) :
  hasOwnProperty r name = false -> get_prop r name = VUndefined.
Proof.
  induction r as [|[n v] r IH]; simpl; [reflexivity|].
  destruct (String.eqb n name); [discriminate|exact IH].
Qed.

Lemma split_path_no_stop (p : string) :
  forallb (fun c => negb (Ascii.eqb c ".")) (list_ascii_of_string p) = true ->
  split_path p = [p].
Proof.
  induction p as [|c p IH]; simpl; [reflexivity|].
  intros H. apply andb_true_iff in H as [Hc Hp].
  destruct (Ascii.eqb c "."); [discriminate|]. by rewrite (IH Hp).
Qed.

Lemma split_path_one_field (p : string) :
  one_field p = true -> split_path p = [p] /\ String.eqb p "" = false.
Proof.
  unfold one_field. intros H. apply andb_true_iff in H as [He Hp].
  split; [by apply split_path_no_stop|]. by apply negb_true_iff.
Qed.

(** When the key path names one field, the key of a record is read from
    the own property of that name. *)
Lemma record_key_one_field (path : string) (r : record) :
  one_field path = true -> record_key path r = to_key (get_prop r path).
Proof.
  intros H. apply split_path_one_field in H as [Hs He].
  unfold record_key, evaluate_key_path. rewrite He, Hs.
  cbn [evaluate_steps evaluate_step].
  destruct (hasOwnProperty r path) eqn:Hh.
  - by destruct (get_prop r path).
  - by rewrite (get_prop_absent _ _ Hh).
Qed.

Lemma record_key_hasOwnProperty (path : string) (r : record) (k : idbkey) :
  one_field path = true ->
  record_key path r = Some k -> hasOwnProperty r path = true.
Proof.
  intros H Hk. rewrite (record_key_one_field _ _ H) in Hk.
  destruct (hasOwnProperty r path) eqn:Hh; [reflexivity|].
  rewrite (get_prop_absent _ _ Hh) in Hk. discriminate.
Qed.

Lemma key_to_value_get_prop (path : string) (r : record) (k : idbkey) :
  one_field path = true -> record_key path r = Some k ->
  to_key (get_prop r path) = Some k.
Proof. intros H Hk. by rewrite <- (record_key_one_field _ _ H). Qed.

(** ** The engine's [put] and [add] *)

Lemma find_replace_record (path : string) (k : idbkey) (r : record) (rs : list record) :
  record_key path r = Some k ->
  existsb (has_key path k) rs = true ->
  List.find (has_key path k) (replace_record path k r rs) = Some r.
Proof.
  intros Hr. assert (Hk : has_key path k r = true) by (by apply bool_decide_eq_true_2).
  induction rs as [|r' rs IH]; simpl; [discriminate|].
  destruct (has_key path k r') eqn:E; simpl.
  - by rewrite Hk.
  - by rewrite E.
Qed.

Lemma keys_replace_record (path : string) (k : idbkey) (r : record) (rs : list record) :
  record_key path r = Some k ->
  keys_of path (replace_record path k r rs) = keys_of path rs.
Proof.
  intros Hr. induction rs as [|r' rs IH]; simpl; [reflexivity|].
  destruct (has_key path k r') eqn:E.
  - apply bool_decide_eq_true_1 in E. rewrite Hr, E, IH. reflexivity.
  - rewrite IH. reflexivity.
Qed.

Lemma length_replace_record (path : string) (k : idbkey) (r : record) (rs : list record) :
  length (replace_record path k r rs) = length rs.
Proof. unfold replace_record. apply length_map. Qed.

Lemma find_insert_sorted (path : string) (k : idbkey) (r : record) (rs : list record) :
  record_key path r = Some k ->
  existsb (has_key path k) rs = false ->
  List.find (has_key path k) (insert_sorted path k r rs) = Some r.
Proof.
  intros Hr. assert (Hk : has_key path k r = true) by (by apply bool_decide_eq_true_2).
  induction rs as [|r' rs IH]; simpl.
  - by rewrite Hk.
  - intros H. apply orb_false_elim in H as [H1 H2].
    destruct (record_key path r') as [k'|] eqn:E.
    + destruct (key_compare k k'); simpl; rewrite ?Hk, ?H1; auto.
    + simpl. rewrite H1. auto.
Qed.

(** ** C4 and C5: [set] on a key the store holds, and on a new key *)

Lemma next_fault_quiet (w : world) :
  fst (next_fault w) = false -> next_fault w = (false, snd (next_fault w)).
Proof. destruct (next_fault w); simpl; intros ->; reflexivity. Qed.

Lemma getAllKeys_quiet (self : DB) (storeName : string) (s : object_store) (w : world) :
  connected self -> stores w !! storeName = Some s ->
  fst (next_fault w) = false ->
  getAllKeys self storeName w
  = (Returns (Resolved (VArr (map key_to_value (store_keys s)))), snd (next_fault w)).
Proof.
  intros Hc Hs Hf. unfold getAllKeys, bind, makeRequest, bind.
  rewrite (getStore_connected _ _ _ _ _ Hc Hs). simpl.
  unfold issue. rewrite (next_fault_quiet _ Hf). simpl. unfold ret.
  rewrite set_store_id; [reflexivity|]. by rewrite stores_next_fault.
Qed.

Lemma getAllKeys_fault (self : DB) (storeName : string) (s : object_store) (w : world) :
  connected self -> stores w !! storeName = Some s ->
  fst (next_fault w) = true ->
  getAllKeys self storeName w = (Returns (Resolved VUndefined), snd (next_fault w)).
Proof.
  intros Hc Hs Hf. unfold getAllKeys, bind, makeRequest, bind.
  rewrite (getStore_connected _ _ _ _ _ Hc Hs). simpl.
  unfold issue. destruct (next_fault w) as [f w1]. simpl in Hf. subst f. reflexivity.
Qed.

(** The synchronous part of [set] on an open connection. *)
Lemma set_begin_connected (self : DB) (storeName : string) (s : object_store)
    (value : record) (w : world) :
  connected self -> stores w !! storeName = Some s ->
  set_begin self storeName value w
  = if shadowed value then (Throws TypeError, w)
    else if hasOwnProperty value (keyPath s)
    then (let* keys := getAllKeys self storeName in
          ret (SetAwaiting (keyPath s) keys)) w
    else (Returns (SetReturned (Resolved errorCode.setNoCorresponding)), w).
Proof.
  intros Hc Hs. unfold set_begin, bind at 1.
  rewrite (getStore_connected _ _ _ _ _ Hc Hs).
  unfold bind at 1, lift, call_hasOwnProperty.
  destruct (shadowed value); [reflexivity|].
  destruct (hasOwnProperty value (keyPath s)); reflexivity.
Qed.

(** [set] of a value that passes the test for the key field, once the key
    scan has succeeded. *)
Lemma set_scanned (self : DB) (storeName : string) (s : object_store)
    (value : record) (w : world) :
  connected self -> stores w !! storeName = Some s ->
  shadowed value = false -> hasOwnProperty value (keyPath s) = true ->
  fst (next_fault w) = false ->
  set self storeName value w
  = async (set_resume self storeName value (keyPath s)
             (VArr (map key_to_value (store_keys s)))) (snd (next_fault w)).
Proof.
  intros Hc Hs Hsh Hh Hf. unfold set, async, bind at 1.
  rewrite (set_begin_connected _ _ _ _ _ Hc Hs), Hsh, Hh.
  unfold bind at 1. rewrite (getAllKeys_quiet _ _ _ _ Hc Hs Hf).
  reflexivity.
Qed.

(** [update] of a record whose key the store holds: the [put] request
    errors on an engine fault or on a unique index, and otherwise replaces
    the record under that key. *)
Lemma update_present (self : DB) (storeName : string) (s : object_store)
    (newValue : record) (k : idbkey) (w : world) :
  connected self -> stores w !! storeName = Some s ->
  record_key (keyPath s) newValue = Some k ->
  existsb (has_key (keyPath s) k) (records s) = true ->
  update self storeName newValue w
  = if fst (next_fault w) || violates_unique s k newValue
    then (Returns (Rejected errorCode.updateFail), snd (next_fault w))
    else (Returns (Resolved errorCode.updateSuccess),
          set_store storeName
            (with_records s (replace_record (keyPath s) k newValue (records s)))
            (snd (next_fault w))).
Proof.
  intros Hc Hs Hk Hp. unfold update, bind, makeRequest, bind.
  rewrite (getStore_connected _ _ _ _ _ Hc Hs). simpl.
  unfold native_put. rewrite Hk, Hp. unfold issue.
  destruct (violates_unique s k newValue); simpl;
    destruct (next_fault w) as [[|] w1]; reflexivity.
Qed.

(** [add] of a record whose key the store holds: the request errors. *)
Lemma add_present (self : DB) (storeName : string) (s : object_store)
    (value : record) (k : idbkey) (w : world) :
  connected self -> stores w !! storeName = Some s ->
  record_key (keyPath s) value = Some k ->
  existsb (has_key (keyPath s) k) (records s) = true ->
  makeRequest self storeName readwrite (Add value) w = (Returns OnError, snd (next_fault w)).
Proof.
  intros Hc Hs Hk Hp. unfold makeRequest, bind.
  rewrite (getStore_connected _ _ _ _ _ Hc Hs). simpl.
  unfold native_add. rewrite Hk, Hp. unfold issue. simpl.
  destruct (next_fault w) as [[|] w1]; reflexivity.
Qed.

(** When the key path names one field and the key of [value] is a number
    or a string that the store holds, and the key scan succeeds, [set] is
    [update] run after the scan.  It settles with a status of [update],
    never one of [add]: resolved with [updateSuccess], the record under
    that key now being [value] and the keys of the store being the ones
    it had (nothing was added), or rejected with [updateFail], the stores
    untouched. *)
Lemma set_present_key_is_update (self : DB) (storeName : string) (s : object_store)
    (value : record) (k : idbkey) (w : world) :
  connected self ->
  stores w !! storeName = Some s ->
  one_field (keyPath s) = true ->
  shadowed value = false ->
  record_key (keyPath s) value = Some k ->
  primitive_key k = true ->
  key_present s value = true ->
  fst (next_fault w) = false ->
  set self storeName value w = update self storeName value (snd (next_fault w)) /\
  ((fst (set self storeName value w) = Returns (Resolved errorCode.updateSuccess) /\
    exists s', stores (snd (set self storeName value w)) !! storeName = Some s' /\
               records s' = replace_record (keyPath s) k value (records s) /\
               store_lookup s' k = Some value /\
               store_keys s' = store_keys s /\
               length (records s') = length (records s)) \/
   (fst (set self storeName value w) = Returns (Rejected errorCode.updateFail) /\
    stores (snd (set self storeName value w)) = stores w)).
Proof.
  intros Hc Hs Hid Hsh Hk Hprim Hpres Hq.
  unfold key_present in Hpres. rewrite Hk in Hpres.
  set (w1 := snd (next_fault w)).
  assert (Hs1 : stores w1 !! storeName = Some s) by (unfold w1; by rewrite stores_next_fault).
  assert (Hset : set self storeName value w = update self storeName value w1).
  { rewrite (set_scanned _ _ _ _ _ Hc Hs Hsh (record_key_hasOwnProperty _ _ _ Hid Hk) Hq).
    fold w1. unfold async. cbn [set_resume].
    rewrite (indexOf_found_store_keys s _ k (key_to_value_get_prop _ _ _ Hid Hk) Hprim),
      Hpres.
    rewrite (update_present _ _ _ _ _ _ Hc Hs1 Hk Hpres).
    destruct (fst (next_fault w1) || violates_unique s k value); reflexivity. }
  split; [exact Hset|]. rewrite Hset.
  rewrite (update_present _ _ _ _ _ _ Hc Hs1 Hk Hpres).
  destruct (fst (next_fault w1) || violates_unique s k value); simpl.
  - right. split; [reflexivity|]. unfold w1. by rewrite !stores_next_fault.
  - left. split; [reflexivity|]. eexists. split; [apply lookup_insert_eq|].
    simpl. split; [reflexivity|]. split; [|split].
    + unfold store_lookup. simpl. by apply find_replace_record.
    + unfold store_keys. simpl. by apply keys_replace_record.
    + apply length_replace_record.
Qed.

(** C4 (the code departs from the claim): [set] of a value whose key the
    store holds, the key path naming one field and the key scan having
    succeeded.  When the key is a number or a string, [set] is [update]
    run after the scan.  When the key is an array, it is not: [indexOf]
    compares with [===], no array is identical to the copy the engine
    hands out, so [set] issues [add], the request errors on the key that
    is taken, the promise is rejected with [setFail], a status of [add],
    and the record in the store is not overwritten. *)
Theorem set_on_a_present_key (self : DB) (storeName : string) (s : object_store)
    (value : record) (k : idbkey) (w : world) :
  connected self ->
  stores w !! storeName = Some s ->
  one_field (keyPath s) = true ->
  shadowed value = false ->
  record_key (keyPath s) value = Some k ->
  key_present s value = true ->
  fst (next_fault w) = false ->
  set self storeName value w
  = if primitive_key k
    then update self storeName value (snd (next_fault w))
    else (Returns (Rejected errorCode.setFail), skip 2 w).
Proof.
  intros Hc Hs Hid Hsh Hk Hpres Hq.
  destruct (primitive_key k) eqn:Hprim.
  { by apply (set_present_key_is_update self storeName s value k w). }
  unfold key_present in Hpres. rewrite Hk in Hpres.
  rewrite (set_scanned _ _ _ _ _ Hc Hs Hsh (record_key_hasOwnProperty _ _ _ Hid Hk) Hq).
  set (w1 := snd (next_fault w)).
  assert (Hs1 : stores w1 !! storeName = Some s) by (unfold w1; by rewrite stores_next_fault).
  unfold async. cbn [set_resume].
  rewrite (indexOf_found_array_key _ _ k (key_to_value_get_prop _ _ _ Hid Hk) Hprim).
  unfold bind. rewrite (add_present _ _ _ _ _ _ Hc Hs1 Hk Hpres).
  unfold ret. cbn [promisify]. f_equal.
  unfold w1, skip, next_fault. destruct w as [v st [|f1 [|f2 fl]]]; reflexivity.
Qed.

(** The part of [set] after the key scan never resolves with
    [setSuccess] unless its [add] request succeeded. *)
Lemma set_resume_setSuccess (self : DB) (storeName : string) (s : object_store)
    (value : record) (keys : jsval) (w w' : world) :
  connected self -> stores w !! storeName = Some s ->
  async (set_resume self storeName value (keyPath s) keys) w
  = (Returns (Resolved errorCode.setSuccess), w') ->
  exists k, record_key (keyPath s) value = Some k /\
            existsb (has_key (keyPath s) k) (records s) = false /\
            w' = set_store storeName
                   (with_records s (insert_sorted (keyPath s) k value (records s)))
                   (snd (next_fault w)).
Proof.
  intros Hc Hs. unfold async, set_resume.
  destruct keys; try (unfold throw; discriminate).
  destruct (indexOf_found _ _).
  { unfold update, bind, makeRequest, bind.
    rewrite (getStore_connected _ _ _ _ _ Hc Hs). simpl.
    destruct (native_put s value) as [e|r]; [unfold throw; discriminate|].
    unfold issue. destruct (next_fault w) as [[|] w2]; simpl; [discriminate|].
    destruct r as [[res|] s2]; simpl; intros H; [distinct_status H|discriminate]. }
  unfold bind, makeRequest, bind.
  rewrite (getStore_connected _ _ _ _ _ Hc Hs). simpl.
  unfold native_add.
  destruct (record_key (keyPath s) value) as [k|] eqn:Hk; [|unfold throw; discriminate].
  unfold issue.
  destruct (existsb (has_key (keyPath s) k) (records s)) eqn:Hex; simpl;
    [destruct (next_fault w) as [[|] w2]; discriminate|].
  destruct (violates_unique s k value); simpl;
    destruct (next_fault w) as [[|] w2]; simpl; try discriminate.
  intros H. inversion H; subst w'. eauto.
Qed.

(** C5: after a [set] that resolved with [setSuccess] for a record whose
    key the store did not hold, [get] with the key of that record, when its
    request succeeds, resolves with the record.  The key is the one the
    engine reads at the key path; when the key path names one field, it
    is the value of the record's property of that name. *)
Theorem set_then_get (self : DB) (storeName : string) (s : object_store)
    (value : record) (w w' : world) :
  connected self ->
  stores w !! storeName = Some s ->
  key_present s value = false ->
  set self storeName value w = (Returns (Resolved errorCode.setSuccess), w') ->
  fst (next_fault w') = false ->
  exists k,
    record_key (keyPath s) value = Some k /\
    fst (get self storeName (key_to_value k) w') = Returns (Resolved (VObj value)) /\
    (one_field (keyPath s) = true ->
     fst (get self storeName (get_prop value (keyPath s)) w')
     = Returns (Resolved (VObj value))).
Proof.
  intros Hc Hs _ Hset Hq.
  unfold set, async, bind at 1 in Hset.
  rewrite (set_begin_connected _ _ _ _ _ Hc Hs) in Hset.
  destruct (shadowed value); [discriminate|].
  destruct (hasOwnProperty value (keyPath s)); [|distinct_status Hset].
  unfold bind at 1 in Hset.
  destruct (fst (next_fault w)) eqn:Hf.
  { rewrite (getAllKeys_fault _ _ _ _ Hc Hs Hf) in Hset. discriminate. }
  rewrite (getAllKeys_quiet _ _ _ _ Hc Hs Hf) in Hset.
  unfold ret at 1 in Hset. cbn [await] in Hset.
  assert (Hs1 : stores (snd (next_fault w)) !! storeName = Some s)
    by (by rewrite stores_next_fault).
  destruct (set_resume_setSuccess self storeName s value _ _ _ Hc Hs1 Hset)
    as (k & Hk & Hex & ->).
  assert (Hget : forall q, to_key q = Some k ->
            fst (get self storeName q
                   (set_store storeName
                      (with_records s (insert_sorted (keyPath s) k value (records s)))
                      (snd (next_fault (snd (next_fault w))))))
            = Returns (Resolved (VObj value))).
  { intros q Hqk. unfold get, bind, makeRequest, bind.
    rewrite (getStore_connected _ _ _ _ _ Hc (stores_set_store _ _ _)). simpl.
    unfold native_get. rewrite Hqk. unfold store_lookup. simpl.
    rewrite (find_insert_sorted _ _ _ _ Hk Hex).
    unfold issue. rewrite (next_fault_quiet _ Hq). reflexivity. }
  exists k. split; [exact Hk|]. split.
  - apply Hget, to_key_key_to_value.
  - intros Hid. apply Hget. by apply key_to_value_get_prop.
Qed.

(** ** Cursor scans *)

Lemma skip_0 (w : world) : skip 0 w = w.
Proof. destruct w; reflexivity. Qed.

Lemma skip_skip (n m : nat) (w : world) : skip n (skip m w) = skip (m + n) w.
Proof. unfold skip; simpl. by rewrite drop_drop. Qed.

Lemma stores_skip (n : nat) (w : world) : stores (skip n w) = stores w.
Proof. reflexivity. Qed.

Lemma next_fault_stores (w : world) (f : bool) (w1 : world) :
  next_fault w = (f, w1) -> stores w1 = stores w.
Proof. intros E. change w1 with (snd (f, w1)). rewrite <- E. apply stores_next_fault. Qed.

Lemma quiet_S (n : nat) (w : world) :
  quiet (S n) w = true ->
  next_fault w = (false, skip 1 w) /\ quiet n (skip 1 w) = true.
Proof.
  unfold quiet, next_fault, skip. destruct w as [v st [|f fl]]; simpl.
  - intros _. split; [reflexivity|]. by rewrite take_nil.
  - intros H. apply andb_prop in H as [Hf Hq]. destruct f; [discriminate|].
    rewrite drop_0. split; [reflexivity|exact Hq].
Qed.

Lemma quiet_false_S (n : nat) (w : world) :
  quiet (S n) w = false ->
  fst (next_fault w) = true \/
  (next_fault w = (false, skip 1 w) /\ quiet n (skip 1 w) = false).
Proof.
  unfold quiet, next_fault, skip. destruct w as [v st [|f fl]]; simpl.
  - discriminate.
  - destruct f; simpl; [by left|]. rewrite drop_0. intros H. right. by split.
Qed.

Lemma next_fault_true (w : world) :
  fst (next_fault w) = true -> next_fault w = (true, skip 1 w).
Proof.
  unfold next_fault, skip. destruct w as [v st [|f fl]]; simpl; [discriminate|].
  intros ->. by rewrite drop_0.
Qed.

(** The test of the scans decides [has_attr] when the record leaves the
    method of the prototype in place, and throws when it does not. *)
Lemma matches_unshadowed (attrName : string) (attr : jsval) (r : record) :
  shadowed r = false -> matches attrName attr r = Returns (has_attr attrName attr r).
Proof. unfold matches, call_hasOwnProperty. by intros ->. Qed.

Lemma matches_shadowed (attrName : string) (attr : jsval) (r : record) :
  shadowed r = true -> matches attrName attr r = Throws TypeError.
Proof. unfold matches, call_hasOwnProperty. by intros ->. Qed.

Lemma matches_Returns (attrName : string) (attr : jsval) (r : record) (b : bool) :
  matches attrName attr r = Returns b ->
  shadowed r = false /\ has_attr attrName attr r = b.
Proof.
  unfold matches, call_hasOwnProperty, has_attr.
  destruct (shadowed r); [discriminate|]. intros H. by inversion H.
Qed.

(** *** [getAllByCursor] *)

Lemma getAllByCursor_loop_fate (rest : list record) (values : list jsval) (w : world) :
  fst (getAllByCursor_loop rest values w)
  = if quiet (S (length rest)) w
    then Resolved (VArr (values ++ map VObj rest))
    else Resolved VUndefined.
Proof.
  revert values w. induction rest as [|r rest IH]; intros values w.
  - cbn [getAllByCursor_loop length map].
    destruct (quiet 1 w) eqn:Q.
    + destruct (quiet_S _ _ Q) as [-> _]. by rewrite app_nil_r.
    + destruct (quiet_false_S _ _ Q) as [Hf|[_ Q']]; [|discriminate].
      by rewrite (next_fault_true _ Hf).
  - cbn [getAllByCursor_loop length map].
    destruct (quiet (S (S (length rest))) w) eqn:Q.
    + destruct (quiet_S _ _ Q) as [-> Q']. rewrite IH, Q'. by rewrite <- app_assoc.
    + destruct (quiet_false_S _ _ Q) as [Hf|[-> Q']].
      * by rewrite (next_fault_true _ Hf).
      * by rewrite IH, Q'.
Qed.

(** C9: on a store without records, [getAllByCursor], when the cursor
    request does not error, resolves with the empty array; and on any
    store it resolves with [undefined] exactly when one of the firings of
    the cursor request is an error event, and with the array of all
    records otherwise. *)
Theorem getAllByCursor_empty_store (self : DB) (storeName : string) (s : object_store)
    (w : world) :
  connected self ->
  stores w !! storeName = Some s ->
  (records s = [] -> fst (next_fault w) = false ->
   fst (getAllByCursor self storeName w) = Returns (Resolved (VArr []))) /\
  (fst (getAllByCursor self storeName w) = Returns (Resolved VUndefined)
   <-> quiet (S (length (records s))) w = false) /\
  (quiet (S (length (records s))) w = true ->
   fst (getAllByCursor self storeName w) = Returns (Resolved (VArr (map VObj (records s))))).
Proof.
  intros Hc Hs.
  assert (E : fst (getAllByCursor self storeName w)
              = Returns (fst (getAllByCursor_loop (records s) [] w))).
  { unfold getAllByCursor, bind. rewrite (getStore_connected _ _ _ _ _ Hc Hs).
    by destruct (getAllByCursor_loop (records s) [] w). }
  rewrite E, getAllByCursor_loop_fate. split; [|split].
  - intros -> Hf. unfold quiet. simpl. unfold next_fault in Hf.
    destruct (faults w) as [|f fl]; simpl in *; [reflexivity|]. subst f.
    reflexivity.
  - destruct (quiet _ w); split; intros H; try discriminate; reflexivity.
  - intros ->. reflexivity.
Qed.

(** *** [updateByCursor] and [deleteByCursor] *)

(** The records on which the test is false are passed over, one firing
    each. *)
Lemma updateByCursor_loop_prefix (attrName : string) (attr : jsval) (newVal : record)
    (pre rest : list record) (s : object_store) (cell : option promise) (w : world) :
  (forall r, In r pre -> matches attrName attr r = Returns false) ->
  quiet (length pre) w = true ->
  updateByCursor_loop attrName attr newVal (pre ++ rest) s cell w
  = updateByCursor_loop attrName attr newVal rest s cell (skip (length pre) w).
Proof.
  revert w. induction pre as [|r pre IH]; intros w Hm Hq.
  - by rewrite skip_0.
  - cbn [app length updateByCursor_loop].
    destruct (quiet_S _ _ Hq) as [-> Hq'].
    rewrite (Hm r (or_introl eq_refl)).
    rewrite IH; [|intros r' Hr'; apply Hm; by right|exact Hq'].
    by rewrite skip_skip.
Qed.

Lemma deleteByCursor_loop_prefix (attrName : string) (attr : jsval)
    (pre rest : list record) (s : object_store) (cell : option promise) (w : world) :
  (forall r, In r pre -> matches attrName attr r = Returns false) ->
  quiet (length pre) w = true ->
  deleteByCursor_loop attrName attr (pre ++ rest) s cell w
  = deleteByCursor_loop attrName attr rest s cell (skip (length pre) w).
Proof.
  revert w. induction pre as [|r pre IH]; intros w Hm Hq.
  - by rewrite skip_0.
  - cbn [app length deleteByCursor_loop].
    destruct (quiet_S _ _ Hq) as [-> Hq'].
    rewrite (Hm r (or_introl eq_refl)).
    rewrite IH; [|intros r' Hr'; apply Hm; by right|exact Hq'].
    by rewrite skip_skip.
Qed.

Lemma getAllByCursor_loop_prefix (pre rest : list record) (values : list jsval)
    (w : world) :
  quiet (length pre) w = true ->
  getAllByCursor_loop (pre ++ rest) values w
  = getAllByCursor_loop rest (values ++ map VObj pre) (skip (length pre) w).
Proof.
  revert values w. induction pre as [|r pre IH]; intros values w Hq.
  - by rewrite skip_0, app_nil_r.
  - cbn [app length getAllByCursor_loop map].
    destruct (quiet_S _ _ Hq) as [-> Hq'].
    rewrite IH by exact Hq'. by rewrite skip_skip, <- app_assoc.
Qed.

(** Once the promise is settled, nothing the scan does later changes it. *)
Lemma updateByCursor_loop_settled (attrName : string) (attr : jsval) (newVal : record)
    (rest : list record) (s : object_store) (p : promise) (w : world) :
  fst (fst (updateByCursor_loop attrName attr newVal rest s (Some p) w)) = p.
Proof.
  revert s w. induction rest as [|cur rest IH]; intros s w;
    cbn [updateByCursor_loop]; destruct (next_fault w) as [[|] w1]; try reflexivity.
  destruct (matches attrName attr cur) as [e|[|]]; [reflexivity| |apply IH].
  destruct (strict_equal _ _); [|apply IH].
  destruct (cursor_update s cur newVal) as [e|[ev s']]; [reflexivity|].
  destruct (next_fault w1) as [[|] w2]; [reflexivity|].
  destruct ev; [apply IH|reflexivity].
Qed.

Lemma deleteByCursor_loop_settled (attrName : string) (attr : jsval)
    (rest : list record) (s : object_store) (p : promise) (w : world) :
  fst (fst (deleteByCursor_loop attrName attr rest s (Some p) w)) = p.
Proof.
  revert s w. induction rest as [|cur rest IH]; intros s w;
    cbn [deleteByCursor_loop]; destruct (next_fault w) as [[|] w1]; try reflexivity.
  destruct (matches attrName attr cur) as [e|[|]]; [reflexivity| |apply IH].
  unfold cursor_delete.
  destruct (next_fault w1) as [[|] w2]; [reflexivity|apply IH].
Qed.

(** A scan changes nothing in the world but the pending faults. *)
Lemma updateByCursor_loop_stores (attrName : string) (attr : jsval) (newVal : record)
    (rest : list record) (s : object_store) (cell : option promise) (w : world) :
  stores (snd (updateByCursor_loop attrName attr newVal rest s cell w)) = stores w.
Proof.
  revert s cell w. induction rest as [|cur rest IH]; intros s cell w;
    cbn [updateByCursor_loop]; destruct (next_fault w) as [[|] w1] eqn:E1;
    pose proof (next_fault_stores _ _ _ E1) as H1; try exact H1.
  destruct (matches attrName attr cur) as [e|[|]]; [exact H1| |by rewrite IH].
  destruct (strict_equal _ _); [|by rewrite IH].
  destruct (cursor_update s cur newVal) as [e|[ev s']]; [exact H1|].
  destruct (next_fault w1) as [[|] w2] eqn:E2;
    pose proof (next_fault_stores _ _ _ E2) as H2; [simpl; congruence|].
  destruct ev; [rewrite IH|simpl]; congruence.
Qed.

Lemma deleteByCursor_loop_stores (attrName : string) (attr : jsval)
    (rest : list record) (s : object_store) (cell : option promise) (w : world) :
  stores (snd (deleteByCursor_loop attrName attr rest s cell w)) = stores w.
Proof.
  revert s cell w. induction rest as [|cur rest IH]; intros s cell w;
    cbn [deleteByCursor_loop]; destruct (next_fault w) as [[|] w1] eqn:E1;
    pose proof (next_fault_stores _ _ _ E1) as H1; try exact H1.
  destruct (matches attrName attr cur) as [e|[|]]; [exact H1| |by rewrite IH].
  unfold cursor_delete.
  destruct (next_fault w1) as [[|] w2] eqn:E2;
    pose proof (next_fault_stores _ _ _ E2) as H2; [simpl; congruence|].
  rewrite IH. congruence.
Qed.

Lemma quiet_S_eq (n : nat) (w : world) :
  quiet (S n) w = negb (fst (next_fault w)) && quiet n (skip 1 w).
Proof.
  unfold quiet, next_fault, skip. destruct w as [v st [|f fl]]; simpl.
  - by rewrite take_nil.
  - by rewrite drop_0.
Qed.

Lemma quiet_snoc (n : nat) (w : world) :
  quiet (S n) w = true ->
  quiet n w = true /\ next_fault (skip n w) = (false, skip (S n) w).
Proof.
  revert w. induction n as [|n IH]; intros w Hq.
  - split; [reflexivity|]. rewrite skip_0. by destruct (quiet_S _ _ Hq).
  - destruct (quiet_S _ _ Hq) as [Hf Hq']. destruct (IH _ Hq') as [Hq'' Hn].
    split.
    + rewrite quiet_S_eq, Hf, Hq''. reflexivity.
    + rewrite !skip_skip in Hn. exact Hn.
Qed.

(** A scan over records none of which has the attribute: the handler
    passes over them until it meets a record with an own property named
    [hasOwnProperty], where it throws. *)
Lemma updateByCursor_loop_without_match (attrName : string) (attr : jsval)
    (newVal : record) (rest : list record) (s : object_store) (w : world) :
  (forall r, In r rest -> has_attr attrName attr r = false) ->
  quiet (S (length rest)) w = true ->
  fst (updateByCursor_loop attrName attr newVal rest s None w)
  = if existsb shadowed rest then (Pending, None)
    else (Resolved indexErrorCode.noFound, Some s).
Proof.
  revert w. induction rest as [|cur rest IH]; intros w Hm Hq;
    cbn [updateByCursor_loop length existsb]; destruct (quiet_S _ _ Hq) as [-> Hq'];
    [reflexivity|].
  destruct (shadowed cur) eqn:Hsh.
  - by rewrite (matches_shadowed _ _ _ Hsh).
  - rewrite (matches_unshadowed _ _ _ Hsh), (Hm cur (or_introl eq_refl)).
    apply IH; [intros r Hr; apply Hm; by right|exact Hq'].
Qed.

Lemma deleteByCursor_loop_without_match (attrName : string) (attr : jsval)
    (rest : list record) (s : object_store) (w : world) :
  (forall r, In r rest -> has_attr attrName attr r = false) ->
  quiet (S (length rest)) w = true ->
  fst (deleteByCursor_loop attrName attr rest s None w)
  = if existsb shadowed rest then (Pending, None)
    else (Resolved indexErrorCode.noFound, Some s).
Proof.
  revert w. induction rest as [|cur rest IH]; intros w Hm Hq;
    cbn [deleteByCursor_loop length existsb]; destruct (quiet_S _ _ Hq) as [-> Hq'];
    [reflexivity|].
  destruct (shadowed cur) eqn:Hsh.
  - by rewrite (matches_shadowed _ _ _ Hsh).
  - rewrite (matches_unshadowed _ _ _ Hsh), (Hm cur (or_introl eq_refl)).
    apply IH; [intros r Hr; apply Hm; by right|exact Hq'].
Qed.

(** C8 (the code departs from the claim): when no record of the store has
    the attribute [attrName] with the value [attr] and the cursor request
    does not error, [updateByCursor] and [deleteByCursor] resolve with
    [noFound] on a store whose records all leave the method
    [hasOwnProperty] in place, the cursor having run to exhaustion.  On a
    store that holds a record with an own property of that name they do
    not: the test [value.hasOwnProperty(attrName)] throws in the handler
    of that record, the cursor is not continued, and the promise stays
    pending for ever.  The stores are unchanged in both cases. *)
Theorem cursor_scan_without_match (self : DB) (storeName attrName : string)
    (attr : jsval) (newVal : record) (s : object_store) (w : world) :
  connected self ->
  stores w !! storeName = Some s ->
  (forall r, In r (records s) -> has_attr attrName attr r = false) ->
  quiet (S (length (records s))) w = true ->
  fst (updateByCursor self storeName attrName attr newVal w)
  = Returns (if existsb shadowed (records s) then Pending
             else Resolved indexErrorCode.noFound) /\
  fst (deleteByCursor self storeName attrName attr w)
  = Returns (if existsb shadowed (records s) then Pending
             else Resolved indexErrorCode.noFound) /\
  stores (snd (updateByCursor self storeName attrName attr newVal w)) = stores w /\
  stores (snd (deleteByCursor self storeName attrName attr w)) = stores w.
Proof.
  intros Hc Hs Hm Hq.
  unfold updateByCursor, deleteByCursor, bind.
  rewrite !(getStore_connected _ _ _ _ _ Hc Hs).
  pose proof (updateByCursor_loop_without_match attrName attr newVal (records s) s w
                Hm Hq) as Hu.
  pose proof (deleteByCursor_loop_without_match attrName attr (records s) s w Hm Hq)
    as Hd.
  pose proof (updateByCursor_loop_stores attrName attr newVal (records s) s None w)
    as Hus.
  pose proof (deleteByCursor_loop_stores attrName attr (records s) s None w) as Hds.
  destruct (updateByCursor_loop _ _ _ _ _ _ _) as [[pu su] wu].
  destruct (deleteByCursor_loop _ _ _ _ _ _) as [[pd sd] wd].
  simpl in *.
  assert (Hid : forall w', stores w' = stores w -> stores (set_store storeName s w') = stores w).
  { intros w' E. unfold set_store. simpl. rewrite E. by apply insert_id. }
  destruct (existsb shadowed (records s)); inversion Hu; inversion Hd; subst;
    cbn [commit fst snd]; repeat split; auto.
Qed.

(** C10, amended to an error that comes before any match: when the cursor
    request errors after it passed over records on none of which the test
    of the handler was true, [updateByCursor] resolves with [updateFail]
    and [deleteByCursor] with [deleteFail], where [getAllByCursor]
    resolves with [undefined]; none rejects, and the stores are
    unchanged. *)
Theorem cursor_error_before_match (self : DB) (storeName attrName : string)
    (attr : jsval) (newVal : record) (s : object_store) (pre post : list record)
    (w : world) :
  connected self ->
  stores w !! storeName = Some s ->
  records s = (pre ++ post)%list ->
  (forall r, In r pre -> matches attrName attr r = Returns false) ->
  quiet (length pre) w = true ->
  fst (next_fault (skip (length pre) w)) = true ->
  updateByCursor self storeName attrName attr newVal w
  = (Returns (Resolved indexErrorCode.updateFail), skip (S (length pre)) w) /\
  deleteByCursor self storeName attrName attr w
  = (Returns (Resolved indexErrorCode.deleteFail), skip (S (length pre)) w) /\
  getAllByCursor self storeName w
  = (Returns (Resolved VUndefined), skip (S (length pre)) w).
Proof.
  intros Hc Hs Hr Hm Hq Hf.
  pose proof (next_fault_true _ Hf) as Hn. rewrite skip_skip in Hn.
  replace (length pre + 1)%nat with (S (length pre)) in Hn by lia.
  split; [|split].
  - unfold updateByCursor, bind. rewrite (getStore_connected _ _ _ _ _ Hc Hs), Hr.
    rewrite (updateByCursor_loop_prefix _ _ _ _ _ _ _ _ Hm Hq).
    destruct post; cbn [updateByCursor_loop]; rewrite Hn; reflexivity.
  - unfold deleteByCursor, bind. rewrite (getStore_connected _ _ _ _ _ Hc Hs), Hr.
    rewrite (deleteByCursor_loop_prefix _ _ _ _ _ _ _ Hm Hq).
    destruct post; cbn [deleteByCursor_loop]; rewrite Hn; reflexivity.
  - unfold getAllByCursor, bind. rewrite (getStore_connected _ _ _ _ _ Hc Hs), Hr.
    rewrite (getAllByCursor_loop_prefix _ _ _ _ Hq).
    destruct post; cbn [getAllByCursor_loop]; rewrite Hn; reflexivity.
Qed.

(** *** The primary key under [updateByCursor] *)

Lemma strict_equal_true_primitive (a b : jsval) (k : idbkey) :
  strict_equal a b = true -> to_key b = Some k -> primitive_key k = true.
Proof.
  destruct a, b; simpl; try discriminate; intros _ H; inversion H; reflexivity.
Qed.

Lemma same_key_strict_equal (a b : jsval) (k : idbkey) :
  to_key a = Some k -> to_key b = Some k -> primitive_key k = true ->
  strict_equal a b = true.
Proof.
  intros Ha Hb Hp. destruct k as [n|str|ks]; [| |discriminate].
  - apply to_key_KNum in Ha, Hb. subst. apply Z.eqb_refl.
  - apply to_key_KStr in Ha, Hb. subst. apply String.eqb_refl.
Qed.

Lemma find_replace_other (path : string) (k k' : idbkey) (r : record) (rs : list record) :
  record_key path r = Some k' -> k' <> k ->
  List.find (has_key path k) (replace_record path k' r rs) = List.find (has_key path k) rs.
Proof.
  intros Hr Hne.
  assert (Hk : has_key path k r = false)
    by (apply bool_decide_eq_false_2; congruence).
  induction rs as [|r' rs IH]; simpl; [reflexivity|].
  destruct (has_key path k' r') eqn:E.
  - apply bool_decide_eq_true_1 in E.
    assert (Hk' : has_key path k r' = false)
      by (apply bool_decide_eq_false_2; congruence).
    by rewrite Hk, Hk'.
  - by rewrite IH.
Qed.

Lemma find_insert_other (path : string) (k k' : idbkey) (r : record) (rs : list record) :
  record_key path r = Some k' -> k' <> k ->
  List.find (has_key path k) (insert_sorted path k' r rs) = List.find (has_key path k) rs.
Proof.
  intros Hr Hne.
  assert (Hk : has_key path k r = false)
    by (apply bool_decide_eq_false_2; congruence).
  induction rs as [|r' rs IH]; simpl; [by rewrite Hk|].
  destruct (record_key path r') as [k''|];
    [destruct (key_compare k' k'')|]; simpl; rewrite ?Hk, ?IH; reflexivity.
Qed.

(** A [put] leaves the records under other keys alone. *)
Lemma native_put_other (s s' : object_store) (newVal : record) (ev : request_event)
    (k : idbkey) :
  native_put s newVal = Returns (ev, s') ->
  record_key (keyPath s) newVal <> Some k ->
  keyPath s' = keyPath s /\ store_lookup s' k = store_lookup s k.
Proof.
  unfold native_put. intros H Hne.
  destruct (record_key (keyPath s) newVal) as [k'|] eqn:Hk; [|discriminate].
  assert (k' <> k) by congruence.
  destruct (violates_unique s k' newVal); [inversion H; subst; by split|].
  destruct (existsb _ _); inversion H; subst; (split; [reflexivity|]);
    unfold store_lookup; simpl.
  - by apply find_replace_other.
  - by apply find_insert_other.
Qed.

Lemma keys_of_member (path : string) (r : record) (k : idbkey) (rs : list record) :
  In r rs -> record_key path r = Some k -> k ∈ keys_of path rs.
Proof.
  induction rs as [|r' rs IH]; simpl; [tauto|].
  intros [->|Hin] Hk.
  - rewrite Hk. apply list_elem_of_here.
  - destruct (record_key path r'); [apply list_elem_of_further|]; by apply IH.
Qed.

(** Where no two records have the same key, a key belongs to one record. *)
Lemma lookup_unique (path : string) (k : idbkey) (r r' : record) (rs : list record) :
  NoDup (keys_of path rs) ->
  List.find (has_key path k) rs = Some r ->
  In r' rs -> record_key path r' = Some k -> r' = r.
Proof.
  induction rs as [|a rs IH]; simpl; [discriminate|].
  intros Hnd Hf Hin Hk.
  destruct (has_key path k a) eqn:Ha.
  - inversion Hf; subst a. destruct Hin as [->|Hin]; [reflexivity|].
    apply bool_decide_eq_true_1 in Ha. rewrite Ha in Hnd.
    apply NoDup_cons in Hnd as [Hnotin _].
    destruct Hnotin. by apply (keys_of_member path r').
  - destruct Hin as [->|Hin].
    + apply bool_decide_eq_false_1 in Ha. by destruct Ha.
    + apply IH; auto.
      destruct (record_key path a); [by apply NoDup_cons in Hnd as [_ ?]|exact Hnd].
Qed.

(** What the scan commits still holds, under its key, every record whose
    key field differs from that of [newVal]. *)
Lemma updateByCursor_loop_preserves (attrName : string) (attr : jsval) (newVal : record)
    (k : idbkey) (r : record) (rest : list record) (s s' : object_store)
    (cell : option promise) (w : world) :
  store_lookup s k = Some r ->
  (forall r', In r' rest -> record_key (keyPath s) r' = Some k -> r' = r) ->
  strict_equal (get_prop r (keyPath s)) (get_prop newVal (keyPath s)) = false ->
  snd (fst (updateByCursor_loop attrName attr newVal rest s cell w)) = Some s' ->
  store_lookup s' k = Some r.
Proof.
  revert s cell w. induction rest as [|cur rest IH]; intros s cell w Hl Hu Hd;
    cbn [updateByCursor_loop]; destruct (next_fault w) as [[|] w1]; simpl;
    try discriminate.
  - intros H; inversion H; subst. exact Hl.
  - assert (Hu' : forall r', In r' rest -> record_key (keyPath s) r' = Some k -> r' = r)
      by (intros r' Hr'; apply Hu; by right).
    destruct (matches attrName attr cur) as [e|[|]]; [discriminate| |by apply IH].
    destruct (strict_equal (get_prop cur (keyPath s)) _) eqn:Heq; [|by apply IH].
    destruct (cursor_update s cur newVal) as [e|[ev s1]] eqn:Hcu; [discriminate|].
    destruct (next_fault w1) as [[|] w2]; [discriminate|].
    destruct ev; [|discriminate].
    unfold cursor_update in Hcu.
    destruct (record_key (keyPath s) cur) as [kc|] eqn:Hkc; [|discriminate].
    destruct (record_key (keyPath s) newVal) as [kn|] eqn:Hkn; [|discriminate].
    destruct (decide (kc = kn)) as [->|]; [|discriminate].
    assert (Hne : Some kn <> Some k).
    { intros Hk. inversion Hk; subst kn.
      rewrite (Hu cur (or_introl eq_refl) Hkc) in Heq. congruence. }
    rewrite <- Hkn in Hne.
    destruct (native_put_other _ _ _ _ _ Hcu Hne) as [Hkp Hl1].
    apply IH; rewrite ?Hkp; [congruence|exact Hu'|exact Hd].
Qed.

(** C7 (the code departs from the claim): in a store whose records have
    pairwise different keys, a record on which the test of the handler is
    true and whose key field differs from that of [newVal] is still in the
    store, under its key, after [updateByCursor], whatever the call
    settles with.  The call resolves with [primaryKey] when that record is
    the first on which the test is true.  It does not when an earlier
    record passed the test and had the key field of [newVal]: that record
    is updated, the promise takes the fate of the update request, and the
    later [resolve(primaryKey)] is ignored. *)
Theorem updateByCursor_primary_key (self : DB) (storeName attrName : string)
    (attr : jsval) (newVal : record) (s : object_store) (k : idbkey) (cur : record)
    (w : world) :
  connected self ->
  stores w !! storeName = Some s ->
  keyed s ->
  store_lookup s k = Some cur ->
  matches attrName attr cur = Returns true ->
  strict_equal (get_prop cur (keyPath s)) (get_prop newVal (keyPath s)) = false ->
  (exists s', stores (snd (updateByCursor self storeName attrName attr newVal w))
                !! storeName = Some s' /\
              store_lookup s' k = Some cur) /\
  (forall pre post,
      records s = (pre ++ cur :: post)%list ->
      (forall r, In r pre -> matches attrName attr r = Returns false) ->
      quiet (S (length pre)) w = true ->
      fst (updateByCursor self storeName attrName attr newVal w)
      = Returns (Resolved indexErrorCode.primaryKey)) /\
  (forall pre first mid post result s1,
      records s = (pre ++ first :: mid ++ cur :: post)%list ->
      (forall r, In r pre -> matches attrName attr r = Returns false) ->
      matches attrName attr first = Returns true ->
      strict_equal (get_prop first (keyPath s)) (get_prop newVal (keyPath s)) = true ->
      cursor_update s first newVal = Returns (OnSuccess result, s1) ->
      quiet (S (S (length pre))) w = true ->
      fst (updateByCursor self storeName attrName attr newVal w)
      = Returns (Resolved indexErrorCode.updateSuccess)).
Proof.
  intros Hc Hs [_ Hnd] Hl Hm Hd. unfold updateByCursor, bind.
  rewrite (getStore_connected _ _ _ _ _ Hc Hs). split; [|split].
  - pose proof (updateByCursor_loop_preserves attrName attr newVal k cur
                  (records s) s) as Hp.
    pose proof (updateByCursor_loop_stores attrName attr newVal (records s) s None w)
      as Hst.
    destruct (updateByCursor_loop attrName attr newVal (records s) s None w)
      as [[p [s'|]] w'] eqn:E; simpl in *.
    + exists s'. split; [apply lookup_insert_eq|]. eapply Hp; eauto.
      * intros r' Hr' Hk'. by apply (lookup_unique (keyPath s) k cur r' (records s)).
      * by rewrite E.
    + exists s. split; [by rewrite Hst|exact Hl].
  - intros pre post Hr Hpre Hq. destruct (quiet_snoc _ _ Hq) as [Hq' Hn].
    rewrite Hr, (updateByCursor_loop_prefix _ _ _ _ _ _ _ _ Hpre Hq').
    cbn [updateByCursor_loop]. rewrite Hn, Hm, Hd. cbn [resolve].
    pose proof (updateByCursor_loop_settled attrName attr newVal post s
                  (Resolved indexErrorCode.primaryKey) (skip (S (length pre)) w)) as Hset.
    destruct (updateByCursor_loop _ _ _ post _ _ _) as [[p [s'|]] w'];
      simpl in *; by subst.
  - intros pre first mid post result s1 Hr Hpre Hmf Heq Hcu Hq.
    destruct (quiet_snoc _ _ Hq) as [Hq1 Hn1]. destruct (quiet_snoc _ _ Hq1) as [Hq0 Hn0].
    rewrite Hr, (updateByCursor_loop_prefix _ _ _ _ _ _ _ _ Hpre Hq0).
    cbn [updateByCursor_loop]. rewrite Hn0, Hmf, Heq, Hcu, Hn1.
    cbn [resolve promisify].
    pose proof (updateByCursor_loop_settled attrName attr newVal (mid ++ cur :: post) s1
                  (Resolved indexErrorCode.updateSuccess) (skip (S (S (length pre))) w))
      as Hset.
    destruct (updateByCursor_loop _ _ _ (mid ++ cur :: post) _ _ _) as [[p [s'|]] w'];
      simpl in *; by subst.
Qed.

(** ** C2: [setBatch] *)

Lemma foldl_earlier_Some (ps : list settled) (b : nat * jsval) :
  is_Some (foldl earlier (Some b) ps).
Proof.
  revert b. induction ps as [|p ps IH]; intros b; simpl; [eauto|].
  unfold earlier at 2. destruct (fate p); try apply IH.
  destruct (Nat.ltb _ _); apply IH.
Qed.

Lemma foldl_earlier_None (ps : list settled) (best : option (nat * jsval)) :
  foldl earlier best ps = None <->
  best = None /\ Forall (fun p => forall e, fate p <> Rejected e) ps.
Proof.
  revert best. induction ps as [|p ps IH]; intros best; simpl.
  - split; [intros ->; split; [reflexivity|constructor]|by intros [-> _]].
  - rewrite IH. unfold earlier. split.
    + intros [Hb Hps]. destruct (fate p) eqn:E.
      * subst. split; [reflexivity|]. constructor; [|exact Hps]. congruence.
      * subst. split; [reflexivity|]. constructor; [|exact Hps]. congruence.
      * destruct best as [b|]; [destruct (Nat.ltb _ _)|]; discriminate.
    + intros [-> Hps]. inversion Hps as [|? ? Hp Hps']; subst.
      destruct (fate p) eqn:E; try (split; [reflexivity|exact Hps']).
      exfalso. by eapply Hp.
Qed.

Lemma foldl_earlier_reason (ps : list settled) (best : option (nat * jsval))
    (n : nat) (e : jsval) :
  foldl earlier best ps = Some (n, e) ->
  (exists m, best = Some (m, e)) \/ Exists (fun p => fate p = Rejected e) ps.
Proof.
  revert best. induction ps as [|p ps IH]; intros best; simpl.
  - intros ->. left. eauto.
  - intros H. apply IH in H as [[m Hm]|H]; [|right; by constructor 2].
    unfold earlier in Hm. destruct (fate p) eqn:E; eauto.
    destruct best as [b|].
    + destruct (Nat.ltb _ _); [|eauto]. inversion Hm; subst. right. by constructor 1.
    + inversion Hm; subst. right. by constructor 1.
Qed.

(** [Promise.all] resolves exactly when every promise resolves, and then
    with one value per promise. *)
Lemma Promise_all_resolved (ps : list settled) :
  (exists v, Promise_all ps = Resolved v) <-> Forall resolved ps.
Proof.
  unfold Promise_all. split.
  - intros [v H]. destruct (foldl earlier None ps) as [[n e]|] eqn:E; [discriminate|].
    destruct (mapM fulfilled_value ps) as [vs|] eqn:Em; [|discriminate].
    apply mapM_Some in Em. clear -Em. induction Em as [|p y ps vs Hp _ IH]; constructor; auto.
    unfold fulfilled_value in Hp. unfold resolved. destruct (fate p); try discriminate. eauto.
  - intros Hall.
    assert (E : foldl earlier None ps = None).
    { apply foldl_earlier_None. split; [reflexivity|].
      eapply Forall_impl; [exact Hall|]. intros p [v Hv] e. congruence. }
    rewrite E.
    assert (Em : is_Some (mapM fulfilled_value ps)).
    { apply mapM_is_Some. eapply Forall_impl; [exact Hall|].
      intros p [v Hv]. unfold compose, fulfilled_value. rewrite Hv. eauto. }
    destruct Em as [vs ->]. eauto.
Qed.

Lemma Promise_all_length (ps : list settled) (v : jsval) :
  Promise_all ps = Resolved v -> array_length v = length ps.
Proof.
  unfold Promise_all. destruct (foldl earlier None ps) as [[n e]|]; [discriminate|].
  destruct (mapM fulfilled_value ps) as [vs|] eqn:Em; [|discriminate].
  intros H; inversion H; subst. simpl.
  apply mapM_Some in Em. symmetry. by eapply Forall2_length.
Qed.

(** [Promise.all] rejects as soon as one promise rejects, with the reason
    of one of the promises that reject. *)
Lemma Promise_all_rejected (ps : list settled) :
  Exists rejected ps ->
  exists e, Promise_all ps = Rejected e /\ Exists (fun p => fate p = Rejected e) ps.
Proof.
  intros Hex. unfold Promise_all.
  destruct (foldl earlier None ps) as [[n e]|] eqn:E.
  - exists e. split; [reflexivity|].
    apply foldl_earlier_reason in E as [[m Hm]|H]; [discriminate|exact H].
  - apply foldl_earlier_None in E as [_ Hall]. exfalso.
    apply Exists_exists in Hex as (p & Hin & e & He).
    rewrite Forall_forall in Hall. by eapply Hall.
Qed.

Lemma setBatch_calls_length (self : DB) (storeName : string) (items : list record)
    (w : world) :
  length (fst (setBatch_calls self storeName items w)) = length items.
Proof.
  revert w. induction items as [|item rest IH]; intros w; simpl; [reflexivity|].
  destruct (set_begin self storeName item w) as [c w1].
  specialize (IH w1). destruct (setBatch_calls self storeName rest w1). simpl in *.
  by rewrite IH.
Qed.

Lemma setBatch_resume_length (self : DB) (storeName : string) (calls : list set_call)
    (w : world) :
  length (fst (setBatch_resume self storeName calls w)) = length calls.
Proof.
  revert w. induction calls as [|[p|item key keys] rest IH]; intros w; simpl;
    [reflexivity| |].
  - specialize (IH w). destruct (setBatch_resume self storeName rest w). simpl in *.
    by rewrite IH.
  - destruct (await keys _ w) as [c w1].
    specialize (IH w1). destruct (setBatch_resume self storeName rest w1). simpl in *.
    by rewrite IH.
Qed.

Lemma setBatch_promises_length (self : DB) (storeName : string) (items : list record)
    (w : world) :
  length (setBatch_promises self storeName items w) = length items.
Proof.
  unfold setBatch_promises.
  pose proof (setBatch_calls_length self storeName items w) as H.
  destruct (setBatch_calls self storeName items w) as [calls w1]. simpl in H.
  by rewrite setBatch_resume_length.
Qed.

(** What [setBatch] settles with: the comparison of the two lengths never
    fails, so the batch passes on the fate of [Promise.all], with
    [setBatchSuccess] in place of the array of results. *)
Lemma setBatch_fate (self : DB) (storeName : string) (items : list record) (w : world) :
  fst (setBatch self storeName items w)
  = Returns (match Promise_all (setBatch_promises self storeName items w) with
             | Resolved _ => Resolved errorCode.setBatchSuccess
             | Rejected e => Rejected e
             | Pending => Pending
             end).
Proof.
  pose proof (setBatch_promises_length self storeName items w) as Hlen.
  unfold setBatch, async, setBatch_promises in *.
  destruct (setBatch_calls self storeName items w) as [calls w1].
  destruct (setBatch_resume self storeName calls w1) as [setList w2]. simpl in Hlen.
  simpl in *.
  destruct (Promise_all setList) as [|v|e] eqn:E; simpl; unfold ret, throw; simpl;
    try reflexivity.
  rewrite (Promise_all_length _ _ E), Hlen, Nat.eqb_refl. reflexivity.
Qed.

(** The first half of C2 holds: the batch resolves with [setBatchSuccess]
    exactly when every individual [set] resolved. *)
Lemma setBatch_success_iff (self : DB) (storeName : string) (items : list record)
    (w : world) :
  fst (setBatch self storeName items w) = Returns (Resolved errorCode.setBatchSuccess)
  <-> Forall resolved (setBatch_promises self storeName items w).
Proof.
  rewrite setBatch_fate, <- Promise_all_resolved.
  destruct (Promise_all _) as [|v|e]; split; try (intros [? ?]); try discriminate; eauto.
Qed.

(** The second half does not: a [set] that rejects makes the batch reject
    with the reason of an individual [set]; the batch never resolves with
    [setBatchFail]. *)
Lemma setBatch_failure (self : DB) (storeName : string) (items : list record)
    (w : world) :
  fst (setBatch self storeName items w) <> Returns (Resolved errorCode.setBatchFail) /\
  (Exists rejected (setBatch_promises self storeName items w) ->
   exists e, fst (setBatch self storeName items w) = Returns (Rejected e) /\
             Exists (fun p => fate p = Rejected e)
               (setBatch_promises self storeName items w)).
Proof.
  rewrite setBatch_fate. split.
  - destruct (Promise_all _); intros H; discriminate.
  - intros Hex. destruct (Promise_all_rejected _ Hex) as (e & -> & He). eauto.
Qed.

(** Opening the sample database on a host that never saw it creates the
    store and its index. *)
Example IndexDB_open_sample :
  IndexDB_open fresh_db {| version := 0; stores := ∅; faults := [] |}
  = (OpenResolvedThis sample_db, sample_world [] []).
Proof. vm_compute. reflexivity. Qed.

(** C2 (the code departs from the claim): a batch with the same new record
    twice.  Both key scans run before the first write, so both calls take
    the [add] path; the second [add] finds the key taken and its [set] is
    rejected with [setFail].  The batch then does not resolve with
    [setBatchFail]: it is rejected with that [setFail].  No batch ever
    resolves with [setBatchFail]. *)
Theorem setBatch_failing_set_rejects_setFail :
  setBatch_promises sample_db "task" [alice; alice] (sample_world [] [])
  = [ {| step := 2; fate := Resolved errorCode.setSuccess |};
      {| step := 2; fate := Rejected errorCode.setFail |} ] /\
  setBatch sample_db "task" [alice; alice] (sample_world [] [])
  = (Returns (Rejected errorCode.setFail), sample_world [alice] []) /\
  (forall self storeName items w,
      fst (setBatch self storeName items w)
      <> Returns (Resolved errorCode.setBatchFail)).
Proof.
  split; [vm_compute; reflexivity|]. split; [vm_compute; reflexivity|].
  intros self storeName items w. apply setBatch_failure.
Qed.

(** The same with one record and an engine fault on its [add] request. *)
Example setBatch_fault_rejects_setFail :
  fst (setBatch sample_db "task" [alice] (sample_world [] [false; true]))
  = Returns (Rejected errorCode.setFail).
Proof. vm_compute. reflexivity. Qed.

(** ** Instances *)

(** C3 on a value that only lacks [id], and on one that has an own
    property named [hasOwnProperty] as well. *)
Lemma set_without_key_field_witness :
  set sample_db "task" anonymous (sample_world [alice] [])
  = (Returns (Resolved errorCode.setNoCorresponding), sample_world [alice] []) /\
  set sample_db "task" masked (sample_world [alice] [])
  = (Returns (Rejected TypeError), sample_world [alice] []).
Proof.
  split.
  - exact (set_without_key_field sample_db "task" (task_store [alice]) anonymous
             (sample_world [alice] []) eq_refl eq_refl eq_refl).
  - exact (set_without_key_field sample_db "task" (task_store [alice]) masked
             (sample_world [alice] []) eq_refl eq_refl eq_refl).
Defined.

(** C4 on a key that is an array: the store holds a record under the key
    of the value, [update] would overwrite it, but the scan [keys.indexOf]
    does not find the key, [set] issues an [add], and the promise is
    rejected with [setFail], the record not overwritten. *)
Lemma set_present_array_key_is_not_update :
  key_present (task_store [pair_12]) pair_12_renamed = true /\
  set sample_db "task" pair_12_renamed (sample_world [pair_12] [])
  = (Returns (Rejected errorCode.setFail), sample_world [pair_12] []) /\
  update sample_db "task" pair_12_renamed (sample_world [pair_12] [])
  = (Returns (Resolved errorCode.updateSuccess), sample_world [pair_12_renamed] []) /\
  set sample_db "task" pair_12_renamed (sample_world [pair_12] [])
  <> update sample_db "task" pair_12_renamed (sample_world [pair_12] []).
Proof. repeat split; try (vm_compute; reflexivity). vm_compute. discriminate. Qed.

Lemma set_on_a_present_key_witness :
  set sample_db "task" pair_12_renamed (sample_world [pair_12] [])
  = (Returns (Rejected errorCode.setFail), skip 2 (sample_world [pair_12] [])) /\
  set sample_db "task" alice_retagged (sample_world [alice; bob] [])
  = update sample_db "task" alice_retagged (sample_world [alice; bob] []).
Proof.
  split.
  - exact (set_on_a_present_key sample_db "task" (task_store [pair_12]) pair_12_renamed
             (KArr [KNum 1; KNum 2]) (sample_world [pair_12] [])
             eq_refl eq_refl eq_refl eq_refl eq_refl eq_refl eq_refl).
  - exact (set_on_a_present_key sample_db "task" (task_store [alice; bob]) alice_retagged
             (KNum 1) (sample_world [alice; bob] [])
             eq_refl eq_refl eq_refl eq_refl eq_refl eq_refl eq_refl).
Defined.

Example set_present_key_is_update_sample :
  set sample_db "task" alice_retagged (sample_world [alice; bob] [])
  = (Returns (Resolved errorCode.updateSuccess), sample_world [alice_retagged; bob] []).
Proof. vm_compute. reflexivity. Qed.

Lemma set_then_get_witness :
  exists k,
    record_key "id" bob = Some k /\
    fst (get sample_db "task" (key_to_value k) (sample_world [alice; bob] []))
    = Returns (Resolved (VObj bob)) /\
    (one_field "id" = true ->
     fst (get sample_db "task" (get_prop bob "id") (sample_world [alice; bob] []))
     = Returns (Resolved (VObj bob))).
Proof.
  apply (set_then_get sample_db "task" (task_store [alice]) bob
           (sample_world [alice] [])); vm_compute; reflexivity.
Defined.

(** C7 where an earlier match settled the promise: [bob] passes the test
    and his [id] differs from that of the new value, but [alice], visited
    first, passes it too and is updated, and the call resolves with
    [updateSuccess]. *)
Lemma updateByCursor_second_match_not_primaryKey :
  store_lookup (task_store [alice; bob]) (KNum 2) = Some bob /\
  matches "tag" (VStr "x") bob = Returns true /\
  strict_equal (get_prop bob "id") (get_prop alice_retagged "id") = false /\
  updateByCursor sample_db "task" "tag" (VStr "x") alice_retagged
    (sample_world [alice; bob] [])
  = (Returns (Resolved indexErrorCode.updateSuccess),
     sample_world [alice_retagged; bob] []) /\
  fst (updateByCursor sample_db "task" "tag" (VStr "x") alice_retagged
         (sample_world [alice; bob] []))
  <> Returns (Resolved indexErrorCode.primaryKey).
Proof. repeat split; try (vm_compute; reflexivity). vm_compute. discriminate. Qed.

Lemma keyed_task_store_alice_bob : keyed (task_store [alice; bob]).
Proof.
  split.
  - repeat constructor; eexists; reflexivity.
  - apply NoDup_cons. split; [|apply NoDup_singleton].
    intros H. apply list_elem_of_singleton in H. discriminate.
Qed.

Lemma updateByCursor_primary_key_witness :
  (exists s', stores (snd (updateByCursor sample_db "task" "tag" (VStr "x")
                             alice_retagged (sample_world [alice; bob] [])))
                !! "task" = Some s' /\
              store_lookup s' (KNum 2) = Some bob) /\
  fst (updateByCursor sample_db "task" "tag" (VStr "x") alice_retagged
         (sample_world [alice; bob] []))
  = Returns (Resolved indexErrorCode.updateSuccess).
Proof.
  pose proof (updateByCursor_primary_key sample_db "task" "tag" (VStr "x")
                alice_retagged (task_store [alice; bob]) (KNum 2) bob
                (sample_world [alice; bob] [])
                eq_refl eq_refl keyed_task_store_alice_bob eq_refl eq_refl eq_refl)
    as (H1 & _ & H3).
  split; [exact H1|].
  apply (H3 [] alice [] [] (VNum 1) (task_store [alice_retagged; bob]));
    try reflexivity.
  intros r [].
Defined.

Example updateByCursor_first_match_primaryKey :
  updateByCursor sample_db "task" "email" (VStr "b") alice_retagged
    (sample_world [alice; bob] [])
  = (Returns (Resolved indexErrorCode.primaryKey), sample_world [alice; bob] []).
Proof. vm_compute. reflexivity. Qed.

(** C8 on a store without a record tagged [z]: with the records [alice]
    and [bob] both scans resolve with [noFound]; with [masked_row] in
    front their promise stays pending. *)
Lemma cursor_scan_without_match_witness :
  fst (updateByCursor sample_db "task" "tag" (VStr "z") alice_retagged
         (sample_world [masked_row; alice] []))
  = Returns Pending /\
  fst (deleteByCursor sample_db "task" "tag" (VStr "z")
         (sample_world [masked_row; alice] []))
  = Returns Pending /\
  fst (updateByCursor sample_db "task" "tag" (VStr "z") alice_retagged
         (sample_world [alice; bob] []))
  = Returns (Resolved indexErrorCode.noFound).
Proof.
  destruct (cursor_scan_without_match sample_db "task" "tag" (VStr "z") alice_retagged
              (task_store [masked_row; alice]) (sample_world [masked_row; alice] [])
              eq_refl eq_refl) as (H1 & H2 & _);
    [intros r [<-|[<-|[]]]; reflexivity|reflexivity|].
  split; [exact H1|]. split; [exact H2|]. reflexivity.
Defined.

Lemma getAllByCursor_empty_store_witness :
  fst (getAllByCursor sample_db "task" (sample_world [] [])) = Returns (Resolved (VArr [])).
Proof.
  pose proof (getAllByCursor_empty_store sample_db "task" (task_store [])
                (sample_world [] []) eq_refl eq_refl) as [H _].
  apply H; reflexivity.
Defined.

(** C6 as stated fails where nothing is stored: [getAll] and its like
    resolve with the empty array and [getCountByIndex] with 0, not with
    [undefined]. *)
Lemma fetch_empty_store_not_undefined :
  fst (getAll sample_db "task" (sample_world [] [])) = Returns (Resolved (VArr [])) /\
  fst (getAllKeys sample_db "task" (sample_world [] [])) = Returns (Resolved (VArr [])) /\
  fst (getAllByIndex sample_db "task" "mail" (sample_world [] []))
  = Returns (Resolved (VArr [])) /\
  fst (getAllKeysByIndex sample_db "task" "mail" (sample_world [] []))
  = Returns (Resolved (VArr [])) /\
  fst (getCountByIndex sample_db "task" "mail" (VStr "a") (sample_world [] []))
  = Returns (Resolved (VNum 0)) /\
  fst (getAll sample_db "task" (sample_world [] [])) <> Returns (Resolved VUndefined).
Proof. repeat split; try (vm_compute; reflexivity). vm_compute. discriminate. Qed.

(** C10 as stated fails when a match came before the error.  First run:
    [alice] matches and is updated, then the cursor request errors; the
    promise stays resolved with [updateSuccess] although the transaction
    is rolled back.  Second run: the update of the match violates the
    unique index, the transaction aborts and the cursor request errors
    with it; the promise is rejected.  Third run: as the first, for
    [deleteByCursor]. *)
Lemma cursor_error_after_match :
  updateByCursor sample_db "task" "email" (VStr "a") alice_retagged
    (sample_world [alice; bob] [false; false; true])
  = (Returns (Resolved indexErrorCode.updateSuccess), sample_world [alice; bob] []) /\
  updateByCursor sample_db "task" "email" (VStr "a") alice_as_bob
    (sample_world [alice; bob] [])
  = (Returns (Rejected indexErrorCode.updateFail), sample_world [alice; bob] []) /\
  deleteByCursor sample_db "task" "email" (VStr "a")
    (sample_world [alice; bob] [false; false; true])
  = (Returns (Resolved indexErrorCode.deleteSuccess), sample_world [alice; bob] []) /\
  fst (updateByCursor sample_db "task" "email" (VStr "a") alice_retagged
         (sample_world [alice; bob] [false; false; true]))
  <> Returns (Resolved indexErrorCode.updateFail) /\
  fst (deleteByCursor sample_db "task" "email" (VStr "a")
         (sample_world [alice; bob] [false; false; true]))
  <> Returns (Resolved indexErrorCode.deleteFail).
Proof. repeat split; try (vm_compute; reflexivity); vm_compute; discriminate. Qed.

Lemma cursor_error_before_match_witness :
  updateByCursor sample_db "task" "email" (VStr "b") alice_retagged
    (sample_world [alice; bob] [false; true])
  = (Returns (Resolved indexErrorCode.updateFail), sample_world [alice; bob] []) /\
  deleteByCursor sample_db "task" "email" (VStr "b")
    (sample_world [alice; bob] [false; true])
  = (Returns (Resolved indexErrorCode.deleteFail), sample_world [alice; bob] []) /\
  getAllByCursor sample_db "task" (sample_world [alice; bob] [false; true])
  = (Returns (Resolved VUndefined), sample_world [alice; bob] []).
Proof.
  apply (cursor_error_before_match sample_db "task" "email" (VStr "b") alice_retagged
           (task_store [alice; bob]) [alice] [bob]
           (sample_world [alice; bob] [false; true]));
    try reflexivity.
  intros r [<-|[]]. reflexivity.
Defined.

(** * Further properties *)

(** ** Stores that stay keyed *)

Lemma insert_sorted_Permutation (path : string) (k : idbkey) (r : record)
    (l : list record) :
  insert_sorted path k r l ≡ₚ r :: l.
Proof.
  induction l as [|r' l IH]; simpl; [reflexivity|].
  destruct (record_key path r') as [k'|]; [destruct (key_compare k k')|];
    try reflexivity; rewrite IH; apply Permutation_swap.
Qed.

Lemma keys_of_Permutation (path : string) (l l' : list record) :
  l ≡ₚ l' -> keys_of path l ≡ₚ keys_of path l'.
Proof.
  induction 1 as [|r l l' _ IH|r r' l|l l' l'' _ IH1 _ IH2]; simpl.
  - reflexivity.
  - destruct (record_key path r); by rewrite IH.
  - destruct (record_key path r), (record_key path r'); try reflexivity.
    apply Permutation_swap.
  - by rewrite IH1.
Qed.

Lemma keys_of_insert_sorted (path : string) (k : idbkey) (r : record) (l : list record) :
  record_key path r = Some k ->
  keys_of path (insert_sorted path k r l) ≡ₚ k :: keys_of path l.
Proof.
  intros Hr. rewrite (keys_of_Permutation _ _ _ (insert_sorted_Permutation path k r l)).
  simpl. by rewrite Hr.
Qed.

Lemma keys_of_elem (path : string) (k : idbkey) (l : list record) :
  existsb (has_key path k) l = true <-> k ∈ keys_of path l.
Proof.
  rewrite existsb_has_key. induction (keys_of path l) as [|k' ks IH]; simpl.
  - split; [discriminate|]. by intros ?%elem_of_nil.
  - rewrite elem_of_cons, orb_true_iff, IH, bool_decide_eq_true.
    split; (intros [H|H]; [left|right]); congruence.
Qed.

Lemma keys_of_filter (path : string) (f : option idbkey -> bool) (l : list record) :
  keys_of path (List.filter (fun r => f (record_key path r)) l)
  = List.filter (fun k => f (Some k)) (keys_of path l).
Proof.
  induction l as [|r l IH]; simpl; [reflexivity|].
  destruct (record_key path r) as [k|] eqn:E; simpl.
  - destruct (f (Some k)); simpl; rewrite ?E, IH; reflexivity.
  - destruct (f None); simpl; rewrite ?E, IH; reflexivity.
Qed.

Lemma NoDup_List_filter {A : Type} (f : A -> bool) (l : list A) :
  NoDup l -> NoDup (List.filter f l).
Proof.
  induction 1 as [|x l Hx _ IH]; simpl; [constructor|].
  destruct (f x); [|exact IH]. constructor; [|exact IH].
  rewrite list_elem_of_In, filter_In, <- list_elem_of_In. tauto.
Qed.

Lemma Forall_List_filter {A : Type} (P : A -> Prop) (f : A -> bool) (l : list A) :
  Forall P l -> Forall P (List.filter f l).
Proof.
  induction 1 as [|x l Hx _ IH]; simpl; [constructor|].
  destruct (f x); [apply Forall_cons_2|]; assumption.
Qed.

Lemma same_schema_refl (s : object_store) : same_schema s s.
Proof. unfold same_schema. auto. Qed.

Lemma same_schema_trans (s1 s2 s3 : object_store) :
  same_schema s1 s2 -> same_schema s2 s3 -> same_schema s1 s3.
Proof.
  intros (Hk1 & Hi1 & H1) (Hk2 & Hi2 & H2).
  split; [congruence|]. split; [congruence|auto].
Qed.

Lemma keyed_insert (s : object_store) (k : idbkey) (r : record) :
  record_key (keyPath s) r = Some k ->
  existsb (has_key (keyPath s) k) (records s) = false ->
  keyed s -> keyed (with_records s (insert_sorted (keyPath s) k r (records s))).
Proof.
  intros Hr Hex [Hall Hnd]. unfold keyed, store_keys. simpl. split.
  - rewrite (insert_sorted_Permutation (keyPath s) k r (records s)).
    constructor; [by rewrite Hr|exact Hall].
  - rewrite (keys_of_insert_sorted _ _ _ _ Hr). constructor; [|exact Hnd].
    rewrite <- keys_of_elem. by rewrite Hex.
Qed.

Lemma keyed_replace (s : object_store) (k : idbkey) (r : record) :
  record_key (keyPath s) r = Some k ->
  keyed s -> keyed (with_records s (replace_record (keyPath s) k r (records s))).
Proof.
  intros Hr [Hall Hnd]. unfold keyed, store_keys. simpl. split.
  - unfold replace_record. rewrite Forall_map. eapply Forall_impl; [exact Hall|].
    intros r' Hr'. simpl. destruct (has_key (keyPath s) k r'); [by rewrite Hr|exact Hr'].
  - by rewrite keys_replace_record.
Qed.

Lemma keyed_without (s : object_store) (o : option idbkey) :
  keyed s ->
  keyed (with_records s
           (List.filter (fun r => negb (bool_decide (record_key (keyPath s) r = o)))
              (records s))).
Proof.
  intros [Hall Hnd]. unfold keyed, store_keys. simpl. split.
  - by apply Forall_List_filter.
  - pose proof (keys_of_filter (keyPath s) (fun o' => negb (bool_decide (o' = o)))
                  (records s)) as E.
    simpl in E. rewrite E. by apply NoDup_List_filter.
Qed.

Lemma native_put_same_schema (s s' : object_store) (r : record) (ev : request_event) :
  native_put s r = Returns (ev, s') -> same_schema s s'.
Proof.
  unfold native_put. destruct (record_key (keyPath s) r) as [k|] eqn:Hk; [|discriminate].
  destruct (violates_unique s k r); [intros H; inversion H; apply same_schema_refl|].
  destruct (existsb _ _) eqn:Hex; intros H; inversion H; subst;
    (split; [reflexivity|split; [reflexivity|]]); auto using keyed_replace, keyed_insert.
Qed.

(** Whatever a native request does to its store, the key path and the
    indexes stay, and a keyed store stays keyed. *)
Lemma native_same_schema (s s' : object_store) (a : store_action) (ev : request_event) :
  native s a = Returns (ev, s') -> same_schema s s'.
Proof.
  destruct a as [v|v|k| | |k|]; simpl.
  - unfold native_add. destruct (record_key (keyPath s) v) as [k|] eqn:Hk; [|discriminate].
    destruct (existsb _ _) eqn:Hex; simpl;
      [intros H; inversion H; apply same_schema_refl|].
    destruct (violates_unique s k v); intros H; inversion H; subst;
      [apply same_schema_refl|].
    split; [reflexivity|split; [reflexivity|]]. auto using keyed_insert.
  - apply native_put_same_schema.
  - unfold native_get. destruct (to_key k); [|discriminate].
    intros H; inversion H; apply same_schema_refl.
  - intros H; inversion H; apply same_schema_refl.
  - intros H; inversion H; apply same_schema_refl.
  - unfold native_delete. destruct (to_key k) as [k'|]; [|discriminate].
    intros H; inversion H; subst. split; [reflexivity|split; [reflexivity|]].
    apply (keyed_without s (Some k')).
  - intros H; inversion H; subst. split; [reflexivity|split; [reflexivity|]].
    intros _. split; simpl; constructor.
Qed.

Lemma cursor_update_same_schema (s s' : object_store) (cur newVal : record)
    (ev : request_event) :
  cursor_update s cur newVal = Returns (ev, s') -> same_schema s s'.
Proof.
  unfold cursor_update.
  destruct (record_key (keyPath s) cur), (record_key (keyPath s) newVal);
    try discriminate.
  destruct (decide _); [apply native_put_same_schema|discriminate].
Qed.

Lemma cursor_delete_same_schema (s : object_store) (cur : record) :
  same_schema s (snd (cursor_delete s cur)).
Proof.
  unfold cursor_delete. simpl. split; [reflexivity|split; [reflexivity|]].
  apply (keyed_without s (record_key (keyPath s) cur)).
Qed.

(** ** Worlds a call may lead to *)

Lemma next_fault_version (w : world) : version (snd (next_fault w)) = version w.
Proof. unfold next_fault. destruct (faults w); reflexivity. Qed.

Lemma evolves_same (name : string) (w w' : world) :
  version w' = version w -> stores w' = stores w -> evolves name w w'.
Proof.
  intros Hv Hs. unfold evolves. rewrite Hs. split; [exact Hv|]. split; [reflexivity|].
  destruct (stores w !! name); [apply same_schema_refl|exact I].
Qed.

Lemma evolves_refl (name : string) (w : world) : evolves name w w.
Proof. by apply evolves_same. Qed.

Lemma evolves_trans (name : string) (w1 w2 w3 : world) :
  evolves name w1 w2 -> evolves name w2 w3 -> evolves name w1 w3.
Proof.
  intros (Hv1 & Ho1 & H1) (Hv2 & Ho2 & H2). split; [congruence|]. split.
  - intros n Hn. rewrite (Ho2 n Hn). by apply Ho1.
  - destruct (stores w1 !! name), (stores w2 !! name), (stores w3 !! name);
      try done. by eapply same_schema_trans.
Qed.

Lemma evolves_next_fault (name : string) (w : world) :
  evolves name w (snd (next_fault w)).
Proof. apply evolves_same; [apply next_fault_version|apply stores_next_fault]. Qed.

Lemma evolves_set_store (name : string) (s s' : object_store) (w : world) :
  stores w !! name = Some s -> same_schema s s' ->
  evolves name w (set_store name s' w).
Proof.
  intros Hs Hss. unfold evolves, set_store. simpl. split; [reflexivity|]. split.
  - intros n Hn. by rewrite lookup_insert_ne.
  - by rewrite Hs, lookup_insert_eq.
Qed.

Lemma getStore_Returns (self : DB) (name : string) (m : mode) (w w' : world)
    (s : object_store) :
  getStore self name m w = (Returns s, w') ->
  w' = w /\ connected self /\ stores w !! name = Some s.
Proof.
  unfold getStore, connected, throw.
  destruct (_dataBase self) as [|[|]]; try discriminate.
  destruct (stores w !! name); intros H; inversion H; auto.
Qed.

Lemma getStore_Throws (self : DB) (name : string) (m : mode) (w w' : world) (e : jsval) :
  getStore self name m w = (Throws e, w') -> w' = w.
Proof.
  intros H. pose proof (getStore_world self name m w) as Hw. rewrite H in Hw. exact Hw.
Qed.

Lemma issue_evolves (name : string) (s : object_store) (r : request_event * object_store)
    (w : world) :
  stores w !! name = Some s -> same_schema s (snd r) ->
  evolves name w (snd (issue name r w)).
Proof.
  intros Hs Hss. unfold issue.
  pose proof (evolves_next_fault name w) as Hn.
  pose proof (stores_next_fault w) as Hst.
  destruct (next_fault w) as [[|] w1]; simpl in *; [exact Hn|].
  destruct (fst r); simpl; [|exact Hn].
  eapply evolves_trans; [exact Hn|]. eapply evolves_set_store; [|exact Hss].
  by rewrite Hst.
Qed.

Lemma makeRequest_evolves (self : DB) (name : string) (m : mode) (a : store_action)
    (w : world) :
  evolves name w (snd (makeRequest self name m a w)).
Proof.
  unfold makeRequest, bind.
  destruct (getStore self name m w) as [[e|s] w0] eqn:E.
  - apply getStore_Throws in E as ->. apply evolves_refl.
  - apply getStore_Returns in E as (-> & _ & Hs).
    assert (H : evolves name w
                  (snd (match native s a with
                        | Throws e => throw e
                        | Returns r => issue name r
                        end w))).
    { destruct (native s a) as [e|[ev s']] eqn:En; [apply evolves_refl|].
      eapply issue_evolves; [exact Hs|]. simpl. by eapply native_same_schema. }
    destruct m, (writes a); try exact H; apply evolves_refl.
Qed.

Lemma makeIndexRequest_evolves (self : DB) (storeName name : string) (a : index_action)
    (w : world) :
  evolves storeName w (snd (makeIndexRequest self storeName name a w)).
Proof.
  unfold makeIndexRequest, bind.
  destruct (getStore self storeName readonly w) as [[e|s] w0] eqn:E.
  - apply getStore_Throws in E as ->. apply evolves_refl.
  - apply getStore_Returns in E as (-> & _ & Hs).
    destruct (List.find _ _) as [ix|]; [|apply evolves_refl].
    destruct (native_index s ix a) as [e|ev]; [apply evolves_refl|].
    eapply issue_evolves; [exact Hs|apply same_schema_refl].
Qed.

Lemma snd_bind_ret {A B : Type} (m : M A) (f : A -> B) (w : world) :
  snd (bind m (fun x => ret (f x)) w) = snd (m w).
Proof. unfold bind, ret. by destruct (m w) as [[e|a] w']. Qed.

Lemma snd_async (body : M promise) (w : world) : snd (async body w) = snd (body w).
Proof. unfold async. by destruct (body w) as [[e|p] w']. Qed.

Lemma update_evolves (self : DB) (storeName : string) (newValue : record) (w : world) :
  evolves storeName w (snd (update self storeName newValue w)).
Proof. unfold update. rewrite snd_bind_ret. apply makeRequest_evolves. Qed.

Lemma getAllKeys_evolves (self : DB) (storeName : string) (w : world) :
  evolves storeName w (snd (getAllKeys self storeName w)).
Proof. unfold getAllKeys. rewrite snd_bind_ret. apply makeRequest_evolves. Qed.

Lemma set_begin_evolves (self : DB) (storeName : string) (value : record) (w : world) :
  evolves storeName w (snd (set_begin self storeName value w)).
Proof.
  unfold set_begin, bind at 1.
  destruct (getStore self storeName readonly w) as [[e|s] w0] eqn:E.
  - apply getStore_Throws in E as ->. apply evolves_refl.
  - apply getStore_Returns in E as (-> & _ & Hs).
    unfold bind at 1, lift, call_hasOwnProperty.
    destruct (shadowed value); [apply evolves_refl|].
    destruct (hasOwnProperty value (keyPath s)); [|apply evolves_refl].
    pose proof (getAllKeys_evolves self storeName w) as H.
    unfold bind. destruct (getAllKeys self storeName w) as [[e|p] w1]; exact H.
Qed.

Lemma set_resume_evolves (self : DB) (storeName : string) (value : record)
    (key : string) (keys : promise) (w : world) :
  evolves storeName w (snd (await keys (set_resume self storeName value key) w)).
Proof.
  destruct keys as [|v|e]; simpl; try apply evolves_refl.
  unfold set_resume. destruct v; try apply evolves_refl.
  destruct (indexOf_found _ _); [apply update_evolves|].
  rewrite snd_bind_ret. apply makeRequest_evolves.
Qed.

Lemma set_evolves (self : DB) (storeName : string) (value : record) (w : world) :
  evolves storeName w (snd (set self storeName value w)).
Proof.
  unfold set. rewrite snd_async. unfold bind.
  pose proof (set_begin_evolves self storeName value w) as H1.
  destruct (set_begin self storeName value w) as [[e|[p|key keys]] w1]; simpl in *;
    try exact H1.
  eapply evolves_trans; [exact H1|apply set_resume_evolves].
Qed.

Lemma setBatch_calls_evolves (self : DB) (storeName : string) (items : list record)
    (w : world) :
  evolves storeName w (snd (setBatch_calls self storeName items w)).
Proof.
  revert w. induction items as [|item rest IH]; intros w; simpl; [apply evolves_refl|].
  pose proof (set_begin_evolves self storeName item w) as H1.
  destruct (set_begin self storeName item w) as [c w1]. specialize (IH w1).
  destruct (setBatch_calls self storeName rest w1) as [calls w2]. simpl in *.
  by eapply evolves_trans.
Qed.

Lemma setBatch_resume_evolves (self : DB) (storeName : string) (calls : list set_call)
    (w : world) :
  evolves storeName w (snd (setBatch_resume self storeName calls w)).
Proof.
  revert w. induction calls as [|[p|item key keys] rest IH]; intros w; simpl.
  - apply evolves_refl.
  - specialize (IH w). by destruct (setBatch_resume self storeName rest w).
  - pose proof (set_resume_evolves self storeName item key keys w) as H1.
    destruct (await keys _ w) as [c w1]. specialize (IH w1).
    destruct (setBatch_resume self storeName rest w1) as [ps w2]. simpl in *.
    by eapply evolves_trans.
Qed.

Lemma setBatch_evolves (self : DB) (storeName : string) (items : list record)
    (w : world) :
  evolves storeName w (snd (setBatch self storeName items w)).
Proof.
  unfold setBatch. rewrite snd_async.
  pose proof (setBatch_calls_evolves self storeName items w) as H1.
  destruct (setBatch_calls self storeName items w) as [calls w1].
  pose proof (setBatch_resume_evolves self storeName calls w1) as H2.
  destruct (setBatch_resume self storeName calls w1) as [setList w2]. simpl in *.
  assert (H : evolves storeName w w2) by (by eapply evolves_trans).
  destruct (Promise_all setList); exact H.
Qed.

Lemma updateByCursor_loop_schema (attrName : string) (attr : jsval) (newVal : record)
    (rest : list record) (s : object_store) (cell : option promise) (w : world) :
  version (snd (updateByCursor_loop attrName attr newVal rest s cell w)) = version w /\
  forall s', snd (fst (updateByCursor_loop attrName attr newVal rest s cell w)) = Some s' ->
             same_schema s s'.
Proof.
  revert s cell w. induction rest as [|cur rest IH]; intros s cell w;
    cbn [updateByCursor_loop];
    pose proof (next_fault_version w) as H1;
    destruct (next_fault w) as [[|] w1]; simpl in H1; simpl;
    try (split; [exact H1|]; intros s' H; inversion H; apply same_schema_refl).
  destruct (matches attrName attr cur) as [e0|[|]];
    [split; [exact H1|discriminate]|
    |destruct (IH s cell w1) as [Hv Hs]; split; [congruence|exact Hs]].
  destruct (strict_equal _ _);
    [|destruct (IH s (resolve cell (Resolved indexErrorCode.primaryKey)) w1) as [Hv Hs];
      split; [congruence|exact Hs]].
  destruct (cursor_update s cur newVal) as [e|[ev s1]] eqn:Hu;
    [split; [exact H1|discriminate]|].
  pose proof (next_fault_version w1) as H2.
  destruct (next_fault w1) as [[|] w2]; simpl in H2;
    [split; [simpl; congruence|discriminate]|].
  destruct ev; [|split; [simpl; congruence|discriminate]].
  match goal with |- context [updateByCursor_loop _ _ _ rest s1 ?c w2] =>
    destruct (IH s1 c w2) as [Hv Hs] end.
  split; [congruence|]. intros s' H. eapply same_schema_trans; [|by apply Hs].
  by eapply cursor_update_same_schema.
Qed.

Lemma deleteByCursor_loop_schema (attrName : string) (attr : jsval)
    (rest : list record) (s : object_store) (cell : option promise) (w : world) :
  version (snd (deleteByCursor_loop attrName attr rest s cell w)) = version w /\
  stores (snd (deleteByCursor_loop attrName attr rest s cell w)) = stores w /\
  forall s', snd (fst (deleteByCursor_loop attrName attr rest s cell w)) = Some s' ->
             same_schema s s'.
Proof.
  revert s cell w. induction rest as [|cur rest IH]; intros s cell w;
    cbn [deleteByCursor_loop];
    pose proof (next_fault_version w) as H1;
    pose proof (stores_next_fault w) as S1;
    destruct (next_fault w) as [[|] w1]; cbn [fst snd] in *;
    try (split; [exact H1|split; [exact S1|]];
         intros s' H; inversion H; apply same_schema_refl).
  destruct (matches attrName attr cur) as [e0|[|]].
  1: { split; [exact H1|split; [exact S1|discriminate]]. }
  2: { destruct (IH s cell w1) as (Hv & Hst & Hs).
       split; [by rewrite Hv|split; [by rewrite Hst|exact Hs]]. }
  pose proof (cursor_delete_same_schema s cur) as Hd.
  destruct (cursor_delete s cur) as [ev s1]. cbn [fst snd] in *.
  pose proof (next_fault_version w1) as H2.
  pose proof (stores_next_fault w1) as S2.
  destruct (next_fault w1) as [[|] w2]; cbn [fst snd] in *.
  { simpl. split; [by rewrite H2|split; [by rewrite S2|discriminate]]. }
  destruct ev; simpl.
  2: { split; [by rewrite H2|split; [by rewrite S2|discriminate]]. }
  match goal with |- context [deleteByCursor_loop _ _ rest s1 ?c w2] =>
    destruct (IH s1 c w2) as (Hv & Hst & Hs) end.
  split; [by rewrite Hv, H2|]. split; [by rewrite Hst, S2|].
  intros s' H. eapply same_schema_trans; [exact Hd|by apply Hs].
Qed.

Lemma getAllByCursor_loop_world (rest : list record) (values : list jsval) (w : world) :
  version (snd (getAllByCursor_loop rest values w)) = version w /\
  stores (snd (getAllByCursor_loop rest values w)) = stores w.
Proof.
  revert values w. induction rest as [|r rest IH]; intros values w;
    cbn [getAllByCursor_loop];
    pose proof (next_fault_version w) as H1;
    pose proof (stores_next_fault w) as S1;
    destruct (next_fault w) as [[|] w1]; simpl in H1, S1; simpl; try (split; assumption).
  destruct (IH (values ++ [VObj r])%list w1) as [Hv Hs].
  split; [by rewrite Hv|by rewrite Hs].
Qed.

Lemma commit_evolves (storeName : string) (s : object_store) (w : world)
    (r : promise * option object_store * world) :
  stores w !! storeName = Some s ->
  version (snd r) = version w -> stores (snd r) = stores w ->
  (forall s', snd (fst r) = Some s' -> same_schema s s') ->
  evolves storeName w (snd (commit storeName r)).
Proof.
  intros Hs Hv Hst Hss. destruct r as [[p [s'|]] w']; simpl in *.
  - eapply evolves_trans; [by apply evolves_same|].
    eapply evolves_set_store; [by rewrite Hst|by apply Hss].
  - by apply evolves_same.
Qed.

(** Every call leads to a world that [evolves] from the one it started in. *)
Lemma method_evolves (self : DB) (m : method) (w : world) :
  evolves (method_store m) w (snd (method_call self m w)).
Proof.
  destruct m as [c| | | | | | | |]; simpl.
  - destruct c; simpl;
      unfold get, getAll, getAllKeys, getByIndex, getCountByIndex, getAllByIndex,
        getAllKeysByIndex, getKeyByIndex;
      rewrite snd_bind_ret;
      first [apply makeRequest_evolves | apply makeIndexRequest_evolves].
  - apply set_evolves.
  - apply setBatch_evolves.
  - apply update_evolves.
  - unfold remove. rewrite snd_bind_ret. apply makeRequest_evolves.
  - unfold removeAll. rewrite snd_bind_ret. apply makeRequest_evolves.
  - unfold getAllByCursor, bind.
    destruct (getStore self storeName readonly w) as [[e|s] w0] eqn:E.
    + apply getStore_Throws in E as ->. apply evolves_refl.
    + apply getStore_Returns in E as (-> & _ & Hs).
      destruct (getAllByCursor_loop_world (records s) [] w) as [Hv Hst].
      destruct (getAllByCursor_loop (records s) [] w) as [p w1]. by apply evolves_same.
  - unfold updateByCursor, bind.
    destruct (getStore self storeName readwrite w) as [[e|s] w0] eqn:E.
    + apply getStore_Throws in E as ->. apply evolves_refl.
    + apply getStore_Returns in E as (-> & _ & Hs).
      destruct (updateByCursor_loop_schema attrName attr newVal (records s) s None w)
        as [Hv Hss].
      eapply commit_evolves; eauto. apply updateByCursor_loop_stores.
  - unfold deleteByCursor, bind.
    destruct (getStore self storeName readwrite w) as [[e|s] w0] eqn:E.
    + apply getStore_Throws in E as ->. apply evolves_refl.
    + apply getStore_Returns in E as (-> & _ & Hs).
      destruct (deleteByCursor_loop_schema attrName attr (records s) s None w)
        as (Hv & Hst & Hss).
      eapply commit_evolves; eauto.
Qed.

(** X1: no call of the two classes changes the schema.  The version of the
    database and every store other than the one the call names are as
    before; no store appears or disappears; and the store the call names
    keeps its key path and its indexes. *)
Theorem calls_keep_the_schema (self : DB) (m : method) (w : world) :
  version (snd (method_call self m w)) = version w /\
  (forall name, name <> method_store m ->
                stores (snd (method_call self m w)) !! name = stores w !! name) /\
  (forall name, is_Some (stores (snd (method_call self m w)) !! name)
                <-> is_Some (stores w !! name)) /\
  (forall s s', stores w !! method_store m = Some s ->
                stores (snd (method_call self m w)) !! method_store m = Some s' ->
                keyPath s' = keyPath s /\ indexes s' = indexes s).
Proof.
  destruct (method_evolves self m w) as (Hv & Ho & Hn).
  split; [exact Hv|]. split; [exact Ho|]. split.
  - intros name. destruct (decide (name = method_store m)) as [->|Hne].
    + destruct (stores w !! method_store m),
               (stores (snd (method_call self m w)) !! method_store m);
        try done; split; intros _; eauto.
    + by rewrite (Ho name Hne).
  - intros s s' Hs Hs'. rewrite Hs, Hs' in Hn. destruct Hn as (? & ? & _). auto.
Qed.

(** X2: the stores stay keyed.  If in every store every record has a valid
    key and no two records share a key, the same holds after any call,
    whatever the call settles with. *)
Theorem calls_keep_stores_keyed (self : DB) (m : method) (w : world) :
  (forall name s, stores w !! name = Some s -> keyed s) ->
  forall name s', stores (snd (method_call self m w)) !! name = Some s' -> keyed s'.
Proof.
  intros Hk name s' Hs'. destruct (method_evolves self m w) as (_ & Ho & Hn).
  destruct (decide (name = method_store m)) as [->|Hne].
  - rewrite Hs' in Hn. destruct (stores w !! method_store m) as [s|] eqn:Hs; [|done].
    destruct Hn as (_ & _ & Hkeyed). apply Hkeyed. by eapply Hk.
  - rewrite (Ho name Hne) in Hs'. by eapply Hk.
Qed.

(** ** What a request leaves behind *)

Lemma next_fault_skip (w : world) : snd (next_fault w) = skip 1 w.
Proof.
  unfold next_fault, skip. destruct w as [v st [|f fl]]; simpl; [reflexivity|].
  by rewrite drop_0.
Qed.

(** The three ways a request can go: the call throws before a request
    exists; the request errors and the stores are as before; the request
    succeeds with what the engine computed. *)
Lemma makeRequest_inv (self : DB) (name : string) (m : mode) (a : store_action)
    (w w' : world) (c : completion request_event) :
  makeRequest self name m a w = (c, w') ->
  (exists e, c = Throws e /\ w' = w) \/
  (c = Returns OnError /\ w' = skip 1 w) \/
  (exists res s s', c = Returns (OnSuccess res) /\ connected self /\
                    stores w !! name = Some s /\
                    native s a = Returns (OnSuccess res, s') /\
                    fst (next_fault w) = false /\
                    w' = set_store name s' (skip 1 w)).
Proof.
  unfold makeRequest, bind.
  destruct (getStore self name m w) as [[e|s] w0] eqn:E.
  - apply getStore_Throws in E as ->. intros H; inversion H; eauto.
  - apply getStore_Returns in E as (-> & Hc & Hs).
    assert (H : match native s a with
                | Throws e => throw e
                | Returns r => issue name r
                end w = (c, w') ->
                (exists e, c = Throws e /\ w' = w) \/
                (c = Returns OnError /\ w' = skip 1 w) \/
                (exists res s0 s', c = Returns (OnSuccess res) /\ connected self /\
                                   stores w !! name = Some s0 /\
                                   native s0 a = Returns (OnSuccess res, s') /\
                                   fst (next_fault w) = false /\
                                   w' = set_store name s' (skip 1 w))).
    { destruct (native s a) as [e|[ev s']] eqn:En.
      - intros H; inversion H; eauto.
      - unfold issue. rewrite <- next_fault_skip.
        destruct (next_fault w) as [[|] w1] eqn:Ef; simpl.
        + intros H; inversion H; auto.
        + destruct ev as [res|]; intros H; inversion H; subst; [|auto].
          right. right. exists res, s, s'. rewrite En. auto 10. }
    destruct m, (writes a); try exact H. intros H'; inversion H'; eauto.
Qed.

Lemma makeRequest_reads (self : DB) (name : string) (m : mode) (a : store_action)
    (w : world) :
  writes a = false -> stores (snd (makeRequest self name m a w)) = stores w.
Proof.
  intros Hw. destruct (makeRequest self name m a w) as [c w'] eqn:E.
  apply makeRequest_inv in E as [(e & -> & ->)|[[-> ->]|(res & s & s' & -> & _ & Hs & Hn & _ & ->)]];
    simpl; try reflexivity.
  assert (s' = s) as ->.
  { destruct a; try discriminate; simpl in Hn.
    - unfold native_get in Hn. destruct (to_key k); inversion Hn; reflexivity.
    - inversion Hn; reflexivity.
    - inversion Hn; reflexivity. }
  by apply insert_id.
Qed.

Lemma makeIndexRequest_reads (self : DB) (storeName name : string) (a : index_action)
    (w : world) :
  stores (snd (makeIndexRequest self storeName name a w)) = stores w.
Proof.
  unfold makeIndexRequest, bind.
  destruct (getStore self storeName readonly w) as [[e|s] w0] eqn:E.
  - by apply getStore_Throws in E as ->.
  - apply getStore_Returns in E as (-> & _ & Hs).
    destruct (List.find _ _) as [ix|]; [|reflexivity].
    destruct (native_index s ix a) as [e|ev]; [reflexivity|].
    unfold issue. pose proof (stores_next_fault w) as Hst.
    destruct (next_fault w) as [[|] w1]; simpl in *; [exact Hst|].
    destruct ev; simpl; [|exact Hst]. rewrite <- Hst. apply insert_id. by rewrite Hst.
Qed.

(** X3: the calls that fetch data write nothing: after [get], [getAll],
    [getAllKeys], any of the five index getters or [getAllByCursor], the
    stores are what they were, whether the call threw, failed or
    succeeded. *)
Theorem fetches_write_nothing (self : DB) (w : world) :
  (forall c, stores (snd (fetch_call self c w)) = stores w) /\
  (forall storeName, stores (snd (getAllByCursor self storeName w)) = stores w).
Proof.
  split.
  - intros c. destruct c; simpl;
      unfold get, getAll, getAllKeys, getByIndex, getCountByIndex, getAllByIndex,
        getAllKeysByIndex, getKeyByIndex;
      rewrite snd_bind_ret;
      first [by apply makeRequest_reads | apply makeIndexRequest_reads].
  - intros storeName. unfold getAllByCursor, bind.
    destruct (getStore self storeName readonly w) as [[e|s] w0] eqn:E.
    + by apply getStore_Throws in E as ->.
    + apply getStore_Returns in E as (-> & _ & Hs).
      destruct (getAllByCursor_loop_world (records s) [] w) as [_ Hst].
      by destruct (getAllByCursor_loop (records s) [] w).
Qed.

(** ** Calls without a connection *)

Lemma getStore_no_connection (self : DB) (name : string) (m : mode) (w : world)
    (e : jsval) :
  handle_error (_dataBase self) = Some e -> getStore self name m w = (Throws e, w).
Proof.
  unfold getStore, handle_error, throw.
  destruct (_dataBase self) as [|[|]]; intros H; inversion H; reflexivity.
Qed.

Lemma makeRequest_no_connection (self : DB) (name : string) (m : mode)
    (a : store_action) (w : world) (e : jsval) :
  handle_error (_dataBase self) = Some e -> makeRequest self name m a w = (Throws e, w).
Proof.
  intros H. unfold makeRequest, bind. by rewrite (getStore_no_connection _ _ _ _ _ H).
Qed.

Lemma set_begin_no_connection (self : DB) (name : string) (value : record) (w : world)
    (e : jsval) :
  handle_error (_dataBase self) = Some e -> set_begin self name value w = (Throws e, w).
Proof.
  intros H. unfold set_begin, bind. by rewrite (getStore_no_connection _ _ _ _ _ H).
Qed.

Lemma setBatch_calls_no_connection (self : DB) (name : string) (items : list record)
    (w : world) (e : jsval) :
  handle_error (_dataBase self) = Some e ->
  setBatch_calls self name items w
  = (map (fun _ => Settled {| step := 0; fate := Rejected e |}) items, w).
Proof.
  intros H. induction items as [|item rest IH]; simpl; [reflexivity|].
  by rewrite (set_begin_no_connection _ _ _ _ _ H), IH.
Qed.

Lemma setBatch_resume_settled (self : DB) (name : string) (p : settled)
    (items : list record) (w : world) :
  setBatch_resume self name (map (fun _ => Settled p) items) w
  = (map (fun _ => p) items, w).
Proof. induction items as [|item rest IH]; simpl; [reflexivity|]. by rewrite IH. Qed.

Lemma foldl_earlier_first (e : jsval) (items : list record) :
  foldl earlier (Some (0%nat, e))
    (map (fun _ => {| step := 0; fate := Rejected e |}) items)
  = Some (0%nat, e).
Proof. induction items as [|item rest IH]; simpl; [reflexivity|exact IH]. Qed.

(** A call on an instance whose handle is not an open connection. *)
Lemma method_call_no_connection (self : DB) (m : method) (w : world) (e : jsval) :
  handle_error (_dataBase self) = Some e ->
  method_call self m w = (no_connection_outcome e m, w).
Proof.
  intros H. destruct m as [c| |storeName items| | | | | |]; simpl.
  - destruct c; simpl;
      unfold get, getAll, getAllKeys, getByIndex, getCountByIndex, getAllByIndex,
        getAllKeysByIndex, getKeyByIndex, makeIndexRequest, bind;
      rewrite ?(makeRequest_no_connection _ _ _ _ _ _ H),
        ?(getStore_no_connection _ _ _ _ _ H); reflexivity.
  - unfold set, async, bind. by rewrite (set_begin_no_connection _ _ _ _ _ H).
  - unfold setBatch, async.
    rewrite (setBatch_calls_no_connection _ _ _ _ _ H), setBatch_resume_settled.
    destruct items as [|item rest]; [reflexivity|].
    unfold Promise_all. cbn [map foldl]. unfold earlier at 2. cbn [fate step].
    by rewrite foldl_earlier_first.
  - unfold update, bind. by rewrite (makeRequest_no_connection _ _ _ _ _ _ H).
  - unfold remove, bind. by rewrite (makeRequest_no_connection _ _ _ _ _ _ H).
  - unfold removeAll, bind. by rewrite (makeRequest_no_connection _ _ _ _ _ _ H).
  - unfold getAllByCursor, bind. by rewrite (getStore_no_connection _ _ _ _ _ H).
  - unfold updateByCursor, bind. by rewrite (getStore_no_connection _ _ _ _ _ H).
  - unfold deleteByCursor, bind. by rewrite (getStore_no_connection _ _ _ _ _ H).
Qed.

(** X4: calls before [open] and after [close].  On a freshly constructed
    instance [this._dataBase] is the empty object, and starting a
    transaction is a [TypeError]; on an instance that was closed it is an
    [InvalidStateError].  Every call but [set] and [setBatch] throws this
    error at the caller; [set], being [async], returns a promise rejected
    with it, and so does [setBatch] on a list that is not empty, while on
    the empty list it resolves with [setBatchSuccess].  The world is
    untouched.  [close] itself throws on an instance that never opened. *)
Theorem calls_before_open_and_after_close (win : window) (dataBaseName : string)
    (storeList : list store_decl) (m : method) (w : world) :
  method_call (constructor win dataBaseName storeList) m w
  = (no_connection_outcome TypeError m, w) /\
  close (constructor win dataBaseName storeList) = Throws TypeError /\
  (forall self self', close self = Returns self' ->
     method_call self' m w = (no_connection_outcome InvalidStateError m, w)).
Proof.
  split; [by apply method_call_no_connection|]. split; [reflexivity|].
  intros self self' Hclose. apply method_call_no_connection.
  unfold close in Hclose. destruct (_dataBase self); inversion Hclose. reflexivity.
Qed.

(** ** Calls that fail *)

Lemma status_call_failed (self : DB) (name : string) (a : store_action)
    (success error : jsval) (w w' : world) (c : completion promise) :
  bind (makeRequest self name readwrite a)
    (fun req => ret (promisify req success error)) w = (c, w') ->
  failed c -> stores w' = stores w.
Proof.
  unfold bind, ret.
  destruct (makeRequest self name readwrite a w) as [c0 w0] eqn:E.
  apply makeRequest_inv in E
    as [(e & -> & ->)|[[-> ->]|(res & s & s' & -> & _ & _ & _ & _ & ->)]];
    intros H; inversion H; subst; simpl; intros Hf; try reflexivity. destruct Hf.
Qed.

Lemma set_failed (self : DB) (name : string) (value : record) (w w' : world)
    (c : completion promise) :
  set self name value w = (c, w') -> failed c -> stores w' = stores w.
Proof.
  unfold set, async, bind at 1, set_begin, bind at 1.
  destruct (getStore self name readonly w) as [[e|s] w0] eqn:E.
  { apply getStore_Throws in E as ->. intros H; inversion H; reflexivity. }
  apply getStore_Returns in E as (-> & _ & Hs).
  unfold bind at 1, lift, call_hasOwnProperty.
  destruct (shadowed value); [intros H; inversion H; reflexivity|].
  destruct (hasOwnProperty value (keyPath s)); [|intros H; inversion H; reflexivity].
  unfold bind at 1, getAllKeys, bind at 1.
  pose proof (makeRequest_reads self name readonly GetAllKeys w eq_refl) as Hr.
  destruct (makeRequest self name readonly GetAllKeys w) as [[e|ev] w1]; simpl in Hr.
  { intros H; inversion H; subst. by intros _. }
  destruct ev as [v|]; cbv beta iota delta [ret await promisifyRes set_resume].
  - destruct v; try (unfold throw; intros H; inversion H; subst; by intros _).
    destruct (indexOf_found _ _).
    + intros H Hf.
      destruct (update self name value w1) as [c1 w2] eqn:E1.
      assert (Hc : failed c1) by (destruct c1; inversion H; subst; [exact I|exact Hf]).
      rewrite <- Hr.
      replace w' with w2 by (destruct c1; inversion H; reflexivity).
      unfold update in E1. by eapply status_call_failed.
    + intros H Hf.
      destruct (bind _ _ w1) as [c1 w2] eqn:E1.
      assert (Hc : failed c1) by (destruct c1; inversion H; subst; [exact I|exact Hf]).
      rewrite <- Hr.
      replace w' with w2 by (destruct c1; inversion H; reflexivity).
      eapply (status_call_failed self name (Add value)); [exact E1|exact Hc].
  - unfold throw. intros H; inversion H; subst. by intros _.
Qed.

Lemma updateByCursor_loop_rejected (attrName : string) (attr : jsval) (newVal : record)
    (rest : list record) (s : object_store) (cell : option promise) (w : world)
    (e : jsval) :
  (forall e', cell <> Some (Rejected e')) ->
  fst (fst (updateByCursor_loop attrName attr newVal rest s cell w)) = Rejected e ->
  snd (fst (updateByCursor_loop attrName attr newVal rest s cell w)) = None.
Proof.
  revert s cell w. induction rest as [|cur rest IH]; intros s cell w Hcell;
    cbn [updateByCursor_loop]; destruct (next_fault w) as [[|] w1]; cbn [fst snd];
    try (destruct cell as [[| |e']|]; cbn [settle]; try discriminate;
         intros _; exfalso; by eapply Hcell).
  destruct (matches attrName attr cur) as [e0|[|]]; [reflexivity| |by apply IH].
  destruct (strict_equal _ _).
  - destruct (cursor_update s cur newVal) as [e'|[ev s1]]; [reflexivity|].
    destruct (next_fault w1) as [[|] w2]; [reflexivity|].
    destruct ev; [|reflexivity]. apply IH.
    intros e'. destruct cell as [p|]; simpl; [apply Hcell|discriminate].
  - apply IH. intros e'. destruct cell as [p|]; simpl; [apply Hcell|discriminate].
Qed.

Lemma deleteByCursor_loop_rejected (attrName : string) (attr : jsval)
    (rest : list record) (s : object_store) (cell : option promise) (w : world)
    (e : jsval) :
  (forall e', cell <> Some (Rejected e')) ->
  fst (fst (deleteByCursor_loop attrName attr rest s cell w)) = Rejected e ->
  snd (fst (deleteByCursor_loop attrName attr rest s cell w)) = None.
Proof.
  revert s cell w. induction rest as [|cur rest IH]; intros s cell w Hcell;
    cbn [deleteByCursor_loop]; destruct (next_fault w) as [[|] w1]; cbn [fst snd];
    try (destruct cell as [[| |e']|]; cbn [settle]; try discriminate;
         intros _; exfalso; by eapply Hcell).
  destruct (matches attrName attr cur) as [e0|[|]]; [reflexivity| |by apply IH].
  destruct (cursor_delete s cur) as [ev s1].
  destruct (next_fault w1) as [[|] w2]; [reflexivity|].
  destruct ev; [|reflexivity]. apply IH.
  intros e'. destruct cell as [p|]; simpl; [apply Hcell|discriminate].
Qed.

Lemma commit_rejected (name : string) (r : promise * option object_store * world)
    (w : world) :
  stores (snd r) = stores w ->
  (forall e, fst (fst r) = Rejected e -> snd (fst r) = None) ->
  failed (fst (commit name r)) -> stores (snd (commit name r)) = stores w.
Proof.
  destruct r as [[p [s'|]] w']; simpl; intros Hst Hr Hf; [|exact Hst].
  destruct p; try destruct Hf. by specialize (Hr _ eq_refl).
Qed.

(** X5: a call that fails has written nothing.  For every call other than
    [setBatch]: when the call throws, or returns a promise that is
    rejected, the stores are what they were before the call. *)
Theorem failed_call_writes_nothing (self : DB) (m : method) (w : world) :
  single m = true ->
  failed (fst (method_call self m w)) ->
  stores (snd (method_call self m w)) = stores w.
Proof.
  intros Hm Hf. destruct m as [c|storeName value| |storeName v|storeName k|storeName
                               |storeName|storeName attrName attr newVal
                               |storeName attrName attr]; simpl in *.
  - apply fetches_write_nothing.
  - destruct (set self storeName value w) as [c w'] eqn:E. by eapply set_failed.
  - discriminate.
  - unfold update in *. destruct (bind _ _ w) as [c w'] eqn:E.
    by eapply status_call_failed.
  - unfold remove in *. destruct (bind _ _ w) as [c w'] eqn:E.
    by eapply status_call_failed.
  - unfold removeAll in *. destruct (bind _ _ w) as [c w'] eqn:E.
    by eapply status_call_failed.
  - apply fetches_write_nothing.
  - unfold updateByCursor, bind in *.
    destruct (getStore self storeName readwrite w) as [[e|s] w0] eqn:E.
    + by apply getStore_Throws in E as ->.
    + apply getStore_Returns in E as (-> & _ & Hs).
      apply commit_rejected; [apply updateByCursor_loop_stores| |exact Hf].
      intros e. by apply updateByCursor_loop_rejected.
  - unfold deleteByCursor, bind in *.
    destruct (getStore self storeName readwrite w) as [[e|s] w0] eqn:E.
    + by apply getStore_Throws in E as ->.
    + apply getStore_Returns in E as (-> & _ & Hs).
      apply commit_rejected; [apply deleteByCursor_loop_schema| |exact Hf].
      intros e. by apply deleteByCursor_loop_rejected.
Qed.

(** ** Writing and reading back *)

Lemma quiet_1 (w : world) : quiet 1 w = true -> fst (next_fault w) = false.
Proof. intros H. destruct (quiet_S 0 w H) as [E _]. rewrite E. reflexivity. Qed.

Lemma quiet_2 (w : world) :
  quiet 2 w = true -> fst (next_fault w) = false /\ fst (next_fault (skip 1 w)) = false.
Proof.
  intros H. destruct (quiet_S 1 w H) as [E H']. rewrite E. split; [reflexivity|].
  by apply quiet_1.
Qed.

Lemma next_fault_set_store (name : string) (s : object_store) (w : world) :
  next_fault (set_store name s w)
  = (fst (next_fault w), set_store name s (snd (next_fault w))).
Proof. destruct w as [v st [|f fl]]; reflexivity. Qed.

Lemma find_filter_other (path : string) (k k' : idbkey) (l : list record) :
  k' <> k ->
  List.find (has_key path k') (List.filter (fun r => negb (has_key path k r)) l)
  = List.find (has_key path k') l.
Proof.
  intros Hne. induction l as [|r l IH]; simpl; [reflexivity|].
  destruct (has_key path k r) eqn:E; simpl.
  - apply bool_decide_eq_true_1 in E.
    assert (has_key path k' r = false) as ->
      by (apply bool_decide_eq_false_2; congruence).
    exact IH.
  - by rewrite IH.
Qed.

Lemma find_filter_same (path : string) (k : idbkey) (l : list record) :
  List.find (has_key path k) (List.filter (fun r => negb (has_key path k r)) l) = None.
Proof.
  induction l as [|r l IH]; simpl; [reflexivity|].
  destruct (has_key path k r) eqn:E; simpl; [exact IH|by rewrite E].
Qed.

(** A fetch through [makeRequest] in a world where the request succeeds. *)
Lemma get_quiet (self : DB) (name : string) (s : object_store) (q : jsval) (k : idbkey)
    (w : world) :
  connected self -> stores w !! name = Some s -> to_key q = Some k ->
  fst (next_fault w) = false ->
  fst (get self name q w)
  = Returns (Resolved (match store_lookup s k with
                       | Some r => VObj r
                       | None => VUndefined
                       end)).
Proof.
  intros Hc Hs Hq Hf. unfold get, bind, makeRequest, bind.
  rewrite (getStore_connected _ _ _ _ _ Hc Hs). simpl. unfold native_get. rewrite Hq.
  unfold issue. by rewrite (next_fault_quiet _ Hf).
Qed.

(** X6: [remove] and [get].  When the key is valid and the requests do not
    fail, [remove] resolves with [removeSuccess] whether or not the store
    held a record under the key; afterwards [get] with that key resolves
    with [undefined], and the records under the other keys are the ones
    the store had. *)
Theorem remove_then_get (self : DB) (storeName : string) (s : object_store)
    (q : jsval) (k : idbkey) (w : world) :
  connected self ->
  stores w !! storeName = Some s ->
  to_key q = Some k ->
  quiet 2 w = true ->
  fst (remove self storeName q w) = Returns (Resolved errorCode.removeSuccess) /\
  fst (get self storeName q (snd (remove self storeName q w)))
  = Returns (Resolved VUndefined) /\
  exists s', stores (snd (remove self storeName q w)) !! storeName = Some s' /\
             forall k', k' <> k -> store_lookup s' k' = store_lookup s k'.
Proof.
  intros Hc Hs Hq Hquiet. destruct (quiet_2 _ Hquiet) as [Hf1 Hf2].
  assert (E : remove self storeName q w
              = (Returns (Resolved errorCode.removeSuccess),
                 set_store storeName
                   (with_records s
                      (List.filter (fun r => negb (has_key (keyPath s) k r)) (records s)))
                   (skip 1 w))).
  { unfold remove, bind, makeRequest, bind.
    rewrite (getStore_connected _ _ _ _ _ Hc Hs). simpl. unfold native_delete.
    rewrite Hq. unfold issue. rewrite (next_fault_quiet _ Hf1), next_fault_skip.
    reflexivity. }
  rewrite E. cbn [fst snd]. split; [reflexivity|]. split.
  - rewrite (get_quiet self storeName _ q k _ Hc (stores_set_store _ _ _) Hq).
    + unfold store_lookup. simpl. by rewrite find_filter_same.
    + by rewrite next_fault_set_store.
  - eexists. split; [apply stores_set_store|]. intros k' Hne.
    unfold store_lookup. simpl. by apply find_filter_other.
Qed.

(** X7: [removeAll] and the three ways to read a whole store.  When the
    requests do not fail, [removeAll] resolves with [removeAllSuccess],
    and afterwards [getAll], [getAllKeys] and [getAllByCursor] each
    resolve with the empty array. *)
Theorem removeAll_then_read (self : DB) (storeName : string) (s : object_store)
    (w : world) :
  connected self ->
  stores w !! storeName = Some s ->
  quiet 2 w = true ->
  fst (removeAll self storeName w) = Returns (Resolved errorCode.removeAllSuccess) /\
  fst (getAll self storeName (snd (removeAll self storeName w)))
  = Returns (Resolved (VArr [])) /\
  fst (getAllKeys self storeName (snd (removeAll self storeName w)))
  = Returns (Resolved (VArr [])) /\
  fst (getAllByCursor self storeName (snd (removeAll self storeName w)))
  = Returns (Resolved (VArr [])).
Proof.
  intros Hc Hs Hquiet. destruct (quiet_2 _ Hquiet) as [Hf1 Hf2].
  assert (E : removeAll self storeName w
              = (Returns (Resolved errorCode.removeAllSuccess),
                 set_store storeName (with_records s []) (skip 1 w))).
  { unfold removeAll, bind, makeRequest, bind.
    rewrite (getStore_connected _ _ _ _ _ Hc Hs). simpl.
    unfold issue. rewrite (next_fault_quiet _ Hf1), next_fault_skip. reflexivity. }
  rewrite E. cbn [fst snd]. split; [reflexivity|].
  set (w1 := set_store storeName (with_records s []) (skip 1 w)).
  assert (Hs1 : stores w1 !! storeName = Some (with_records s []))
    by apply stores_set_store.
  assert (Hn1 : next_fault w1 = (false, snd (next_fault w1))).
  { apply next_fault_quiet. unfold w1. by rewrite next_fault_set_store. }
  split; [|split].
  - unfold getAll, bind, makeRequest, bind.
    rewrite (getStore_connected _ _ _ _ _ Hc Hs1). simpl.
    unfold issue. by rewrite Hn1.
  - unfold getAllKeys, bind, makeRequest, bind.
    rewrite (getStore_connected _ _ _ _ _ Hc Hs1). simpl.
    unfold issue. by rewrite Hn1.
  - unfold getAllByCursor, bind.
    rewrite (getStore_connected _ _ _ _ _ Hc Hs1). simpl. by rewrite Hn1.
Qed.

Lemma native_put_lookup (s s' : object_store) (v : record) (res : jsval) :
  native_put s v = Returns (OnSuccess res, s') ->
  exists k, record_key (keyPath s) v = Some k /\ keyPath s' = keyPath s /\
            store_lookup s' k = Some v.
Proof.
  unfold native_put. destruct (record_key (keyPath s) v) as [k|] eqn:Hk; [|discriminate].
  destruct (violates_unique s k v); [discriminate|].
  destruct (existsb _ _) eqn:Hex; intros H; inversion H; subst;
    exists k; (split; [reflexivity|split; [reflexivity|]]); unfold store_lookup; simpl.
  - by apply find_replace_record.
  - by apply find_insert_sorted.
Qed.

(** X8: [update] and [get].  [update] is an upsert: after an [update] that
    resolved with [updateSuccess], whether it overwrote a record or added
    one, [get] with the key of the record, when its request succeeds,
    resolves with that record; the records under the other keys are the
    ones the store had.  The key is the one the engine reads at the key
    path; when the key path names one field, it is the value of the
    record's property of that name. *)
Theorem update_then_get (self : DB) (storeName : string) (s : object_store)
    (newValue : record) (w w' : world) :
  stores w !! storeName = Some s ->
  update self storeName newValue w = (Returns (Resolved errorCode.updateSuccess), w') ->
  fst (next_fault w') = false ->
  exists k s',
    record_key (keyPath s) newValue = Some k /\
    fst (get self storeName (key_to_value k) w') = Returns (Resolved (VObj newValue)) /\
    (one_field (keyPath s) = true ->
     fst (get self storeName (get_prop newValue (keyPath s)) w')
     = Returns (Resolved (VObj newValue))) /\
    stores w' !! storeName = Some s' /\
    forall k', k' <> k -> store_lookup s' k' = store_lookup s k'.
Proof.
  intros Hs Hu Hf. unfold update, bind in Hu.
  destruct (makeRequest self storeName readwrite (Put newValue) w) as [c w1] eqn:E.
  apply makeRequest_inv in E
    as [(e & -> & ->)|[[-> ->]|(res & s0 & s' & -> & Hc & Hs0 & Hn & _ & ->)]];
    try discriminate.
  rewrite Hs in Hs0. inversion Hs0; subst s0. simpl in Hn.
  unfold ret in Hu. inversion Hu; subst w'; clear Hu.
  destruct (native_put_lookup _ _ _ _ Hn) as (k & Hk & Hkp & Hl).
  assert (Hget : forall q, to_key q = Some k ->
            fst (get self storeName q (set_store storeName s' (skip 1 w)))
            = Returns (Resolved (VObj newValue))).
  { intros q Hq.
    rewrite (get_quiet self storeName s' _ k _ Hc (stores_set_store _ _ _) Hq Hf).
    by rewrite Hl. }
  exists k, s'. split; [exact Hk|]. split; [apply Hget, to_key_key_to_value|].
  split; [intros Hid; apply Hget; by apply key_to_value_get_prop|].
  split; [apply stores_set_store|].
  intros k' Hne. eapply native_put_other; [exact Hn|]. congruence.
Qed.

Lemma getAllByCursor_loop_no_faults (rest : list record) (values : list jsval)
    (w : world) :
  faults w = [] ->
  getAllByCursor_loop rest values w = (Resolved (VArr (values ++ map VObj rest)), w).
Proof.
  intros Hf. assert (Hn : next_fault w = (false, w))
    by (unfold next_fault; by rewrite Hf).
  revert values. induction rest as [|r rest IH]; intros values;
    cbn [getAllByCursor_loop map]; rewrite Hn.
  - by rewrite app_nil_r.
  - rewrite IH. by rewrite <- app_assoc.
Qed.

(** X9: on an engine that does not fail, [getAllByCursor] is [getAll]:
    the two calls return the same promise, resolved with the records of
    the store in key order, or throw the same error, and leave the same
    world. *)
Theorem getAllByCursor_is_getAll (self : DB) (storeName : string) (w : world) :
  faults w = [] ->
  getAllByCursor self storeName w = getAll self storeName w.
Proof.
  intros Hf. assert (Hn : next_fault w = (false, w))
    by (unfold next_fault; by rewrite Hf).
  unfold getAllByCursor, getAll, bind, makeRequest, bind.
  destruct (getStore self storeName readonly w) as [[e|s] w0] eqn:E.
  - by apply getStore_Throws in E as ->.
  - apply getStore_Returns in E as (-> & _ & Hs). simpl.
    rewrite (getAllByCursor_loop_no_faults _ _ _ Hf). unfold issue. rewrite Hn. simpl.
    unfold ret. by rewrite (set_store_id _ _ _ Hs).
Qed.

(** ** More on [set] and [setBatch] *)

Lemma strict_equal_eq (a b : jsval) : strict_equal a b = true -> a = b.
Proof.
  destruct a, b; simpl; try discriminate; intros H; f_equal.
  - by apply Bool.eqb_prop.
  - by apply Z.eqb_eq.
  - by apply String.eqb_eq.
Qed.

(** What [keys.indexOf] finds among the keys of the store is a key of the
    store. *)
Lemma indexOf_found_present (ks : list idbkey) (v : jsval) :
  indexOf_found (map key_to_value ks) v = true ->
  exists k, to_key v = Some k /\ k ∈ ks.
Proof.
  unfold indexOf_found. induction ks as [|k' ks IH]; simpl; [discriminate|].
  intros H. apply orb_true_iff in H as [H|H].
  - exists k'. split; [|by left].
    pose proof (strict_equal_eq _ _ H) as <-.
    destruct k' as [n|str|l]; simpl in *; try reflexivity. discriminate.
  - destruct (IH H) as (k & Hk & Hin). exists k. split; [exact Hk|by right].
Qed.

Lemma indexOf_found_absent (s : object_store) (value : record) :
  one_field (keyPath s) = true ->
  key_present s value = false ->
  indexOf_found (map key_to_value (store_keys s)) (get_prop value (keyPath s)) = false.
Proof.
  unfold key_present. intros Hid Hp. rewrite (record_key_one_field _ _ Hid) in Hp.
  destruct (indexOf_found _ _) eqn:E; [|reflexivity].
  apply indexOf_found_present in E as (k & Hk & Hin).
  rewrite Hk in Hp. apply keys_of_elem in Hin. unfold store_keys in Hin. congruence.
Qed.

(** X10: [set] of a record with a new key, in a store whose key path names
    one field.  When that field holds a valid key that the store does not
    hold, the value has no own property named [hasOwnProperty], no unique
    index is violated and the two requests do not fail, [set] resolves
    with [setSuccess]; the store then holds the record at its place, and
    its keys are the new key and the keys it had. *)
Theorem set_new_key (self : DB) (storeName : string) (s : object_store)
    (value : record) (k : idbkey) (w : world) :
  connected self ->
  stores w !! storeName = Some s ->
  one_field (keyPath s) = true ->
  shadowed value = false ->
  record_key (keyPath s) value = Some k ->
  key_present s value = false ->
  violates_unique s k value = false ->
  quiet 2 w = true ->
  set self storeName value w
  = (Returns (Resolved errorCode.setSuccess),
     set_store storeName
       (with_records s (insert_sorted (keyPath s) k value (records s))) (skip 2 w)) /\
  insert_sorted (keyPath s) k value (records s) ≡ₚ value :: records s /\
  keys_of (keyPath s) (insert_sorted (keyPath s) k value (records s))
  ≡ₚ k :: store_keys s.
Proof.
  intros Hc Hs Hid Hsh Hk Hp Hu Hquiet. destruct (quiet_2 _ Hquiet) as [Hf1 Hf2].
  split; [|split; [apply insert_sorted_Permutation|by apply keys_of_insert_sorted]].
  assert (Hs1 : stores (skip 1 w) !! storeName = Some s) by exact Hs.
  rewrite (set_scanned _ _ _ _ _ Hc Hs Hsh (record_key_hasOwnProperty _ _ _ Hid Hk) Hf1),
    next_fault_skip.
  unfold async. cbn [set_resume].
  rewrite (indexOf_found_absent _ _ Hid Hp).
  unfold bind, makeRequest, bind. rewrite (getStore_connected _ _ _ _ _ Hc Hs1).
  simpl. unfold native_add. rewrite Hk.
  unfold key_present in Hp. rewrite Hk in Hp. rewrite Hp, Hu. simpl.
  unfold issue. rewrite (next_fault_quiet _ Hf2), next_fault_skip, skip_skip. reflexivity.
Qed.

Lemma indexOf_found_invalid (ks : list idbkey) (v : jsval) :
  to_key v = None -> indexOf_found (map key_to_value ks) v = false.
Proof.
  intros Hv. destruct (indexOf_found _ _) eqn:E; [|reflexivity].
  apply indexOf_found_present in E as (k & Hk & _). congruence.
Qed.


Lemma getStore_throws_error (self : DB) (name : string) (m : mode) (w w' : world)
    (e : jsval) :
  getStore self name m w = (Throws e, w') -> exists n, e = VError n.
Proof.
  unfold getStore, throw. destruct (_dataBase self) as [|[|]].
  - intros H; inversion H. by eexists.
  - intros H; inversion H. by eexists.
  - destruct (stores w !! name); intros H; inversion H. by eexists.
Qed.

Lemma makeRequest_throws_error (self : DB) (name : string) (m : mode) (a : store_action)
    (w w' : world) (e : jsval) :
  makeRequest self name m a w = (Throws e, w') -> exists n, e = VError n.
Proof.
  unfold makeRequest, bind.
  destruct (getStore self name m w) as [[e0|s] w0] eqn:E.
  - intros H; inversion H; subst. by eapply getStore_throws_error.
  - assert (H : match native s a with
                | Throws e => throw e
                | Returns r => issue name r
                end w0 = (Throws e, w') -> exists n, e = VError n).
    { destruct (native s a) as [e0|r] eqn:En.
      - intros H; inversion H; subst.
        destruct a; simpl in En;
          unfold native_add, native_put, native_get, native_delete in En;
          repeat match type of En with
                 | context [match ?x with _ => _ end] => destruct x
                 end; inversion En; by eexists.
      - unfold issue. destruct (next_fault w0) as [[|] w1]; [discriminate|].
        destruct (fst r); discriminate. }
    destruct m, (writes a); try exact H. intros H'; inversion H'. by eexists.
Qed.

Lemma status_call_settlement (self : DB) (name : string) (a : store_action)
    (success error : jsval) (w : world) :
  (exists n, fst (bind (makeRequest self name readwrite a)
                    (fun req => ret (promisify req success error)) w)
             = Throws (VError n)) \/
  fst (bind (makeRequest self name readwrite a)
         (fun req => ret (promisify req success error)) w) = Returns (Resolved success) \/
  fst (bind (makeRequest self name readwrite a)
         (fun req => ret (promisify req success error)) w) = Returns (Rejected error).
Proof.
  unfold bind, ret.
  destruct (makeRequest self name readwrite a w) as [[e|[res|]] w1] eqn:E; simpl; auto.
  left. apply makeRequest_throws_error in E as [n ->]. eauto.
Qed.

(** X12: what [set] can settle with.  [set] never throws and its promise
    is never left pending: it is resolved with [setNoCorresponding],
    [setSuccess] or the [updateSuccess] of [update], or rejected with
    [setFail], with the [updateFail] of [update], or with an error object
    of the engine or the language. *)
Theorem set_settles (self : DB) (storeName : string) (value : record) (w : world) :
  exists p, fst (set self storeName value w) = Returns p /\ set_settlement p.
Proof.
  unfold set_settlement, set, async, bind at 1, set_begin, bind at 1.
  destruct (getStore self storeName readonly w) as [[e|s] w0] eqn:E.
  { apply getStore_throws_error in E as [n ->]. eexists. split; [reflexivity|].
    do 5 right. eauto. }
  unfold bind at 1, lift, call_hasOwnProperty.
  destruct (shadowed value);
    [eexists; split; [reflexivity|do 5 right; by eexists]|].
  destruct (hasOwnProperty value (keyPath s)); [|eexists; split; [reflexivity|auto]].
  unfold bind at 1, getAllKeys, bind at 1.
  destruct (makeRequest self storeName readonly GetAllKeys w0) as [[e|ev] w1] eqn:E1.
  { apply makeRequest_throws_error in E1 as [n ->]. eexists. split; [reflexivity|].
    do 5 right. eauto. }
  destruct ev as [v|]; cbv beta iota delta [ret await promisifyRes set_resume];
    [|eexists; split; [reflexivity|do 5 right; by eexists]].
  destruct v; try (eexists; split; [reflexivity|do 5 right; by eexists]).
  destruct (indexOf_found _ _).
  - unfold update.
    destruct (status_call_settlement self storeName (Put value)
                errorCode.updateSuccess errorCode.updateFail w1) as [[n H]|[H|H]];
      destruct (bind _ _ w1) as [c w2]; simpl in H; subst c;
      (eexists; split; [reflexivity|]); eauto 10.
  - destruct (status_call_settlement self storeName (Add value)
                errorCode.setSuccess errorCode.setFail w1) as [[n H]|[H|H]];
      destruct (bind _ _ w1) as [c w2]; simpl in H; subst c;
      (eexists; split; [reflexivity|]); eauto 10.
Qed.

Lemma setBatch_calls_without_key (self : DB) (storeName : string) (s : object_store)
    (items : list record) (w : world) :
  connected self -> stores w !! storeName = Some s ->
  Forall (fun item => shadowed item = false /\
                      hasOwnProperty item (keyPath s) = false) items ->
  setBatch_calls self storeName items w
  = (map (fun _ => Settled {| step := 0;
                              fate := Resolved errorCode.setNoCorresponding |}) items, w).
Proof.
  intros Hc Hs. induction 1 as [|item rest [Hsh Hi] _ IH]; simpl; [reflexivity|].
  rewrite (set_begin_connected _ _ _ _ _ Hc Hs), Hsh, Hi. by rewrite IH.
Qed.

Lemma Promise_all_resolved_const (v : jsval) (items : list record) (n : nat) :
  Promise_all (map (fun _ => {| step := n; fate := Resolved v |}) items)
  = Resolved (VArr (map (fun _ => v) items)).
Proof.
  unfold Promise_all.
  assert (E : foldl earlier None
                (map (fun _ => {| step := n; fate := Resolved v |}) items) = None).
  { apply foldl_earlier_None. split; [reflexivity|].
    apply Forall_map. apply Forall_true. intros ? e. discriminate. }
  rewrite E.
  assert (Em : mapM fulfilled_value
                 (map (fun _ => {| step := n; fate := Resolved v |}) items)
               = Some (map (fun _ => v) items)).
  { apply mapM_Some. clear E. induction items; constructor; auto. }
  by rewrite Em.
Qed.

(** X13: a batch of values that all lack the key field (and none of which
    has an own property named [hasOwnProperty]).  Every individual [set]
    resolves with [setNoCorresponding], a resolved promise, so [setBatch]
    resolves with [setBatchSuccess] although nothing was inserted: the
    world is the one before the call, no request issued. *)
Theorem setBatch_without_key_field (self : DB) (storeName : string) (s : object_store)
    (items : list record) (w : world) :
  connected self ->
  stores w !! storeName = Some s ->
  Forall (fun item => shadowed item = false /\
                      hasOwnProperty item (keyPath s) = false) items ->
  setBatch self storeName items w = (Returns (Resolved errorCode.setBatchSuccess), w).
Proof.
  intros Hc Hs Hall. unfold setBatch, async.
  rewrite (setBatch_calls_without_key _ _ _ _ _ Hc Hs Hall), setBatch_resume_settled.
  rewrite Promise_all_resolved_const. cbn [await array_length]. unfold ret.
  by rewrite !length_map, Nat.eqb_refl.
Qed.

Lemma next_fault_no_faults (w : world) : faults w = [] -> next_fault w = (false, w).
Proof. intros H. unfold next_fault. by rewrite H. Qed.

Lemma violates_unique_no_unique (s : object_store) (k : idbkey) (r : record) :
  Forall (fun ix => unique ix = false) (indexes s) -> violates_unique s k r = false.
Proof.
  unfold violates_unique. induction 1 as [|ix l Hix _ IH]; simpl; [reflexivity|].
  by rewrite Hix, IH.
Qed.

Lemma setBatch_calls_with_key (self : DB) (storeName : string) (s : object_store)
    (items : list record) (w : world) :
  connected self -> stores w !! storeName = Some s -> faults w = [] ->
  one_field (keyPath s) = true ->
  Forall (fun item => shadowed item = false /\
                      is_Some (record_key (keyPath s) item)) items ->
  setBatch_calls self storeName items w
  = (map (fun item => Suspended item (keyPath s)
                        (Resolved (VArr (map key_to_value (store_keys s))))) items, w).
Proof.
  intros Hc Hs Hf Hid.
  induction 1 as [|item rest [Hsh [k Hk]] _ IH]; simpl; [reflexivity|].
  rewrite (set_begin_connected _ _ _ _ _ Hc Hs), Hsh,
    (record_key_hasOwnProperty _ _ _ Hid Hk).
  unfold bind.
  rewrite (getAllKeys_quiet _ _ _ _ Hc Hs); rewrite (next_fault_no_faults _ Hf);
    [|reflexivity].
  unfold ret. cbn [snd]. by rewrite IH.
Qed.

Lemma setBatch_resume_new_keys (self : DB) (storeName path : string) (keys0 : list jsval)
    (ixs : list index_decl) (items : list record) :
  connected self ->
  Forall (fun ix => unique ix = false) ixs ->
  Forall (fun item => indexOf_found keys0 (get_prop item path) = false) items ->
  NoDup (map (record_key path) items) ->
  forall (s : object_store) (w : world),
    keyPath s = path -> indexes s = ixs ->
    stores w !! storeName = Some s -> faults w = [] ->
    Forall (fun item => exists k, record_key path item = Some k /\ k ∉ store_keys s)
      items ->
    exists s',
      setBatch_resume self storeName
        (map (fun item => Suspended item path (Resolved (VArr keys0))) items) w
      = (map (fun _ => {| step := 2; fate := Resolved errorCode.setSuccess |}) items,
         set_store storeName s' w) /\
      keyPath s' = path /\ indexes s' = ixs /\
      records s' ≡ₚ (items ++ records s)%list.
Proof.
  intros Hc Hix Hidx. induction Hidx as [|item rest Hi _ IH];
    intros Hnd s w Hp Hi' Hs Hf Hnew.
  - exists s. simpl. rewrite (set_store_id _ _ _ Hs). auto.
  - cbn [map] in Hnd. apply NoDup_cons in Hnd as [Hnot Hnd].
    apply Forall_cons in Hnew as [(k & Hk & Hk') Hnew].
    assert (Hex : existsb (has_key path k) (records s) = false).
    { destruct (existsb _ _) eqn:E; [|reflexivity].
      apply keys_of_elem in E. destruct Hk'. unfold store_keys. by rewrite Hp. }
    set (s1 := with_records s (insert_sorted path k item (records s))).
    assert (Hstep : await (Resolved (VArr keys0))
                      (set_resume self storeName item path) w
                    = (Returns (Resolved errorCode.setSuccess), set_store storeName s1 w)).
    { cbn [await set_resume]. rewrite Hi.
      unfold bind, makeRequest, bind. rewrite (getStore_connected _ _ _ _ _ Hc Hs).
      simpl. unfold native_add.
      rewrite Hp, Hk, Hex.
      rewrite violates_unique_no_unique by (by rewrite Hi'). simpl.
      unfold issue. rewrite (next_fault_no_faults _ Hf). reflexivity. }
    destruct (IH Hnd s1 (set_store storeName s1 w)) as (s' & E & Hp' & Hix' & Hperm);
      try done.
    + apply stores_set_store.
    + rewrite Forall_forall in Hnew |- *. intros item' Hin'.
      destruct (Hnew item' Hin') as (k' & Hk1 & Hk2).
      exists k'. split; [exact Hk1|]. unfold store_keys, s1. simpl.
      rewrite Hp. rewrite (keys_of_insert_sorted _ _ _ _ Hk).
      rewrite elem_of_cons. intros [->|Hin].
      * apply Hnot. rewrite Hk, <- Hk1. apply list_elem_of_In, in_map.
        by apply list_elem_of_In.
      * apply Hk2. unfold store_keys. by rewrite Hp.
    + exists s'. cbn [map setBatch_resume]. rewrite Hstep, E. split.
      * f_equal. unfold set_store. simpl. f_equal. apply insert_insert_eq.
      * split; [exact Hp'|]. split; [exact Hix'|].
        rewrite Hperm. unfold s1. simpl.
        rewrite (insert_sorted_Permutation path k item (records s)).
        by rewrite Permutation_middle.
Qed.

(** X14: a batch of new records.  On an engine that does not fail, for a
    store whose key path names one field and that has no unique index:
    when the items have valid keys, different from each other and from the
    keys of the store (and no own property named [hasOwnProperty]),
    [setBatch] resolves with [setBatchSuccess] and the store afterwards
    holds the items and the records it had. *)
Theorem setBatch_new_keys (self : DB) (storeName : string) (s : object_store)
    (items : list record) (w : world) :
  connected self ->
  stores w !! storeName = Some s ->
  faults w = [] ->
  one_field (keyPath s) = true ->
  Forall (fun ix => unique ix = false) (indexes s) ->
  Forall (fun item => shadowed item = false) items ->
  NoDup (map (record_key (keyPath s)) items) ->
  Forall (fun item => exists k, record_key (keyPath s) item = Some k /\
                                k ∉ store_keys s) items ->
  fst (setBatch self storeName items w) = Returns (Resolved errorCode.setBatchSuccess) /\
  exists s', stores (snd (setBatch self storeName items w)) !! storeName = Some s' /\
             records s' ≡ₚ (items ++ records s)%list.
Proof.
  intros Hc Hs Hf Hid Hix Hsh Hnd Hnew.
  assert (Hkeys : Forall (fun item => shadowed item = false /\
                                      is_Some (record_key (keyPath s) item)) items).
  { rewrite Forall_forall in Hsh, Hnew |- *. intros item Hin.
    destruct (Hnew item Hin) as (k & Hk & _). split; [by apply Hsh|eauto]. }
  assert (Hidx : Forall (fun item =>
                           indexOf_found (map key_to_value (store_keys s))
                             (get_prop item (keyPath s)) = false) items).
  { eapply Forall_impl; [exact Hnew|]. intros item (k & Hk & Hk').
    apply (indexOf_found_absent _ _ Hid). unfold key_present. rewrite Hk.
    destruct (existsb _ _) eqn:E; [|reflexivity]. apply keys_of_elem in E. by destruct Hk'. }
  destruct (setBatch_resume_new_keys self storeName (keyPath s) _ (indexes s) items
              Hc Hix Hidx Hnd s w eq_refl eq_refl Hs Hf Hnew)
    as (s' & E & _ & _ & Hperm).
  unfold setBatch, async.
  rewrite (setBatch_calls_with_key _ _ _ _ _ Hc Hs Hf Hid Hkeys), E.
  rewrite Promise_all_resolved_const. cbn [await array_length]. unfold ret.
  rewrite !length_map, Nat.eqb_refl. cbn [fst snd]. split; [reflexivity|].
  exists s'. split; [apply stores_set_store|exact Hperm].
Qed.

(** ** More on the cursor scans *)

Lemma keys_of_app (path : string) (l l' : list record) :
  keys_of path (l ++ l') = (keys_of path l ++ keys_of path l')%list.
Proof.
  induction l as [|r l IH]; simpl; [reflexivity|].
  destruct (record_key path r); simpl; by rewrite IH.
Qed.

Lemma filter_other_keys (path : string) (o : option idbkey) (k : idbkey)
    (l : list record) :
  o = Some k -> k ∉ keys_of path l ->
  List.filter (fun r => negb (bool_decide (record_key path r = o))) l = l.
Proof.
  intros -> Hk. induction l as [|r l IH]; simpl; [reflexivity|].
  simpl in Hk. destruct (record_key path r) as [k'|] eqn:E.
  - rewrite not_elem_of_cons in Hk. destruct Hk as [Hne Hk].
    rewrite bool_decide_eq_false_2 by congruence. simpl. by rewrite IH.
  - rewrite bool_decide_eq_false_2 by congruence. simpl. by rewrite IH.
Qed.

Lemma filter_unique_key (path : string) (kept rest : list record) (cur : record) :
  Forall (fun r => is_Some (record_key path r)) (kept ++ cur :: rest) ->
  NoDup (keys_of path (kept ++ cur :: rest)) ->
  List.filter (fun r => negb (bool_decide (record_key path r = record_key path cur)))
    (kept ++ cur :: rest)
  = (kept ++ rest)%list.
Proof.
  intros Hall Hnd. apply Forall_app in Hall as [_ Hall].
  apply Forall_cons in Hall as [[k Hk] _].
  rewrite keys_of_app in Hnd. simpl in Hnd. rewrite Hk in Hnd.
  apply NoDup_app in Hnd as (_ & Hdisj & Hnd). apply NoDup_cons in Hnd as [Hnot _].
  rewrite List.filter_app. simpl.
  rewrite bool_decide_eq_true_2 by reflexivity. simpl.
  rewrite (filter_other_keys path _ k kept Hk), (filter_other_keys path _ k rest Hk);
    try done.
  intros Hin. apply (Hdisj k Hin). by left.
Qed.

Lemma resolve_resolve (cell : option promise) (p : promise) :
  resolve (resolve cell p) p = resolve cell p.
Proof. by destruct cell. Qed.

Lemma deleteByCursor_loop_no_faults (attrName : string) (attr : jsval) (w : world) :
  faults w = [] ->
  forall (rest kept : list record) (s : object_store) (cell : option promise),
    records s = (kept ++ rest)%list -> keyed s ->
    Forall (fun r => shadowed r = false) rest ->
    deleteByCursor_loop attrName attr rest s cell w
    = (settle (if existsb (has_attr attrName attr) rest
               then resolve cell (Resolved indexErrorCode.deleteSuccess)
               else cell) (Resolved indexErrorCode.noFound),
       Some (with_records s
               (kept ++ List.filter (fun r => negb (has_attr attrName attr r)) rest)),
       w).
Proof.
  intros Hf. pose proof (next_fault_no_faults _ Hf) as Hn.
  induction rest as [|cur rest IH]; intros kept s cell Hr Hk Hsh;
    cbn [deleteByCursor_loop]; rewrite Hn.
  - simpl. rewrite app_nil_r in *. rewrite <- Hr. by destruct s.
  - apply Forall_cons in Hsh as [Hcur Hsh].
    rewrite (matches_unshadowed _ _ _ Hcur).
    cbn [existsb List.filter]. destruct (has_attr attrName attr cur) eqn:Hm; cbn [negb orb].
    + unfold cursor_delete. rewrite Hn. cbn [promisify].
      assert (Hfilter : List.filter
                (fun r => negb (bool_decide (record_key (keyPath s) r
                                             = record_key (keyPath s) cur)))
                (records s) = (kept ++ rest)%list).
      { rewrite Hr. destruct Hk as [Hall Hnd]. unfold store_keys in Hnd.
        rewrite Hr in Hall, Hnd. by apply filter_unique_key. }
      rewrite Hfilter.
      rewrite (IH kept (with_records s (kept ++ rest))); [|reflexivity| |exact Hsh].
      * rewrite resolve_resolve. f_equal. f_equal.
        destruct (existsb _ rest), cell; reflexivity.
      * rewrite <- Hfilter. apply (keyed_without s (record_key (keyPath s) cur) Hk).
    + rewrite (IH (kept ++ [cur])%list s cell);
        [|by rewrite <- app_assoc|exact Hk|exact Hsh].
      by rewrite <- app_assoc.
Qed.

(** X15: [deleteByCursor] deletes every match.  On an engine that does not
    fail and a keyed store without a record that has an own property
    named [hasOwnProperty], the scan does not stop at the first match:
    afterwards the store holds exactly the records that did not have the
    attribute, in the order they had, and the promise is resolved with
    [deleteSuccess] when there was a match and with [noFound] when there
    was none. *)
Theorem deleteByCursor_deletes_every_match (self : DB) (storeName attrName : string)
    (attr : jsval) (s : object_store) (w : world) :
  connected self ->
  stores w !! storeName = Some s ->
  keyed s ->
  Forall (fun r => shadowed r = false) (records s) ->
  faults w = [] ->
  deleteByCursor self storeName attrName attr w
  = (Returns (Resolved (if existsb (has_attr attrName attr) (records s)
                        then indexErrorCode.deleteSuccess
                        else indexErrorCode.noFound)),
     set_store storeName
       (with_records s
          (List.filter (fun r => negb (has_attr attrName attr r)) (records s)))
       w).
Proof.
  intros Hc Hs Hk Hsh Hf. unfold deleteByCursor, bind.
  rewrite (getStore_connected _ _ _ _ _ Hc Hs).
  rewrite (deleteByCursor_loop_no_faults attrName attr w Hf (records s) [] s None
             eq_refl Hk Hsh).
  cbn [commit app]. by destruct (existsb _ _).
Qed.


Lemma updateByCursor_loop_keys (attrName : string) (attr : jsval) (newVal : record)
    (rest : list record) (s s' : object_store) (cell : option promise) (w : world) :
  (forall r k, In r rest -> record_key (keyPath s) r = Some k -> k ∈ store_keys s) ->
  snd (fst (updateByCursor_loop attrName attr newVal rest s cell w)) = Some s' ->
  store_keys s' = store_keys s /\ length (records s') = length (records s).
Proof.
  revert s cell w. induction rest as [|cur rest IH]; intros s cell w Hin;
    cbn [updateByCursor_loop]; destruct (next_fault w) as [[|] w1]; cbn [fst snd];
    try discriminate.
  - intros H; inversion H; auto.
  - assert (Hin' : forall r k, In r rest -> record_key (keyPath s) r = Some k ->
                               k ∈ store_keys s)
      by (intros r k Hr; apply Hin; by right).
    destruct (matches attrName attr cur) as [e0|[|]]; [discriminate| |by apply IH].
    destruct (strict_equal _ _); [|by apply IH].
    destruct (cursor_update s cur newVal) as [e|[ev s1]] eqn:Hu; [discriminate|].
    destruct (next_fault w1) as [[|] w2]; [discriminate|].
    destruct ev; [|discriminate].
    unfold cursor_update in Hu.
    destruct (record_key (keyPath s) cur) as [kc|] eqn:Hkc; [|discriminate].
    destruct (record_key (keyPath s) newVal) as [kn|] eqn:Hkn; [|discriminate].
    destruct (decide (kc = kn)) as [->|]; [|discriminate].
    unfold native_put in Hu. rewrite Hkn in Hu.
    destruct (violates_unique s kn newVal); [discriminate|].
    assert (Hex : existsb (has_key (keyPath s) kn) (records s) = true).
    { apply keys_of_elem. apply (Hin cur kn); [by left|exact Hkc]. }
    rewrite Hex in Hu. inversion Hu; subst s1; clear Hu.
    assert (Hkeys : store_keys (with_records s
                                  (replace_record (keyPath s) kn newVal (records s)))
                    = store_keys s).
    { unfold store_keys. simpl. by apply keys_replace_record. }
    intros H. apply IH in H.
    + destruct H as [H1 H2]. rewrite H1, H2, Hkeys. simpl.
      by rewrite length_replace_record.
    + intros r k Hr Hk. rewrite Hkeys. by apply (Hin' r k).
Qed.

(** X17: [updateByCursor] neither adds nor removes a record.  Whatever the
    call settles with, the store afterwards has the keys it had, in the
    same order, and as many records. *)
Theorem updateByCursor_keeps_the_keys (self : DB) (storeName attrName : string)
    (attr : jsval) (newVal : record) (s : object_store) (w : world) :
  stores w !! storeName = Some s ->
  exists s', stores (snd (updateByCursor self storeName attrName attr newVal w))
               !! storeName = Some s' /\
             store_keys s' = store_keys s /\
             length (records s') = length (records s).
Proof.
  intros Hs. unfold updateByCursor, bind.
  destruct (getStore self storeName readwrite w) as [[e|s0] w0] eqn:E.
  { apply getStore_Throws in E as ->. eauto. }
  apply getStore_Returns in E as (-> & _ & Hs0). rewrite Hs in Hs0. inversion Hs0; subst s0.
  pose proof (updateByCursor_loop_keys attrName attr newVal (records s) s) as Hk.
  pose proof (updateByCursor_loop_stores attrName attr newVal (records s) s None w) as Hst.
  destruct (updateByCursor_loop attrName attr newVal (records s) s None w)
    as [[p [s'|]] w'] eqn:El; simpl in *.
  - exists s'. split; [apply lookup_insert_eq|]. eapply Hk; [|by rewrite El].
    intros r k Hr Hkr. by eapply keys_of_member.
  - exists s. by rewrite Hst.
Qed.

(** ** Index lookups *)

Lemma insert_entry_Permutation (e : idbkey * record) (l : list (idbkey * record)) :
  insert_entry e l ≡ₚ e :: l.
Proof.
  induction l as [|e' l IH]; simpl; [reflexivity|].
  destruct (key_compare (fst e) (fst e')); try reflexivity.
  rewrite IH. apply Permutation_swap.
Qed.

Lemma foldr_insert_entry_Permutation (l : list (idbkey * record)) :
  foldr insert_entry [] l ≡ₚ l.
Proof.
  induction l as [|e l IH]; simpl; [reflexivity|].
  by rewrite insert_entry_Permutation, IH.
Qed.

Lemma List_filter_Permutation {A : Type} (f : A -> bool) (l l' : list A) :
  l ≡ₚ l' -> List.filter f l ≡ₚ List.filter f l'.
Proof.
  induction 1 as [|x l l' _ IH|x y l|l l' l'' _ IH1 _ IH2]; simpl.
  - reflexivity.
  - destruct (f x); by rewrite IH.
  - destruct (f x), (f y); try reflexivity. apply Permutation_swap.
  - by rewrite IH1.
Qed.

Lemma omap_cons_Some {A B : Type} (f : A -> option B) (x : A) (y : B) (l : list A) :
  f x = Some y -> omap f (x :: l) = y :: omap f l.
Proof. intros H. simpl. by rewrite H. Qed.

Lemma omap_cons_None {A B : Type} (f : A -> option B) (x : A) (l : list A) :
  f x = None -> omap f (x :: l) = omap f l.
Proof. intros H. simpl. by rewrite H. Qed.

(** The entries of an index under a key, as records of the store. *)
Lemma entries_at_records (s : object_store) (ix : index_decl) (k : idbkey) :
  map snd (entries_at s ix k) ≡ₚ indexed_at s ix k.
Proof.
  unfold entries_at, index_entries, indexed_at.
  rewrite (List_filter_Permutation _ _ _ (foldr_insert_entry_Permutation _)).
  induction (records s) as [|r l IH]; [reflexivity|].
  cbn [List.filter]. unfold has_key at 1.
  destruct (record_key (index_keyPath ix) r) as [k'|] eqn:E.
  - rewrite (omap_cons_Some _ r (k', r)) by (by rewrite E).
    cbn [List.filter fst]. destruct (decide (k' = k)) as [->|Hne].
    + rewrite !bool_decide_eq_true_2 by reflexivity. cbn [map snd]. by rewrite IH.
    + rewrite !bool_decide_eq_false_2 by congruence. exact IH.
  - rewrite omap_cons_None by (by rewrite E).
    rewrite bool_decide_eq_false_2 by congruence. exact IH.
Qed.

Lemma index_entries_records (s : object_store) (ix : index_decl) :
  map snd (index_entries s ix) ≡ₚ indexed s ix.
Proof.
  unfold index_entries, indexed.
  rewrite (foldr_insert_entry_Permutation _).
  induction (records s) as [|r l IH]; [reflexivity|].
  cbn [List.filter].
  destruct (record_key (index_keyPath ix) r) as [k'|] eqn:E.
  - rewrite (omap_cons_Some _ r (k', r)) by (by rewrite E).
    rewrite bool_decide_eq_true_2 by eauto. cbn [map snd]. by rewrite IH.
  - rewrite omap_cons_None by (by rewrite E).
    rewrite bool_decide_eq_false_2 by (by intros [? ?]). exact IH.
Qed.

Lemma makeIndexRequest_quiet (self : DB) (storeName name : string) (s : object_store)
    (ix : index_decl) (a : index_action) (ev : request_event) (w : world) :
  connected self -> stores w !! storeName = Some s -> find_index s name = Some ix ->
  native_index s ix a = Returns ev -> fst (next_fault w) = false ->
  fst (makeIndexRequest self storeName name a w) = Returns ev.
Proof.
  intros Hc Hs Hix Hn Hf. unfold makeIndexRequest, bind. unfold find_index in Hix.
  rewrite (getStore_connected _ _ _ _ _ Hc Hs), Hix, Hn. unfold issue.
  rewrite (next_fault_quiet _ Hf). simpl. by destruct ev.
Qed.

(** X18: [getByIndex] and [getKeyByIndex].  When the store has the index,
    the query is a valid key and the request succeeds: if no record of
    the store has the query as its index key, both calls resolve with
    [undefined]; otherwise [getByIndex] resolves with a record of the
    store that has it, and [getKeyByIndex] with the primary key of that
    record. *)
Theorem getByIndex_finds_a_record (self : DB) (storeName name : string)
    (s : object_store) (ix : index_decl) (q : jsval) (k : idbkey) (w : world) :
  connected self ->
  stores w !! storeName = Some s ->
  find_index s name = Some ix ->
  to_key q = Some k ->
  fst (next_fault w) = false ->
  (indexed_at s ix k = [] /\
   fst (getByIndex self storeName name q w) = Returns (Resolved VUndefined) /\
   fst (getKeyByIndex self storeName name q w) = Returns (Resolved VUndefined)) \/
  (exists r, In r (records s) /\ record_key (index_keyPath ix) r = Some k /\
             fst (getByIndex self storeName name q w) = Returns (Resolved (VObj r)) /\
             fst (getKeyByIndex self storeName name q w)
             = Returns (Resolved (primary_key_value s r))).
Proof.
  intros Hc Hs Hix Hq Hf.
  pose proof (entries_at_records s ix k) as Hperm.
  assert (Hn1 : native_index s ix (IxGet q)
                = Returns (OnSuccess (match entries_at s ix k with
                                      | (_, r) :: _ => VObj r
                                      | [] => VUndefined
                                      end))) by (simpl; by rewrite Hq).
  assert (Hn2 : native_index s ix (IxGetKey q)
                = Returns (OnSuccess (match entries_at s ix k with
                                      | (_, r) :: _ => primary_key_value s r
                                      | [] => VUndefined
                                      end))) by (simpl; by rewrite Hq).
  unfold getByIndex, getKeyByIndex, bind.
  pose proof (makeIndexRequest_quiet self storeName name s ix _ _ w Hc Hs Hix Hn1 Hf)
    as E1.
  pose proof (makeIndexRequest_quiet self storeName name s ix _ _ w Hc Hs Hix Hn2 Hf)
    as E2.
  destruct (makeIndexRequest self storeName name (IxGet q) w) as [c1 w1].
  destruct (makeIndexRequest self storeName name (IxGetKey q) w) as [c2 w2].
  simpl in E1, E2. subst c1 c2. unfold ret. cbn [fst promisifyRes].
  destruct (entries_at s ix k) as [|[k' r] l] eqn:E.
  - left. simpl in Hperm. apply Permutation_nil in Hperm. auto.
  - right. exists r.
    assert (Hin : In r (indexed_at s ix k)).
    { apply list_elem_of_In. rewrite <- Hperm. simpl. by left. }
    unfold indexed_at in Hin. apply filter_In in Hin as [Hin Hk].
    apply bool_decide_eq_true_1 in Hk. auto.
Qed.

(** X19: [getCountByIndex].  When the store has the index and the request
    succeeds, the call resolves with the number of records of the store
    whose index key is the query; and with no query ([undefined]), with
    the number of records that have an index key at all. *)
Theorem getCountByIndex_counts (self : DB) (storeName name : string)
    (s : object_store) (ix : index_decl) (w : world) :
  connected self ->
  stores w !! storeName = Some s ->
  find_index s name = Some ix ->
  fst (next_fault w) = false ->
  (forall q k, to_key q = Some k ->
     fst (getCountByIndex self storeName name q w)
     = Returns (Resolved (VNum (Z.of_nat (length (indexed_at s ix k)))))) /\
  fst (getCountByIndex self storeName name VUndefined w)
  = Returns (Resolved (VNum (Z.of_nat (length (indexed s ix))))).
Proof.
  intros Hc Hs Hix Hf. unfold getCountByIndex, bind. split.
  - intros q k Hq.
    assert (Hn : native_index s ix (IxCount q)
                 = Returns (OnSuccess (VNum (Z.of_nat (length (indexed_at s ix k)))))).
    { simpl. rewrite Hq.
      rewrite <- (Permutation_length (entries_at_records s ix k)), length_map.
      by destruct q. }
    pose proof (makeIndexRequest_quiet self storeName name s ix (IxCount q) _ w
                  Hc Hs Hix Hn Hf) as E.
    destruct (makeIndexRequest self storeName name (IxCount q) w) as [c w1].
    simpl in E. by subst c.
  - assert (Hn : native_index s ix (IxCount VUndefined)
                 = Returns (OnSuccess (VNum (Z.of_nat (length (indexed s ix)))))).
    { simpl. by rewrite <- (Permutation_length (index_entries_records s ix)), length_map. }
    pose proof (makeIndexRequest_quiet self storeName name s ix (IxCount VUndefined) _ w
                  Hc Hs Hix Hn Hf) as E.
    destruct (makeIndexRequest self storeName name (IxCount VUndefined) w) as [c w1].
    simpl in E. by subst c.
Qed.

(** ** Opening the database *)

Lemma store_createIndex_new (ix : index_decl) (s : object_store) :
  indexName ix ∉ map indexName (indexes s) ->
  valid_key_path (index_keyPath ix) = true ->
  store_createIndex ix s
  = Some {| keyPath := keyPath s; records := records s;
            indexes := (indexes s ++ [ix])%list |}.
Proof.
  intros Hnot Hv. unfold store_createIndex. rewrite Hv.
  destruct (existsb _ _) eqn:E; [|reflexivity]. exfalso. apply Hnot.
  apply existsb_exists in E as (ix' & Hin & Heq). apply String.eqb_eq in Heq.
  rewrite <- Heq. apply list_elem_of_In, in_map, Hin.
Qed.

Lemma store_createIndex_taken (ix : index_decl) (s : object_store) :
  indexName ix ∈ map indexName (indexes s) -> store_createIndex ix s = None.
Proof.
  intros Hin. unfold store_createIndex.
  destruct (existsb _ _) eqn:E; [reflexivity|]. exfalso.
  apply list_elem_of_In, in_map_iff in Hin as (ix' & Heq & Hin).
  assert (existsb (fun ix'0 => String.eqb (indexName ix'0) (indexName ix)) (indexes s)
          = true); [|congruence].
  apply existsb_exists. exists ix'. split; [exact Hin|]. by apply String.eqb_eq.
Qed.

Lemma store_createIndex_invalid (ix : index_decl) (s : object_store) :
  valid_key_path (index_keyPath ix) = false -> store_createIndex ix s = None.
Proof. intros Hv. unfold store_createIndex. rewrite Hv. by destruct (existsb _ _). Qed.

(** [createIndex] registers the whole list, in order, when no name is
    used twice and every key path is valid, and throws otherwise. *)
Lemma createIndex_spec (l : list index_decl) (s : object_store) :
  createIndex l s
  = if bool_decide (NoDup (map indexName l) /\
                    Forall (fun ix => indexName ix ∉ map indexName (indexes s)) l /\
                    Forall (fun ix => valid_key_path (index_keyPath ix) = true) l)
    then Some {| keyPath := keyPath s; records := records s;
                 indexes := (indexes s ++ l)%list |}
    else None.
Proof.
  revert s. induction l as [|ix l IH]; intros s.
  - rewrite bool_decide_eq_true_2.
    + simpl. rewrite app_nil_r. by destruct s.
    + split; [|split]; constructor.
  - cbn [createIndex map].
    destruct (decide (indexName ix ∈ map indexName (indexes s))) as [Hin|Hnot].
    { rewrite (store_createIndex_taken _ _ Hin). rewrite bool_decide_eq_false_2; [done|].
      intros (_ & H & _). by apply Forall_cons in H as [H _]. }
    destruct (valid_key_path (index_keyPath ix)) eqn:Hv.
    2: { rewrite (store_createIndex_invalid _ _ Hv).
         rewrite bool_decide_eq_false_2; [done|].
         intros (_ & _ & H). apply Forall_cons in H as [H _]. congruence. }
    rewrite (store_createIndex_new _ _ Hnot Hv), IH. cbn [keyPath records indexes].
    rewrite <- app_assoc. cbn [app].
    assert (Hiff : (NoDup (map indexName l) /\
                    Forall (fun ix0 => indexName ix0
                                       ∉ map indexName (indexes s ++ [ix])) l /\
                    Forall (fun ix0 => valid_key_path (index_keyPath ix0) = true) l)
                   <-> (NoDup (indexName ix :: map indexName l) /\
                        Forall (fun ix0 => indexName ix0 ∉ map indexName (indexes s))
                          (ix :: l) /\
                        Forall (fun ix0 => valid_key_path (index_keyPath ix0) = true)
                          (ix :: l))).
    { rewrite map_app. cbn [map]. rewrite NoDup_cons, !Forall_cons, !Forall_forall.
      split.
      - intros (Hnd & H & Hval).
        split; [split; [|exact Hnd]|split; [split; [exact Hnot|]|split; [exact Hv|exact Hval]]].
        + intros Hix. apply list_elem_of_In, in_map_iff in Hix as (ix' & Heq & Hin').
          apply (H ix'); [by apply list_elem_of_In|].
          rewrite elem_of_app. right. rewrite Heq. by left.
        + intros ix' Hin' Hc. apply (H ix' Hin'). rewrite elem_of_app. by left.
      - intros ([Hix Hnd] & [_ H] & [_ Hval]). split; [exact Hnd|]. split; [|exact Hval].
        intros ix' Hin' [Hc|Hc]%elem_of_app.
        + by apply (H ix').
        + apply list_elem_of_singleton in Hc. apply Hix. rewrite <- Hc.
          apply list_elem_of_In, in_map. by apply list_elem_of_In. }
    destruct (bool_decide (NoDup (map indexName l) /\ _)) eqn:E1.
    * apply bool_decide_eq_true_1, Hiff in E1. by rewrite bool_decide_eq_true_2.
    * apply bool_decide_eq_false_1 in E1. rewrite bool_decide_eq_false_2; [done|].
      intros H. by apply E1, Hiff.
Qed.

(** One step of the upgrade, on a store the database does not have. *)
Lemma upgrade_cons (ci : list index_decl -> object_store -> option object_store)
    (decl : store_decl) (l : list store_decl) (db : gmap string object_store) :
  db !! store_name decl = None ->
  upgrade ci (decl :: l) db
  = match created ci decl with
    | Some st => upgrade ci l (<[store_name decl := st]> db)
    | None => None
    end.
Proof.
  intros Hnew. cbn [upgrade]. rewrite Hnew. unfold created, createObjectStore, fresh_store.
  destruct (valid_key_path (store_key decl)); [|reflexivity].
  destruct (indexList decl) as [idx|]; reflexivity.
Qed.

Lemma upgrade_creates (ci : list index_decl -> object_store -> option object_store)
    (l : list store_decl) (db : gmap string object_store) :
  NoDup (map store_name l) ->
  (forall decl, decl ∈ l -> db !! store_name decl = None) ->
  (forall decl, decl ∈ l -> is_Some (created ci decl)) ->
  exists db', upgrade ci l db = Some db' /\
              (forall decl, decl ∈ l -> db' !! store_name decl = created ci decl) /\
              (forall name, name ∉ map store_name l -> db' !! name = db !! name).
Proof.
  revert db. induction l as [|decl l IH]; intros db Hnd Hnew Hok.
  - exists db. split; [reflexivity|]. split; [by intros ? ?%elem_of_nil|done].
  - cbn [map] in Hnd. apply NoDup_cons in Hnd as [Hnot Hnd].
    destruct (Hok decl) as [st Hst]; [by left|].
    assert (Hup : upgrade ci (decl :: l) db
                  = upgrade ci l (<[store_name decl := st]> db)).
    { rewrite upgrade_cons by (apply Hnew; by left). by rewrite Hst. }
    destruct (IH (<[store_name decl := st]> db)) as (db' & E & Hin & Hout); [exact Hnd| | |].
    + intros decl' Hd. rewrite lookup_insert_ne; [apply Hnew; by right|].
      intros Heq. apply Hnot. rewrite Heq. apply list_elem_of_In, in_map.
      by apply list_elem_of_In.
    + intros decl' Hd. apply Hok. by right.
    + exists db'. rewrite Hup. split; [exact E|]. split.
      * intros decl' [->|Hd]%elem_of_cons; [|by apply Hin].
        rewrite (Hout _ Hnot), lookup_insert_eq. by rewrite Hst.
      * intros name Hname. cbn [map] in Hname. apply not_elem_of_cons in Hname as [Hne Hname].
        rewrite (Hout _ Hname). by rewrite lookup_insert_ne.
Qed.

Lemma upgrade_aborts (ci : list index_decl -> object_store -> option object_store)
    (l : list store_decl) (db : gmap string object_store) (bad : store_decl) :
  NoDup (map store_name l) ->
  (forall decl, decl ∈ l -> db !! store_name decl = None) ->
  bad ∈ l -> created ci bad = None ->
  upgrade ci l db = None.
Proof.
  revert db. induction l as [|decl l IH]; intros db Hnd Hnew Hbad Hnone.
  - by apply elem_of_nil in Hbad.
  - cbn [map] in Hnd. apply NoDup_cons in Hnd as [Hnot Hnd].
    rewrite upgrade_cons by (apply Hnew; by left).
    assert (Hrest : forall st, bad ∈ l ->
                               upgrade ci l (<[store_name decl := st]> db) = None).
    { intros st Hin. apply IH; try done.
      intros decl' Hd. rewrite lookup_insert_ne; [apply Hnew; by right|].
      intros Heq. apply Hnot. rewrite Heq. apply list_elem_of_In, in_map.
      by apply list_elem_of_In. }
    apply elem_of_cons in Hbad as [<-|Hbad].
    + by rewrite Hnone.
    + destruct (created ci decl); [by apply Hrest|reflexivity].
Qed.

Lemma open_with_fresh (ci : list index_decl -> object_store -> option object_store)
    (win : window) (dataBaseName : string) (storeList : list store_decl)
    (f : IDBFactory) (w : world) :
  js_or (indexedDB win) (webkitIndexedDB win) = Some f ->
  version w = 0 -> fst (next_fault w) = false ->
  open_with ci (constructor win dataBaseName storeList) w
  = match upgrade ci storeList (stores w) with
    | Some db =>
        (OpenResolvedThis
           (with_dataBase (constructor win dataBaseName storeList) (Connection false)),
         {| version := 1; stores := db; faults := faults (skip 1 w) |})
    | None => (OpenRejected errorCode.openFail, skip 1 w)
    end.
Proof.
  intros Hf Hv Hq. unfold open_with, constructor. cbn [_dataBase _indexedDB truthy].
  rewrite Hf. rewrite (next_fault_quiet _ Hq), next_fault_skip.
  cbn [_dbVersion _storeList orb]. change (version (skip 1 w)) with (version w).
  rewrite Hv. reflexivity.
Qed.

(** X20: [open] on a host that has never seen the database.  When the
    engine is there, the open request does not fail, the declared store
    names differ and the declared key paths are valid, the promise
    resolves with the instance, which now holds a connection; the
    database has version 1 and exactly the declared stores, each empty,
    with its declared key path, and without any index: the [open] of [DB]
    passes no index installer, and the index lists are ignored.  When a
    declared key path is a string of ASCII characters that is not a valid
    key path, creating that store throws in the upgrade handler, the
    upgrade is aborted, and the promise is rejected with [openFail]. *)
Theorem open_creates_the_stores (win : window) (dataBaseName : string)
    (storeList : list store_decl) (f : IDBFactory) (w : world) :
  js_or (indexedDB win) (webkitIndexedDB win) = Some f ->
  version w = 0 ->
  stores w = ∅ ->
  fst (next_fault w) = false ->
  NoDup (map store_name storeList) ->
  (Forall (fun decl => valid_key_path (store_key decl) = true) storeList ->
   exists w',
     open (constructor win dataBaseName storeList) w
     = (OpenResolvedThis
          (with_dataBase (constructor win dataBaseName storeList) (Connection false)), w') /\
     version w' = 1 /\
     (forall decl, decl ∈ storeList ->
                   stores w' !! store_name decl = Some (fresh_store decl)) /\
     (forall name, name ∉ map store_name storeList -> stores w' !! name = None)) /\
  (forall bad, bad ∈ storeList ->
     ascii_only (store_key bad) = true -> valid_key_path (store_key bad) = false ->
     open (constructor win dataBaseName storeList) w
     = (OpenRejected errorCode.openFail, skip 1 w)).
Proof.
  intros Hf Hv Hst Hq Hnd. unfold open. rewrite (open_with_fresh _ _ _ _ _ _ Hf Hv Hq).
  split.
  - intros Hval. rewrite Forall_forall in Hval.
    assert (Hcreated : forall decl, decl ∈ storeList ->
              created (fun _ store => Some store) decl = Some (fresh_store decl)).
    { intros decl Hd. unfold created. rewrite (Hval decl Hd).
      by destruct (indexList decl). }
    destruct (upgrade_creates (fun _ store => Some store) storeList (stores w) Hnd)
      as (db & -> & Hin & Hout).
    + intros decl _. by rewrite Hst.
    + intros decl Hd. rewrite (Hcreated decl Hd). eauto.
    + eexists. split; [reflexivity|]. split; [reflexivity|]. cbn [stores]. split.
      * intros decl Hd. by rewrite (Hin decl Hd), (Hcreated decl Hd).
      * intros name Hname. by rewrite (Hout name Hname), Hst.
  - intros bad Hbad _ Hv'.
    rewrite (upgrade_aborts (fun _ store => Some store) storeList (stores w) bad Hnd);
      [reflexivity| |exact Hbad|].
    + intros decl _. by rewrite Hst.
    + unfold created. by rewrite Hv'.
Qed.

(** X21: the [open] of [IndexDB] on a host that has never seen the
    database.  Under the same conditions, when moreover no index list
    uses a name twice and the key paths of the indexes are valid, the
    promise resolves with the connected instance and every declared store
    is created with the indexes of its index list, in the declared
    order. *)
Theorem IndexDB_open_creates_the_indexes (win : window) (dataBaseName : string)
    (storeList : list store_decl) (f : IDBFactory) (w : world) :
  js_or (indexedDB win) (webkitIndexedDB win) = Some f ->
  version w = 0 ->
  stores w = ∅ ->
  fst (next_fault w) = false ->
  NoDup (map store_name storeList) ->
  Forall (fun decl => valid_key_path (store_key decl) = true) storeList ->
  (forall decl l, decl ∈ storeList -> indexList decl = Some l ->
                  NoDup (map indexName l) /\
                  Forall (fun ix => valid_key_path (index_keyPath ix) = true) l) ->
  exists w',
    IndexDB_open (constructor win dataBaseName storeList) w
    = (OpenResolvedThis
         (with_dataBase (constructor win dataBaseName storeList) (Connection false)), w') /\
    (forall decl, decl ∈ storeList ->
                  stores w' !! store_name decl
                  = Some {| keyPath := store_key decl; records := [];
                            indexes := default [] (indexList decl) |}).
Proof.
  intros Hf Hv Hst Hq Hnd Hval Hix. unfold IndexDB_open.
  rewrite (open_with_fresh _ _ _ _ _ _ Hf Hv Hq).
  rewrite Forall_forall in Hval.
  assert (Hcreated : forall decl, decl ∈ storeList ->
            created createIndex decl
            = Some {| keyPath := store_key decl; records := [];
                      indexes := default [] (indexList decl) |}).
  { intros decl Hd. unfold created. rewrite (Hval decl Hd).
    destruct (indexList decl) as [l|] eqn:E; [|reflexivity].
    rewrite createIndex_spec. destruct (Hix decl l Hd E) as [Hn Hk].
    rewrite bool_decide_eq_true_2; [reflexivity|].
    split; [exact Hn|]. split; [|exact Hk].
    apply Forall_true. intros ix. apply not_elem_of_nil. }
  destruct (upgrade_creates createIndex storeList (stores w) Hnd)
    as (db & -> & Hin & Hout).
  - intros decl _. by rewrite Hst.
  - intros decl Hd. rewrite (Hcreated decl Hd). eauto.
  - eexists. split; [reflexivity|]. cbn [stores].
    intros decl Hd. by rewrite (Hin decl Hd), (Hcreated decl Hd).
Qed.


(** X23: [open] on a database that exists.  The wrapper always asks for
    version 1.  When the database has that version and the request does
    not fail, no upgrade runs: the promise resolves with the connected
    instance and the stores are the ones the database had, whatever the
    store list declares, so a declared store that the database lacks is
    still missing and a call naming it throws [NotFoundError].  When the
    database has a newer version, the promise is rejected with
    [openFail]. *)
Theorem open_of_an_existing_database (win : window) (dataBaseName : string)
    (storeList : list store_decl) (f : IDBFactory) (w : world) :
  js_or (indexedDB win) (webkitIndexedDB win) = Some f ->
  1 <= version w ->
  fst (next_fault w) = false ->
  (version w = 1 ->
   open (constructor win dataBaseName storeList) w
   = (OpenResolvedThis
        (with_dataBase (constructor win dataBaseName storeList) (Connection false)),
      skip 1 w) /\
   forall storeName k, stores w !! storeName = None ->
     get (with_dataBase (constructor win dataBaseName storeList) (Connection false))
       storeName k (skip 1 w)
     = (Throws NotFoundError, skip 1 w)) /\
  (1 < version w ->
   open (constructor win dataBaseName storeList) w
   = (OpenRejected errorCode.openFail, skip 1 w)).
Proof.
  intros Hf Hv Hq.
  assert (E : open (constructor win dataBaseName storeList) w
              = if Z.ltb 1 (version w)
                then (OpenRejected errorCode.openFail, skip 1 w)
                else (OpenResolvedThis
                        (with_dataBase (constructor win dataBaseName storeList)
                           (Connection false)), skip 1 w)).
  { unfold open, open_with, constructor. cbn [_dataBase _indexedDB truthy].
    rewrite Hf. rewrite (next_fault_quiet _ Hq), next_fault_skip.
    cbn [_dbVersion _storeList orb]. change (version (skip 1 w)) with (version w).
    destruct (Z.ltb_spec 1 (version w)); [reflexivity|].
    destruct (Z.ltb_spec (version w) 1); [lia|reflexivity]. }
  rewrite E. split.
  - intros H1. rewrite H1. split; [reflexivity|].
    intros storeName k Hnone. unfold get, bind, makeRequest, bind, getStore.
    cbn [with_dataBase _dataBase]. change (stores (skip 1 w)) with (stores w).
    by rewrite Hnone.
  - intros H1. destruct (Z.ltb_spec 1 (version w)); [reflexivity|lia].
Qed.

(** ** How the calls can end *)

(** X24: [update], [remove] and [removeAll] end in one of three ways: the
    call throws an error object before any request exists, or the promise
    is resolved with the success status of the call, or it is rejected
    with the failure status of the call.  The promise is never pending,
    never resolved with a failure status and never rejected with anything
    else. *)
Theorem status_calls_settle (self : DB) (storeName : string) (w : world) :
  (forall newValue,
      status_settlement errorCode.updateSuccess errorCode.updateFail
        (fst (update self storeName newValue w))) /\
  (forall k,
      status_settlement errorCode.removeSuccess errorCode.removeFail
        (fst (remove self storeName k w))) /\
  status_settlement errorCode.removeAllSuccess errorCode.removeAllFail
    (fst (removeAll self storeName w)).
Proof.
  unfold status_settlement, update, remove, removeAll.
  split; [|split]; intros; apply status_call_settlement.
Qed.

Lemma updateByCursor_loop_settlement (attrName : string) (attr : jsval) (newVal : record)
    (rest : list record) (s : object_store) (cell : option promise) (w : world) :
  one_field (keyPath s) = true ->
  (forall p, cell = Some p -> updateByCursor_settlement p) ->
  Forall (fun r => shadowed r = false /\ is_Some (record_key (keyPath s) r)) rest ->
  updateByCursor_settlement
    (fst (fst (updateByCursor_loop attrName attr newVal rest s cell w))).
Proof.
  unfold updateByCursor_settlement.
  revert s cell w. induction rest as [|cur rest IH]; intros s cell w Hid Hcell Hkeys;
    cbn [updateByCursor_loop]; destruct (next_fault w) as [[|] w1]; cbn [fst snd];
    try (destruct cell as [p|]; cbn [settle]; [by apply Hcell|auto 10]).
  apply Forall_cons in Hkeys as [[Hsh [kc Hkc]] Hkeys].
  assert (Hres : forall q, updateByCursor_settlement q ->
                           forall p, resolve cell q = Some p ->
                                     updateByCursor_settlement p).
  { intros q Hq p. destruct cell as [p0|]; simpl; intros H; inversion H; subst;
      [by apply Hcell|exact Hq]. }
  rewrite (matches_unshadowed _ _ _ Hsh).
  destruct (has_attr attrName attr cur); [|by apply IH].
  destruct (strict_equal _ _) eqn:Heq.
  - assert (Hkn : record_key (keyPath s) newVal = Some kc).
    { rewrite (record_key_one_field _ _ Hid) in Hkc.
      rewrite (record_key_one_field _ _ Hid).
      by rewrite <- (strict_equal_eq _ _ Heq). }
    unfold cursor_update. rewrite Hkc, Hkn.
    destruct (decide (kc = kc)) as [_|Hne]; [|by destruct Hne].
    destruct (native_put s newVal) as [e|[ev s1]] eqn:Hp.
    { unfold native_put in Hp. rewrite Hkn in Hp.
      destruct (violates_unique s kc newVal); [discriminate|].
      destruct (existsb _ _); discriminate. }
    pose proof (native_put_same_schema _ _ _ _ Hp) as (Hkp & _ & _).
    destruct (next_fault w1) as [[|] w2]; cbn [fst snd promisify].
    + destruct cell as [p|]; cbn [resolve settle]; [by apply Hcell|auto 10].
    + destruct ev; cbn [fst snd promisify].
      * apply IH; [by rewrite Hkp| |by rewrite Hkp].
        apply Hres; unfold updateByCursor_settlement; auto.
      * destruct cell as [p|]; cbn [resolve settle]; [by apply Hcell|auto 10].
  - apply IH; [exact Hid| |exact Hkeys].
    apply Hres; unfold updateByCursor_settlement; auto 10.
Qed.

Lemma deleteByCursor_loop_settlement (attrName : string) (attr : jsval)
    (rest : list record) (s : object_store) (cell : option promise) (w : world) :
  (forall p, cell = Some p -> deleteByCursor_settlement p) ->
  Forall (fun r => shadowed r = false) rest ->
  deleteByCursor_settlement (fst (fst (deleteByCursor_loop attrName attr rest s cell w))).
Proof.
  unfold deleteByCursor_settlement.
  revert s cell w. induction rest as [|cur rest IH]; intros s cell w Hcell Hsh;
    cbn [deleteByCursor_loop]; destruct (next_fault w) as [[|] w1]; cbn [fst snd];
    try (destruct cell as [p|]; cbn [settle]; [by apply Hcell|auto 10]).
  apply Forall_cons in Hsh as [Hcur Hsh].
  rewrite (matches_unshadowed _ _ _ Hcur).
  destruct (has_attr attrName attr cur); [|by apply IH].
  unfold cursor_delete.
  destruct (next_fault w1) as [[|] w2]; cbn [fst snd promisify].
  - destruct cell as [p|]; cbn [resolve settle]; [by apply Hcell|auto 10].
  - apply IH; [|exact Hsh].
    intros p. destruct cell as [p0|]; simpl; intros H; inversion H; subst;
      [by apply Hcell|auto].
Qed.

(** X25: how the cursor calls can settle, on a store none of whose records
    has an own property named [hasOwnProperty].  A promise of
    [deleteByCursor] is resolved with [deleteSuccess], [deleteFail] or
    [noFound], or rejected with [deleteFail]; a promise of
    [getAllByCursor] is resolved with an array or with [undefined]; and,
    when the key path names one field and the records all have a valid
    key, a promise of [updateByCursor] is resolved with [updateSuccess],
    [updateFail], [primaryKey] or [noFound], or rejected with
    [updateFail].  None is left pending. *)
Theorem cursor_calls_settle (self : DB) (storeName attrName : string) (attr : jsval)
    (newVal : record) (s : object_store) (w : world) :
  stores w !! storeName = Some s ->
  Forall (fun r => shadowed r = false) (records s) ->
  (one_field (keyPath s) = true ->
   Forall (fun r => is_Some (record_key (keyPath s) r)) (records s) ->
   forall p, fst (updateByCursor self storeName attrName attr newVal w) = Returns p ->
             updateByCursor_settlement p) /\
  (forall p, fst (deleteByCursor self storeName attrName attr w) = Returns p ->
             deleteByCursor_settlement p) /\
  (forall p, fst (getAllByCursor self storeName w) = Returns p ->
             getAllByCursor_settlement p).
Proof.
  intros Hs Hsh. split; [|split].
  - intros Hid Hkeys p. unfold updateByCursor, bind.
    destruct (getStore self storeName readwrite w) as [[e|s0] w0] eqn:E; [discriminate|].
    apply getStore_Returns in E as (-> & _ & Hs0). rewrite Hs in Hs0.
    inversion Hs0; subst s0.
    assert (Hall : Forall (fun r => shadowed r = false /\
                                    is_Some (record_key (keyPath s) r)) (records s)).
    { rewrite Forall_forall in Hsh, Hkeys |- *. intros r Hr. split; auto. }
    pose proof (updateByCursor_loop_settlement attrName attr newVal (records s) s None w
                  Hid) as H.
    destruct (updateByCursor_loop attrName attr newVal (records s) s None w)
      as [[q [s'|]] w']; simpl in *; intros Hp; inversion Hp; subst; by apply H.
  - intros p. unfold deleteByCursor, bind.
    destruct (getStore self storeName readwrite w) as [[e|s0] w0] eqn:E; [discriminate|].
    apply getStore_Returns in E as (-> & _ & Hs0). rewrite Hs in Hs0.
    inversion Hs0; subst s0.
    pose proof (deleteByCursor_loop_settlement attrName attr (records s) s None w) as H.
    destruct (deleteByCursor_loop attrName attr (records s) s None w)
      as [[q [s'|]] w']; simpl in *; intros Hp; inversion Hp; subst; by apply H.
  - intros p. unfold getAllByCursor, bind.
    destruct (getStore self storeName readonly w) as [[e|s0] w0] eqn:E; [discriminate|].
    pose proof (getAllByCursor_loop_fate (records s0) [] w0) as H.
    destruct (getAllByCursor_loop (records s0) [] w0) as [q w']. simpl in *.
    intros Hp; inversion Hp; subst. unfold getAllByCursor_settlement.
    destruct (quiet _ w0); eauto.
Qed.

(** ** The further properties on the sample database *)

Lemma calls_keep_stores_keyed_witness : keyed (task_store [alice; bob]).
Proof.
  apply (calls_keep_stores_keyed sample_db (Mset "task" bob) (sample_world [alice] []))
    with (name := "task"); [|vm_compute; reflexivity].
  intros name s H. cbn [sample_world stores] in H.
  apply lookup_singleton_Some in H as [_ <-].
  split.
  - repeat constructor; eexists; reflexivity.
  - apply NoDup_singleton.
Defined.

Lemma failed_call_writes_nothing_witness :
  stores (snd (method_call sample_db (Mupdate "task" alice_as_bob)
                 (sample_world [alice; bob] [])))
  = stores (sample_world [alice; bob] []).
Proof.
  apply (failed_call_writes_nothing sample_db (Mupdate "task" alice_as_bob)
           (sample_world [alice; bob] [])); [reflexivity|vm_compute; exact I].
Defined.

Lemma remove_then_get_witness :
  fst (remove sample_db "task" (VNum 1) (sample_world [alice; bob] []))
  = Returns (Resolved errorCode.removeSuccess) /\
  fst (get sample_db "task" (VNum 1)
         (snd (remove sample_db "task" (VNum 1) (sample_world [alice; bob] []))))
  = Returns (Resolved VUndefined) /\
  exists s', stores (snd (remove sample_db "task" (VNum 1)
                            (sample_world [alice; bob] []))) !! "task" = Some s' /\
             forall k', k' <> KNum 1 ->
                        store_lookup s' k' = store_lookup (task_store [alice; bob]) k'.
Proof.
  exact (remove_then_get sample_db "task" (task_store [alice; bob]) (VNum 1) (KNum 1)
           (sample_world [alice; bob] []) eq_refl eq_refl eq_refl eq_refl).
Defined.

Lemma removeAll_then_read_witness :
  fst (removeAll sample_db "task" (sample_world [alice; bob] []))
  = Returns (Resolved errorCode.removeAllSuccess) /\
  fst (getAll sample_db "task"
         (snd (removeAll sample_db "task" (sample_world [alice; bob] []))))
  = Returns (Resolved (VArr [])) /\
  fst (getAllKeys sample_db "task"
         (snd (removeAll sample_db "task" (sample_world [alice; bob] []))))
  = Returns (Resolved (VArr [])) /\
  fst (getAllByCursor sample_db "task"
         (snd (removeAll sample_db "task" (sample_world [alice; bob] []))))
  = Returns (Resolved (VArr [])).
Proof.
  exact (removeAll_then_read sample_db "task" (task_store [alice; bob])
           (sample_world [alice; bob] []) eq_refl eq_refl eq_refl).
Defined.

Lemma update_then_get_witness :
  exists k s',
    record_key "id" alice_retagged = Some k /\
    fst (get sample_db "task" (key_to_value k)
           (snd (update sample_db "task" alice_retagged (sample_world [alice; bob] []))))
    = Returns (Resolved (VObj alice_retagged)) /\
    (one_field "id" = true ->
     fst (get sample_db "task" (get_prop alice_retagged "id")
            (snd (update sample_db "task" alice_retagged (sample_world [alice; bob] []))))
     = Returns (Resolved (VObj alice_retagged))) /\
    stores (snd (update sample_db "task" alice_retagged (sample_world [alice; bob] [])))
      !! "task" = Some s' /\
    forall k', k' <> k ->
               store_lookup s' k' = store_lookup (task_store [alice; bob]) k'.
Proof.
  apply (update_then_get sample_db "task" (task_store [alice; bob]) alice_retagged
           (sample_world [alice; bob] [])
           (snd (update sample_db "task" alice_retagged (sample_world [alice; bob] []))));
    vm_compute; reflexivity.
Defined.

Lemma getAllByCursor_is_getAll_witness :
  getAllByCursor sample_db "task" (sample_world [alice; bob] [])
  = getAll sample_db "task" (sample_world [alice; bob] []).
Proof.
  exact (getAllByCursor_is_getAll sample_db "task" (sample_world [alice; bob] []) eq_refl).
Defined.

Lemma set_new_key_witness :
  fst (set sample_db "task" bob (sample_world [alice] []))
  = Returns (Resolved errorCode.setSuccess).
Proof.
  destruct (set_new_key sample_db "task" (task_store [alice]) bob (KNum 2)
              (sample_world [alice] [])
              eq_refl eq_refl eq_refl eq_refl eq_refl eq_refl eq_refl eq_refl)
    as [H _].
  rewrite H. reflexivity.
Defined.


Lemma setBatch_without_key_field_witness :
  setBatch sample_db "task" [anonymous; anonymous] (sample_world [alice] [])
  = (Returns (Resolved errorCode.setBatchSuccess), sample_world [alice] []).
Proof.
  apply (setBatch_without_key_field sample_db "task" (task_store [alice])
           [anonymous; anonymous] (sample_world [alice] []));
    [reflexivity|reflexivity|repeat constructor].
Defined.

Lemma setBatch_new_keys_witness :
  fst (setBatch sample_db "note" [bob; alice]
         {| version := 1;
            stores := {["note" := {| keyPath := "id"; records := []; indexes := [] |}]};
            faults := [] |})
  = Returns (Resolved errorCode.setBatchSuccess).
Proof.
  refine (proj1 (setBatch_new_keys sample_db "note"
                   {| keyPath := "id"; records := []; indexes := [] |} [bob; alice]
                   {| version := 1;
                      stores := {["note" := {| keyPath := "id"; records := [];
                                               indexes := [] |}]};
                      faults := [] |} eq_refl eq_refl eq_refl eq_refl _ _ _ _)).
  - constructor.
  - repeat constructor.
  - apply NoDup_cons. split; [|apply NoDup_singleton].
    intros H. apply list_elem_of_singleton in H. discriminate.
  - repeat constructor; eexists; (split; [reflexivity|apply not_elem_of_nil]).
Defined.

Lemma deleteByCursor_deletes_every_match_witness :
  deleteByCursor sample_db "task" "email" (VStr "a") (sample_world [alice; bob] [])
  = (Returns (Resolved indexErrorCode.deleteSuccess),
     set_store "task" (task_store [bob]) (sample_world [alice; bob] [])).
Proof.
  apply (deleteByCursor_deletes_every_match sample_db "task" "email" (VStr "a")
           (task_store [alice; bob]) (sample_world [alice; bob] []));
    [reflexivity|reflexivity|exact keyed_task_store_alice_bob|repeat constructor
    |reflexivity].
Defined.


Lemma updateByCursor_keeps_the_keys_witness :
  exists s', stores (snd (updateByCursor sample_db "task" "email" (VStr "b")
                            alice_retagged (sample_world [alice; bob] [])))
               !! "task" = Some s' /\
             store_keys s' = store_keys (task_store [alice; bob]) /\
             length (records s') = length (records (task_store [alice; bob])).
Proof.
  exact (updateByCursor_keeps_the_keys sample_db "task" "email" (VStr "b") alice_retagged
           (task_store [alice; bob]) (sample_world [alice; bob] []) eq_refl).
Defined.

Lemma getByIndex_finds_a_record_witness :
  (indexed_at (task_store [alice; bob]) mail_index (KStr "b") = [] /\
   fst (getByIndex sample_db "task" "mail" (VStr "b") (sample_world [alice; bob] []))
   = Returns (Resolved VUndefined) /\
   fst (getKeyByIndex sample_db "task" "mail" (VStr "b") (sample_world [alice; bob] []))
   = Returns (Resolved VUndefined)) \/
  (exists r, In r (records (task_store [alice; bob])) /\
             record_key (index_keyPath mail_index) r = Some (KStr "b") /\
             fst (getByIndex sample_db "task" "mail" (VStr "b")
                    (sample_world [alice; bob] []))
             = Returns (Resolved (VObj r)) /\
             fst (getKeyByIndex sample_db "task" "mail" (VStr "b")
                    (sample_world [alice; bob] []))
             = Returns (Resolved (primary_key_value (task_store [alice; bob]) r))).
Proof.
  exact (getByIndex_finds_a_record sample_db "task" "mail" (task_store [alice; bob])
           mail_index (VStr "b") (KStr "b") (sample_world [alice; bob] [])
           eq_refl eq_refl eq_refl eq_refl eq_refl).
Defined.

Lemma getCountByIndex_counts_witness :
  fst (getCountByIndex sample_db "task" "mail" VUndefined (sample_world [alice; bob] []))
  = Returns (Resolved (VNum 2)).
Proof.
  destruct (getCountByIndex_counts sample_db "task" "mail" (task_store [alice; bob])
              mail_index (sample_world [alice; bob] [])
              eq_refl eq_refl eq_refl eq_refl) as [_ H].
  exact H.
Defined.

Lemma open_creates_the_stores_witness :
  (exists w',
     open fresh_db {| version := 0; stores := ∅; faults := [] |}
     = (OpenResolvedThis sample_db, w') /\
     version w' = 1 /\
     (forall decl, decl ∈ [task_decl] ->
                   stores w' !! store_name decl = Some (fresh_store decl)) /\
     (forall name, name ∉ map store_name [task_decl] -> stores w' !! name = None)) /\
  open (constructor browser "mydatabase"
          [{| store_name := "task"; store_key := "task id"; indexList := None |}])
    {| version := 0; stores := ∅; faults := [] |}
  = (OpenRejected errorCode.openFail,
     skip 1 {| version := 0; stores := ∅; faults := [] |}).
Proof.
  split.
  - apply (proj1 (open_creates_the_stores browser "mydatabase" [task_decl] Factory
                    {| version := 0; stores := ∅; faults := [] |}
                    eq_refl eq_refl eq_refl eq_refl (NoDup_singleton _))).
    repeat constructor.
  - apply (proj2 (open_creates_the_stores browser "mydatabase"
                    [{| store_name := "task"; store_key := "task id";
                        indexList := None |}]
                    Factory {| version := 0; stores := ∅; faults := [] |}
                    eq_refl eq_refl eq_refl eq_refl (NoDup_singleton _))
             {| store_name := "task"; store_key := "task id"; indexList := None |});
      [apply list_elem_of_singleton; reflexivity|reflexivity|reflexivity].
Defined.

Lemma IndexDB_open_creates_the_indexes_witness :
  exists w',
    IndexDB_open fresh_db {| version := 0; stores := ∅; faults := [] |}
    = (OpenResolvedThis sample_db, w') /\
    (forall decl, decl ∈ [task_decl] ->
                  stores w' !! store_name decl
                  = Some {| keyPath := store_key decl; records := [];
                            indexes := default [] (indexList decl) |}).
Proof.
  apply (IndexDB_open_creates_the_indexes browser "mydatabase" [task_decl] Factory
           {| version := 0; stores := ∅; faults := [] |}); try reflexivity.
  - apply NoDup_singleton.
  - repeat constructor.
  - intros decl l Hd Hl. apply list_elem_of_singleton in Hd. subst decl.
    inversion Hl. split; [apply NoDup_singleton|repeat constructor].
Defined.


Lemma open_of_an_existing_database_witness :
  open fresh_db (sample_world [alice] [])
  = (OpenResolvedThis sample_db, skip 1 (sample_world [alice] [])).
Proof.
  destruct (open_of_an_existing_database browser "mydatabase" [task_decl] Factory
              (sample_world [alice] []) eq_refl) as [H _];
    [vm_compute; discriminate|reflexivity|].
  destruct (H eq_refl) as [H1 _]. exact H1.
Defined.

Lemma cursor_calls_settle_witness :
  updateByCursor_settlement (Resolved indexErrorCode.primaryKey).
Proof.
  destruct (cursor_calls_settle sample_db "task" "email" (VStr "b") alice_retagged
              (task_store [alice; bob]) (sample_world [alice; bob] []) eq_refl)
    as [H _].
  - repeat constructor.
  - apply (H eq_refl); [repeat constructor; eexists; reflexivity|reflexivity].
Defined.

(** ** The engine on the sample stores *)

(** The engine reads a key path step by step; the wrapper tests and reads
    the property named by the whole path.  So [update] stores [nested]
    under the key 1, while [set] finds no key field in it; and [set]
    finds a key field in [dotted], in which the engine finds no key. *)
Example key_path_of_two_steps :
  record_key "a.b" nested = Some (KNum 1) /\
  record_key "a.b" dotted = None /\
  update sample_db "deep" nested (deep_world [] [])
  = (Returns (Resolved errorCode.updateSuccess), deep_world [nested] []) /\
  set sample_db "deep" nested (deep_world [] [])
  = (Returns (Resolved errorCode.setNoCorresponding), deep_world [] []) /\
  set sample_db "deep" dotted (deep_world [] [])
  = (Returns (Rejected DataError), deep_world [] []) /\
  fst (get sample_db "deep" (VNum 1) (deep_world [nested] []))
  = Returns (Resolved (VObj nested)) /\
  fst (getByIndex sample_db "deep" "city" (VStr "x") (deep_world [nested] []))
  = Returns (Resolved (VObj nested)) /\
  fst (getCountByIndex sample_db "deep" "city" VNull (deep_world [nested] []))
  = Returns (Resolved (VNum 1)).
Proof. repeat split; vm_compute; reflexivity. Qed.

(** Key paths the engine accepts and refuses. *)
Example key_paths :
  valid_key_path "id" = true /\ valid_key_path "addr.city" = true /\
  valid_key_path "" = true /\ valid_key_path "$a._b1" = true /\
  valid_key_path "task id" = false /\ valid_key_path "a..b" = false /\
  valid_key_path "1a" = false /\ valid_key_path "e-mail" = false.
Proof. repeat split; reflexivity. Qed.

(** String keys are ordered by code units: a character above the basic
    plane, written as a surrogate pair, comes before a character at the
    end of the basic plane, although its code point and its bytes are
    larger. *)
Example key_order :
  key_compare (KStr "😀") (KStr "～") = Lt /\
  String.compare "😀" "～" = Gt /\
  key_compare (KStr "a") (KStr "b") = Lt /\
  key_compare (KStr "é") (KStr "z") = Gt /\
  key_compare (KNum 7) (KStr "") = Lt /\
  key_compare (KStr "z") (KArr []) = Lt /\
  record_key "name.length" [("name", VStr "né😀")] = Some (KNum 4).
Proof. repeat split; vm_compute; reflexivity. Qed.

(** A handler that throws.  First run: the record under the cursor has
    the key 1 at [a.b], the new value the key 2; the wrapper compares the
    properties named [a.b], which both lack, calls [cursor.update], and
    the engine throws: the promise stays pending.  Second run: [alice] is
    deleted and the promise resolved, then the test throws on a record
    with an own property named [hasOwnProperty]; the transaction is
    aborted and [alice] is still in the store. *)
Example handler_throws :
  updateByCursor sample_db "deep" "tag" (VStr "x")
    [("a", VObj [("b", VNum 2)]); ("tag", VStr "y")]
    (deep_world [[("a", VObj [("b", VNum 1)]); ("tag", VStr "x")]] [])
  = (Returns Pending, deep_world [[("a", VObj [("b", VNum 1)]); ("tag", VStr "x")]] []) /\
  deleteByCursor sample_db "task" "tag" (VStr "x")
    (sample_world [alice; [("id", VNum 5); ("hasOwnProperty", VNull)]] [])
  = (Returns (Resolved indexErrorCode.deleteSuccess),
     sample_world [alice; [("id", VNum 5); ("hasOwnProperty", VNull)]] []).
Proof. split; vm_compute; reflexivity. Qed.
